(** * NachOS post office: mailboxes, unreliable send, reliable send/receive

    A shallow embedding of [code/threads/list.cc] and [code/network/post.cc].

    - [LinkedList] models the singly-linked [List] of list.cc at the level of
      its cells and of its [first]/[last] pointers, and relates it to the
      sequence of items it holds.
    - [CString] models the libc routines post.cc calls on character buffers.
    - [Post] models [Mail], [MailBox] and [PostOffice]; the queues are then
      represented by the sequence of their items, which [LinkedList] justifies.
*)

From stdpp Require Import gmap list sorting.
From Stdlib Require Import ZArith Lia.
From Stdlib.Strings Require Import Byte.

Open Scope Z_scope.

(* ================================================================== *)
(** * list.cc: the singly-linked list *)
(* ================================================================== *)

Module LinkedList.

(** Addresses of [ListElement]s allocated with [new]. *)
Definition loc := positive.

(** How a routine that walks the cells ends: it returns; it dereferences a
    NULL or dangling pointer; or its loop has not come to an end within the
    number of turns it was given. *)
Inductive run (X : Type) : Type :=
| Returns (x : X)
| Faults
| Unfinished.
Arguments Returns {X}.
Arguments Faults {X}.
Arguments Unfinished {X}.

#[global] Instance run_ret : MRet run := λ X x, Returns x.

#[global] Instance run_bind : MBind run := λ X Y k c,
  match c with
  | Returns x => k x
  | Faults => Faults
  | Unfinished => Unfinished
  end.

Section list_cc.
Context {A : Type}.

(** [class ListElement]: [item] is the [void *] the cell carries. *)
Record ListElement := mkListElement {
  item : A;
  key  : Z;
  next : option loc
}.

(** [class List]: the allocated cells, and the two pointers of the object.
    [None] is the NULL pointer. *)
Record List := mkList {
  cells : gmap loc ListElement;
  first : option loc;
  last  : option loc
}.

(** [List::List] *)
Definition new_List : List :=
  {| cells := ∅; first := None; last := None |}.

(** [List::IsEmpty] *)
Definition IsEmpty (L : List) : bool :=
  match first L with
  | None => true
  | Some _ => false
  end.

(** [List::Append].  [None] stands for the dereference of a NULL or dangling
    pointer ([last->next] when [last] is not a live cell). *)
Definition Append (x : A) (L : List) : option List :=
  let element := fresh (dom (cells L)) in
  let h := <[element := mkListElement x 0 None]> (cells L) in
  if IsEmpty L then
    Some {| cells := h; first := Some element; last := Some element |}
  else
    l ← last L;
    e ← h !! l;
    Some {| cells := <[l := mkListElement (item e) (key e) (Some element)]> h;
            first := first L;
            last := Some element |}.

(** [List::SortedRemove]: the removed item with its key, [None] for the NULL
    result on an empty list. *)
Definition SortedRemove (L : List) : option (option (A * Z) * List) :=
  if IsEmpty L then Some (None, L)
  else
    element ← first L;
    e ← cells L !! element;
    let thing := item e in
    let L' :=
      if bool_decide (first L = last L)
      then {| cells := delete element (cells L); first := None; last := None |}
      else {| cells := delete element (cells L); first := next e; last := last L |} in
    Some (Some (thing, key e), L').

(** [List::Remove]: [SortedRemove (NULL)], the key is dropped. *)
Definition Remove (L : List) : option (option A * List) :=
  match SortedRemove L with
  | Some (Some (thing, _), L') => Some (Some thing, L')
  | Some (None, L') => Some (None, L')
  | None => None
  end.

(** [List::GetFirst]: [first->item], with no test of [first]. *)
Definition GetFirst (L : List) : option A :=
  f ← first L;
  e ← cells L !! f;
  Some (item e).

(** ** The sequence of items a list holds *)

(** The cells at [ps] hold [xs] in order, each one pointing to the next and the
    final one to NULL. *)
Fixpoint seg (h : gmap loc ListElement) (ps : list loc) (xs : list A) : Prop :=
  match ps, xs with
  | [], [] => True
  | p :: ps', x :: xs' =>
      (∃ k, h !! p = Some (mkListElement x k (head ps'))) ∧ seg h ps' xs'
  | _, _ => False
  end.

Definition is_list (L : List) (xs : list A) : Prop :=
  ∃ ps, NoDup ps ∧ seg (cells L) ps xs
        ∧ first L = head ps ∧ last L = list.last ps.

(** Appending [n] items, then removing [n] items. *)
Fixpoint appends (xs : list A) (L : List) : option List :=
  match xs with
  | [] => Some L
  | x :: xs' => L' ← Append x L; appends xs' L'
  end.

Fixpoint removes (n : nat) (L : List) : option (list (option A) * List) :=
  match n with
  | O => Some ([], L)
  | S n' =>
      match Remove L with
      | Some (r, L') =>
          match removes n' L' with
          | Some (rs, L'') => Some (r :: rs, L'')
          | None => None
          end
      | None => None
      end
  end.

(** ** The other routines of list.cc *)

(** [ptr->field] for a pointer that may be NULL or dangling. *)
Definition deref (h : gmap loc ListElement) (ptr : option loc)
    : run ListElement :=
  match ptr with
  | Some p =>
      match h !! p with
      | Some c => Returns c
      | None => Faults
      end
  | None => Faults
  end.

Definition set_next (v : option loc) (c : ListElement) : ListElement :=
  mkListElement (item c) (key c) v.

Definition set_key (k : Z) (c : ListElement) : ListElement :=
  mkListElement (item c) k (next c).

(** [ptr->field = v] *)
Definition update (f : ListElement → ListElement) (ptr : option loc)
    (h : gmap loc ListElement) : run (gmap loc ListElement) :=
  match ptr with
  | Some p =>
      match h !! p with
      | Some c => Returns (<[p := f c]> h)
      | None => Faults
      end
  | None => Faults
  end.

(** [List::Prepend] *)
Definition Prepend (x : A) (L : List) : List :=
  let element := fresh (dom (cells L)) in
  if IsEmpty L then
    {| cells := <[element := mkListElement x 0 None]> (cells L);
       first := Some element; last := Some element |}
  else
    {| cells := <[element := mkListElement x 0 (first L)]> (cells L);
       first := Some element; last := last L |}.

(** [List::Mapcar]: [func] is applied to the items, from [ptr] on.  What
    [func] does is a change of some state [S]; it does not touch the list. *)
Fixpoint Mapcar_loop {S : Type} (turns : nat) (func : A → S → S)
    (ptr : option loc) (h : gmap loc ListElement) (s : S) : run S :=
  match turns with
  | O => Unfinished
  | Datatypes.S turns' =>
      match ptr with
      | None => Returns s
      | Some _ =>
          c ← deref h ptr;
          Mapcar_loop turns' func (next c) h (func (item c) s)
      end
  end.

Definition Mapcar {S : Type} (turns : nat) (func : A → S → S) (L : List)
    (s : S) : run S :=
  Mapcar_loop turns func (first L) (cells L) s.

(** The loop of [List::SortedInsert], from [ptr] on: the heap when [element]
    has been linked in front of a cell with a bigger key, [None] when the loop
    has come to the final cell. *)
Fixpoint SortedInsert_loop (turns : nat) (element : option loc) (sortKey : Z)
    (ptr : option loc) (h : gmap loc ListElement)
    : run (option (gmap loc ListElement)) :=
  match turns with
  | O => Unfinished
  | S turns' =>
      c ← deref h ptr;
      match next c with
      | None => Returns None
      | Some _ =>
          n ← deref h (next c);
          if bool_decide (sortKey < key n) then
            h ← update (set_next (next c)) element h;
            h ← update (set_next element) ptr h;
            Returns (Some h)
          else SortedInsert_loop turns' element sortKey (next c) h
      end
  end.

(** [List::SortedInsert] *)
Definition SortedInsert (turns : nat) (x : A) (sortKey : Z) (L : List)
    : run List :=
  let element := fresh (dom (cells L)) in
  let h := <[element := mkListElement x sortKey None]> (cells L) in
  if IsEmpty L then
    Returns {| cells := h; first := Some element; last := Some element |}
  else
    f ← deref h (first L);
    if bool_decide (sortKey < key f) then
      h ← update (set_next (first L)) (Some element) h;
      Returns {| cells := h; first := Some element; last := last L |}
    else
      r ← SortedInsert_loop turns (Some element) sortKey (first L) h;
      match r with
      | Some h => Returns {| cells := h; first := first L; last := last L |}
      | None =>
          h ← update (set_next (Some element)) (last L) h;
          Returns {| cells := h; first := first L; last := Some element |}
      end.

(** [List::~List]: [while (Remove () != NULL);].  [Remove] hands back the
    item of the cell it unlinked, and an item is a [void *] that may itself
    be NULL: [is_NULL] tells. *)
Fixpoint List_destructor (is_NULL : A → bool) (turns : nat) (L : List)
    : run List :=
  match turns with
  | O => Unfinished
  | S turns' =>
      match Remove L with
      | None => Faults
      | Some (None, L') => Returns L'
      | Some (Some thing, L') =>
          if is_NULL thing then Returns L'
          else List_destructor is_NULL turns' L'
      end
  end.

(** [ListForJoin::AppendTraverse] *)
Definition AppendTraverse (x : A) (k : Z) (L : List) : run List :=
  match Append x L with
  | None => Faults
  | Some L' =>
      h ← update (set_key k) (last L') (cells L');
      Returns {| cells := h; first := first L'; last := last L' |}
  end.

(** The loop of [ListForJoin::RemoveTraverse], from [ptr] on, [ptrPre] being
    the cell before it: [thing] and the list at [return thing]. *)
Fixpoint RemoveTraverse_loop (turns : nat) (newKey : Z)
    (ptrPre ptr : option loc) (L : List) : run (option A * List) :=
  match turns with
  | O => Unfinished
  | S turns' =>
      match ptr with
      | None => Returns (None, L)
      | Some p =>
          c ← deref (cells L) ptr;
          if bool_decide (newKey = key c) then
            L' ← (if bool_decide (ptr = first L) then
                    Returns {| cells := cells L; first := next c;
                               last := last L |}
                  else if bool_decide (ptr = last L) then
                    h ← update (set_next None) ptrPre (cells L);
                    Returns {| cells := h; first := first L; last := ptrPre |}
                  else
                    h ← update (set_next (next c)) ptrPre (cells L);
                    Returns {| cells := h; first := first L; last := last L |});
            Returns (Some (item c),
                     {| cells := delete p (cells L'); first := first L';
                        last := last L' |})
          else RemoveTraverse_loop turns' newKey ptr (next c) L
      end
  end.

(** [ListForJoin::RemoveTraverse]: the item, [None] for NULL.  With one cell
    in the list the cell is unlinked and not deleted. *)
Definition RemoveTraverse (turns : nat) (newKey : Z) (L : List)
    : run (option A * List) :=
  if IsEmpty L then Returns (None, L)
  else if bool_decide (first L = last L) then
    f ← deref (cells L) (first L);
    if bool_decide (key f = newKey) then
      Returns (Some (item f),
               {| cells := cells L; first := None; last := None |})
    else Returns (None, L)
  else RemoveTraverse_loop turns newKey None (first L) L.

(** [ListForJoin::seek] *)
Fixpoint seek_loop (turns : nat) (newKey : Z) (ptr : option loc)
    (h : gmap loc ListElement) : run bool :=
  match turns with
  | O => Unfinished
  | S turns' =>
      match ptr with
      | None => Returns false
      | Some _ =>
          c ← deref h ptr;
          if bool_decide (newKey = key c) then Returns true
          else seek_loop turns' newKey (next c) h
      end
  end.

Definition seek (turns : nat) (newKey : Z) (L : List) : run bool :=
  seek_loop turns newKey (first L) (cells L).

(** [ListForJoin::isEmpty] *)
Definition isEmpty (L : List) : bool := IsEmpty L.

(** ** Cells, their addresses and what they hold *)

(** A cell of the list: its address, its item and its key. *)
Abbreviation node := (loc * (A * Z))%type (only parsing).

Definition addresses (cs : list node) : list loc := fst <$> cs.
Definition entries (cs : list node) : list (A * Z) := snd <$> cs.

(** The address of the first of [cs], [tl] when there is none. *)
Definition start (cs : list node) (tl : option loc) : option loc :=
  match cs with
  | [] => tl
  | c :: _ => Some c.1
  end.

(** The cells [cs] are linked in this order, the final one to [tl]. *)
Fixpoint lseg (h : gmap loc ListElement) (cs : list node) (tl : option loc)
    : Prop :=
  match cs with
  | [] => True
  | c :: cs' =>
      h !! c.1 = Some (mkListElement c.2.1 c.2.2 (start cs' tl))
      ∧ lseg h cs' tl
  end.

(** The list is made of the cells [cs]. *)
Definition laid_out (L : List) (cs : list node) : Prop :=
  NoDup (addresses cs) ∧ lseg (cells L) cs None
  ∧ first L = head (addresses cs) ∧ last L = list.last (addresses cs).

(** The list is made of the cells [cs] and no other cell is allocated. *)
Definition owns (L : List) (cs : list node) : Prop :=
  laid_out L cs ∧ dom (cells L) = list_to_set (addresses cs).

(** The list holds the items [es] with their keys, in this order. *)
Definition is_keyed_list (L : List) (es : list (A * Z)) : Prop :=
  ∃ cs, laid_out L cs ∧ entries cs = es.

(** [new] put in front of the first of [l] whose key is bigger than [k], at
    the end when there is none. *)
Fixpoint inserted {T : Type} (key_of : T → Z) (k : Z) (new : T) (l : list T)
    : list T :=
  match l with
  | [] => [new]
  | y :: l' =>
      if bool_decide (k < key_of y) then new :: y :: l'
      else y :: inserted key_of k new l'
  end.

(** The first of [l] whose key is [k], and [l] without it. *)
Fixpoint removed {T : Type} (key_of : T → Z) (k : Z) (l : list T)
    : option T * list T :=
  match l with
  | [] => (None, [])
  | y :: l' =>
      if bool_decide (k = key_of y) then (Some y, l')
      else ((removed key_of k l').1, y :: (removed key_of k l').2)
  end.

Definition key_le {T : Type} (key_of : T → Z) (a b : T) : Prop :=
  key_of a ≤ key_of b.

(** The keys never go down along [es]. *)
Definition sorted_by_key (es : list (A * Z)) : Prop :=
  StronglySorted (key_le snd) es.

(** Items inserted one after the other, and [n] items removed from the
    front. *)
Fixpoint SortedInserts (turns : nat) (es : list (A * Z)) (L : List)
    : run List :=
  match es with
  | [] => Returns L
  | e :: es' =>
      L' ← SortedInsert turns e.1 e.2 L;
      SortedInserts turns es' L'
  end.

Fixpoint SortedRemoves (n : nat) (L : List)
    : option (list (option (A * Z)) * List) :=
  match n with
  | O => Some ([], L)
  | S n' =>
      match SortedRemove L with
      | Some (r, L') =>
          match SortedRemoves n' L' with
          | Some (rs, L'') => Some (r :: rs, L'')
          | None => None
          end
      | None => None
      end
  end.

(** ** Facts about the cells *)

Lemma seg_length h ps xs : seg h ps xs → length ps = length xs.
Proof.
  revert xs. induction ps as [|p ps IH]; intros [|x xs]; simpl; try tauto.
  intros [_ H]. f_equal. by apply IH.
Qed.

Lemma seg_dom h ps xs p : seg h ps xs → p ∈ ps → p ∈ dom h.
Proof.
  revert xs. induction ps as [|q ps IH]; intros [|x xs]; simpl; try tauto.
  - intros _ Hin. by apply elem_of_nil in Hin.
  - intros [[k Hq] Hseg] Hin. apply elem_of_cons in Hin as [->|Hin].
    + apply elem_of_dom. eauto.
    + eapply IH; eauto.
Qed.

(** Writing to a cell outside [ps] leaves the segment as it is. *)
Lemma seg_insert_fresh h ps xs p c :
  p ∉ ps → seg h ps xs → seg (<[p := c]> h) ps xs.
Proof.
  revert xs. induction ps as [|q ps IH]; intros [|x xs]; simpl; try tauto.
  intros Hnot [[k Hq] Hseg]. apply not_elem_of_cons in Hnot as [Hne Hnot].
  split; [|by apply IH].
  exists k. by rewrite lookup_insert_ne.
Qed.

Lemma seg_delete_fresh h ps xs p :
  p ∉ ps → seg h ps xs → seg (delete p h) ps xs.
Proof.
  revert xs. induction ps as [|q ps IH]; intros [|x xs]; simpl; try tauto.
  intros Hnot [[k Hq] Hseg]. apply not_elem_of_cons in Hnot as [Hne Hnot].
  split; [|by apply IH].
  exists k. by rewrite lookup_delete_ne.
Qed.

(** Linking a new cell after the final cell of a segment. *)
Lemma seg_link h ps xs q e p x :
  NoDup ps → p ∉ ps → list.last ps = Some q → h !! q = Some e →
  seg h ps xs →
  seg (<[q := mkListElement (item e) (key e) (Some p)]>
         (<[p := mkListElement x 0 None]> h))
      (ps ++ [p]) (xs ++ [x]).
Proof.
  intros Hnd Hp Hlast Hq. revert xs.
  induction ps as [|r ps IH]; intros xs Hseg; [done|].
  destruct xs as [|x0 xs]; [done|].
  destruct Hseg as [[k Hr] Hseg].
  apply NoDup_cons in Hnd as [Hr_notin Hnd].
  apply not_elem_of_cons in Hp as [Hpr Hp].
  destruct ps as [|r2 ps].
  - (* [r] is the final cell *)
    simpl in Hlast. injection Hlast as ->.
    destruct xs; [|done]. simpl in Hr. rewrite Hq in Hr. injection Hr as ->.
    simpl. split; [|split; [|done]].
    + exists k. by rewrite lookup_insert_eq.
    + exists 0. rewrite lookup_insert_ne by done. by rewrite lookup_insert_eq.
  - rewrite last_cons_cons in Hlast.
    assert (q ∈ r2 :: ps) as Hqin by (by apply last_Some_elem_of).
    assert (r ≠ q) as Hrq by (intros ->; done).
    split.
    + exists k. rewrite !lookup_insert_ne by done. exact Hr.
    + apply IH; done.
Qed.

(** ** Each operation against the sequence of items *)

Lemma IsEmpty_spec L xs : is_list L xs → IsEmpty L = bool_decide (xs = []).
Proof.
  intros (ps & _ & Hseg & Hf & _). unfold IsEmpty. rewrite Hf.
  destruct ps, xs; simpl in *; try tauto; by rewrite ?bool_decide_eq_true_2.
Qed.

Lemma new_List_spec : is_list new_List [].
Proof. exists []. repeat split; constructor. Qed.

Lemma Append_spec L xs x :
  is_list L xs → ∃ L', Append x L = Some L' ∧ is_list L' (xs ++ [x]).
Proof.
  intros HL. pose proof (IsEmpty_spec _ _ HL) as Hemp.
  destruct HL as (ps & Hnd & Hseg & Hf & Hl).
  unfold Append. rewrite Hemp.
  set (p := fresh (dom (cells L))).
  assert (p ∉ ps) as Hp.
  { intros Hin. apply (is_fresh (dom (cells L))). eapply seg_dom; eauto. }
  destruct xs as [|x0 xs].
  - destruct ps; [|done]. rewrite bool_decide_eq_true_2 by done.
    eexists; split; [done|]. exists [p]. simpl.
    repeat split; [apply NoDup_singleton|].
    exists 0. by rewrite lookup_insert_eq.
  - rewrite bool_decide_eq_false_2 by done.
    destruct (list.last ps) as [q|] eqn:Hlast.
    2:{ apply last_None in Hlast as ->. done. }
    assert (q ∈ ps) as Hqin by (by apply last_Some_elem_of).
    assert (q ∈ dom (cells L)) as Hqdom by (eapply seg_dom; eauto).
    apply elem_of_dom in Hqdom as [e He].
    assert (p ≠ q) as Hpq by (intros <-; done).
    rewrite Hl. simpl. rewrite lookup_insert_ne by done. rewrite He. simpl.
    eexists; split; [done|].
    exists (ps ++ [p]). simpl. repeat split.
    + apply NoDup_app; repeat split; [done| |apply NoDup_singleton].
      intros y Hy Hy'. apply list_elem_of_singleton in Hy' as ->. done.
    + by apply (seg_link (cells L) ps (x0 :: xs)).
    + rewrite Hf. by destruct ps.
    + by rewrite last_snoc.
Qed.

Lemma SortedRemove_nil L : is_list L [] → SortedRemove L = Some (None, L).
Proof.
  intros HL. unfold SortedRemove. by rewrite (IsEmpty_spec _ _ HL).
Qed.

Lemma SortedRemove_cons L x xs :
  is_list L (x :: xs) →
  ∃ k L', SortedRemove L = Some (Some (x, k), L') ∧ is_list L' xs.
Proof.
  intros HL. pose proof (IsEmpty_spec _ _ HL) as Hemp.
  destruct HL as (ps & Hnd & Hseg & Hf & Hl).
  unfold SortedRemove. rewrite Hemp, bool_decide_eq_false_2 by done.
  destruct ps as [|p ps]; [done|].
  destruct Hseg as [[k Hp] Hseg].
  apply NoDup_cons in Hnd as [Hp_notin Hnd].
  rewrite Hf. simpl. rewrite Hp. simpl.
  exists k. eexists; split; [reflexivity|].
  destruct ps as [|p2 ps].
  - destruct xs; [|done].
    rewrite bool_decide_eq_true_2 by (by rewrite Hl).
    exists []. repeat split; constructor.
  - rewrite bool_decide_eq_false_2.
    2:{ rewrite Hl, last_cons_cons. intros Heq. symmetry in Heq.
        apply last_Some_elem_of in Heq. done. }
    exists (p2 :: ps). split; [done|]. split; [|split].
    + destruct xs as [|x2 xs]; [done|]. destruct Hseg as [[k2 Hp2] Hseg].
      apply not_elem_of_cons in Hp_notin as [Hne Hp_notin].
      simpl. split.
      * exists k2. by rewrite lookup_delete_ne.
      * by apply seg_delete_fresh.
    + done.
    + simpl. by rewrite Hl.
Qed.

Lemma Remove_nil L : is_list L [] → Remove L = Some (None, L).
Proof. intros HL. unfold Remove. by rewrite (SortedRemove_nil _ HL). Qed.

Lemma Remove_cons L x xs :
  is_list L (x :: xs) → ∃ L', Remove L = Some (Some x, L') ∧ is_list L' xs.
Proof.
  intros HL. destruct (SortedRemove_cons _ _ _ HL) as (k & L' & Heq & HL').
  exists L'. unfold Remove. by rewrite Heq.
Qed.

Lemma GetFirst_cons L x xs : is_list L (x :: xs) → GetFirst L = Some x.
Proof.
  intros (ps & _ & Hseg & Hf & _). unfold GetFirst.
  destruct ps as [|p ps]; [done|]. destruct Hseg as [[k Hp] _].
  rewrite Hf. simpl. by rewrite Hp.
Qed.

(** On an empty list [first] is NULL and [first->item] dereferences it. *)
Lemma GetFirst_nil L : IsEmpty L = true → GetFirst L = None.
Proof. unfold IsEmpty, GetFirst. by destruct (first L). Qed.

Lemma appends_spec xs L ys :
  is_list L ys → ∃ L', appends xs L = Some L' ∧ is_list L' (ys ++ xs).
Proof.
  revert L ys. induction xs as [|x xs IH]; intros L ys HL; simpl.
  - exists L. by rewrite app_nil_r.
  - destruct (Append_spec _ _ x HL) as (L1 & -> & HL1). simpl.
    destruct (IH _ _ HL1) as (L2 & -> & HL2).
    exists L2. by rewrite <- app_assoc in HL2.
Qed.

Lemma removes_spec xs L ys :
  is_list L (xs ++ ys) →
  ∃ L', removes (length xs) L = Some (Some <$> xs, L') ∧ is_list L' ys.
Proof.
  revert L. induction xs as [|x xs IH]; intros L HL; simpl.
  - by exists L.
  - destruct (Remove_cons _ _ _ HL) as (L1 & -> & HL1).
    destruct (IH _ HL1) as (L2 & -> & HL2).
    by exists L2.
Qed.

(** ** Linked cells *)

Lemma start_app (cs1 cs2 : list node) tl :
  start (cs1 ++ cs2) tl = start cs1 (start cs2 tl).
Proof. by destruct cs1. Qed.

Lemma start_head (cs : list node) : start cs None = head (addresses cs).
Proof. by destruct cs. Qed.

Lemma lseg_app h (cs1 cs2 : list node) tl :
  lseg h (cs1 ++ cs2) tl ↔ lseg h cs1 (start cs2 tl) ∧ lseg h cs2 tl.
Proof.
  induction cs1 as [|c cs1 IH]; simpl; [tauto|].
  rewrite start_app, IH. tauto.
Qed.

Lemma lseg_insert_other h (cs : list node) tl p c :
  p ∉ addresses cs → lseg h cs tl → lseg (<[p := c]> h) cs tl.
Proof.
  induction cs as [|d cs IH]; simpl; [done|].
  intros Hnot [Hd Hseg]. apply not_elem_of_cons in Hnot as [Hne Hnot].
  split; [by rewrite lookup_insert_ne|by apply IH].
Qed.

Lemma lseg_delete_other h (cs : list node) tl p :
  p ∉ addresses cs → lseg h cs tl → lseg (delete p h) cs tl.
Proof.
  induction cs as [|d cs IH]; simpl; [done|].
  intros Hnot [Hd Hseg]. apply not_elem_of_cons in Hnot as [Hne Hnot].
  split; [by rewrite lookup_delete_ne|by apply IH].
Qed.

Lemma lseg_dom h (cs : list node) tl p :
  lseg h cs tl → p ∈ addresses cs → p ∈ dom h.
Proof.
  induction cs as [|d cs IH]; simpl.
  - intros _ Hin. by apply elem_of_nil in Hin.
  - intros [Hd Hseg] Hin. apply elem_of_cons in Hin as [->|Hin].
    + apply elem_of_dom. eauto.
    + by apply IH.
Qed.

Lemma lseg_lookup h (cs : list node) tl c :
  lseg h cs tl → c ∈ cs →
  ∃ nx, h !! c.1 = Some (mkListElement c.2.1 c.2.2 nx).
Proof.
  induction cs as [|d cs IH]; simpl.
  - intros _ Hin. by apply elem_of_nil in Hin.
  - intros [Hd Hseg] Hin. apply elem_of_cons in Hin as [->|Hin]; eauto.
Qed.

(** The final cell of a segment is the only one that knows where the segment
    leads to. *)
Lemma lseg_snoc h (cs : list node) c tl :
  lseg h (cs ++ [c]) tl
  ↔ lseg h cs (Some c.1) ∧ h !! c.1 = Some (mkListElement c.2.1 c.2.2 tl).
Proof. rewrite lseg_app. simpl. tauto. Qed.

Lemma fresh_not_linked (L : List) (cs : list node) tl :
  lseg (cells L) cs tl → fresh (dom (cells L)) ∉ addresses cs.
Proof.
  intros Hseg Hin. apply (is_fresh (dom (cells L))). by eapply lseg_dom.
Qed.

Lemma laid_out_nil L : laid_out L [] ↔ first L = None ∧ last L = None.
Proof.
  unfold laid_out. simpl. split; [tauto|].
  intros [??]. repeat split; (done || constructor).
Qed.

Lemma IsEmpty_laid_out L cs : laid_out L cs → IsEmpty L = bool_decide (cs = []).
Proof.
  intros (_ & _ & Hf & _). unfold IsEmpty. rewrite Hf.
  by destruct cs.
Qed.

(** The representation of list.cc used for the mailboxes forgets the
    addresses and the keys. *)
Lemma seg_of_lseg h (cs : list node) :
  lseg h cs None → seg h (addresses cs) (fst <$> entries cs).
Proof.
  induction cs as [|c cs IH]; simpl; [done|].
  intros [Hc Hseg]. split; [|by apply IH].
  exists c.2.2. by rewrite Hc, start_head.
Qed.

Lemma is_list_of_keyed L es : is_keyed_list L es → is_list L (fst <$> es).
Proof.
  intros (cs & (Hnd & Hseg & Hf & Hl) & <-).
  exists (addresses cs). split; [done|]. split; [by apply seg_of_lseg|done].
Qed.

Lemma addresses_app (cs1 cs2 : list node) :
  addresses (cs1 ++ cs2) = addresses cs1 ++ addresses cs2.
Proof. apply fmap_app. Qed.

Lemma entries_app (cs1 cs2 : list node) :
  entries (cs1 ++ cs2) = entries cs1 ++ entries cs2.
Proof. apply fmap_app. Qed.

(** [d->next = tl'] for the final cell [d] of a segment. *)
Lemma lseg_set_tail h (cs : list node) d tl tl' :
  NoDup (addresses (cs ++ [d])) → lseg h (cs ++ [d]) tl →
  lseg (<[d.1 := mkListElement d.2.1 d.2.2 tl']> h) (cs ++ [d]) tl'.
Proof.
  rewrite addresses_app. intros Hnd Hseg.
  apply NoDup_app in Hnd as (_ & Hnot & _).
  apply lseg_snoc in Hseg as [Hseg Hd]. apply lseg_snoc.
  split; [|by rewrite lookup_insert_eq].
  apply lseg_insert_other; [|done].
  intros Hin. apply (Hnot _ Hin). simpl. apply list_elem_of_here.
Qed.

Lemma laid_out_snoc_inv L (cs : list node) q :
  laid_out L cs → last L = Some q →
  ∃ cs0 d, cs = cs0 ++ [d] ∧ d.1 = q.
Proof.
  intros (_ & _ & _ & Hl) Hq. rewrite Hl in Hq.
  unfold addresses in Hq. rewrite fmap_last in Hq.
  destruct (list.last cs) as [d|] eqn:Hlast; [|done].
  injection Hq as <-. apply last_Some in Hlast as [cs0 ->]. eauto.
Qed.

Lemma Prepend_laid_out L cs x :
  laid_out L cs →
  laid_out (Prepend x L) ((fresh (dom (cells L)), (x, 0)) :: cs).
Proof.
  intros HL. pose proof (IsEmpty_laid_out _ _ HL) as Hemp.
  destruct HL as (Hnd & Hseg & Hf & Hl).
  pose proof (fresh_not_linked _ _ _ Hseg) as Hp.
  unfold Prepend. rewrite Hemp. destruct cs as [|c cs].
  - rewrite bool_decide_eq_true_2 by done. repeat split; simpl.
    + apply NoDup_singleton.
    + by rewrite lookup_insert_eq.
  - rewrite bool_decide_eq_false_2 by done. repeat split; simpl.
    + by apply NoDup_cons.
    + by rewrite lookup_insert_eq, Hf.
    + rewrite lookup_insert_ne; [by destruct Hseg|].
      intros Heq. apply Hp. simpl. rewrite Heq. apply list_elem_of_here.
    + apply lseg_insert_other; [|by destruct Hseg].
      intros Hin. apply Hp. by apply list_elem_of_further.
    + by rewrite Hl.
Qed.

Lemma Append_laid_out L cs x :
  laid_out L cs →
  ∃ L', Append x L = Some L'
        ∧ laid_out L' (cs ++ [(fresh (dom (cells L)), (x, 0))])
        ∧ dom (cells L') = {[fresh (dom (cells L))]} ∪ dom (cells L).
Proof.
  intros HL. pose proof (IsEmpty_laid_out _ _ HL) as Hemp.
  pose proof HL as (Hnd & Hseg & Hf & Hl).
  pose proof (fresh_not_linked _ _ _ Hseg) as Hp.
  unfold Append. rewrite Hemp. set (p := fresh (dom (cells L))) in *.
  destruct (decide (cs = [])) as [->|Hne].
  - rewrite bool_decide_eq_true_2 by done. eexists. split; [done|].
    split; [|simpl; by rewrite dom_insert_L].
    repeat split; simpl.
    + apply NoDup_singleton.
    + by rewrite lookup_insert_eq.
  - rewrite bool_decide_eq_false_2 by done.
    destruct (last L) as [q|] eqn:Hq.
    2:{ symmetry in Hl. apply last_None, fmap_nil_inv in Hl. done. }
    destruct (laid_out_snoc_inv _ _ _ HL Hq) as (cs0 & d & -> & <-).
    assert (d.1 ≠ p) as Hdp.
    { intros Heq. apply Hp. rewrite addresses_app, <- Heq.
      apply elem_of_app. right. apply list_elem_of_here. }
    pose proof Hseg as Hseg'. apply lseg_snoc in Hseg' as [_ Hd].
    simpl. rewrite lookup_insert_ne by done. rewrite Hd. simpl.
    eexists. split; [done|]. split.
    + repeat split; simpl.
      * rewrite addresses_app. apply NoDup_app. split; [done|].
        split; [|apply NoDup_singleton].
        intros y Hy Hy'. apply list_elem_of_singleton in Hy'. by subst y.
      * apply lseg_snoc. split.
        -- apply (lseg_set_tail _ cs0 d None (Some p)); [done|].
           by apply lseg_insert_other.
        -- simpl. rewrite lookup_insert_ne by done.
           by rewrite lookup_insert_eq.
      * rewrite Hf. rewrite !addresses_app. by destruct cs0.
      * rewrite addresses_app. simpl. by rewrite last_snoc.
    + simpl. rewrite !dom_insert_L.
      assert (d.1 ∈ dom (cells L)) as Hdom by (apply elem_of_dom; eauto).
      apply set_eq. intros y.
      rewrite !elem_of_union, !elem_of_singleton.
      split; [intros [->|[->|Hy]]|intros [->|Hy]]; auto.
Qed.

Lemma SortedRemove_laid_out L c cs :
  laid_out L (c :: cs) →
  ∃ L', SortedRemove L = Some (Some c.2, L')
        ∧ laid_out L' cs ∧ cells L' = delete c.1 (cells L).
Proof.
  intros HL. pose proof (IsEmpty_laid_out _ _ HL) as Hemp.
  destruct HL as (Hnd & [Hc Hseg] & Hf & Hl).
  simpl in Hnd. apply NoDup_cons in Hnd as [Hnot Hnd].
  unfold SortedRemove. rewrite Hemp, bool_decide_eq_false_2 by done.
  rewrite Hf. simpl. rewrite Hc. simpl.
  destruct c as [p [x k]]. simpl in *.
  destruct cs as [|d cs].
  - rewrite bool_decide_eq_true_2 by (by rewrite Hl).
    eexists. split; [done|]. split; [|done]. by apply laid_out_nil.
  - change (addresses (d :: cs)) with (d.1 :: addresses cs) in *.
    rewrite last_cons_cons in Hl.
    rewrite bool_decide_eq_false_2.
    2:{ rewrite Hl. intros Heq.
        symmetry in Heq. apply last_Some_elem_of in Heq. done. }
    eexists. split; [done|]. split; [|done].
    repeat split; simpl.
    + done.
    + destruct Hseg as [Hd _]. rewrite lookup_delete_ne; [done|].
      intros ->. apply Hnot. apply list_elem_of_here.
    + destruct Hseg as [_ Hseg]. apply lseg_delete_other; [|done].
      intros Hin. apply Hnot. by apply list_elem_of_further.
    + done.
Qed.

(** ** [inserted] and [removed] on sequences *)

Lemma inserted_perm {T} (key_of : T → Z) k new (l : list T) :
  inserted key_of k new l ≡ₚ new :: l.
Proof.
  induction l as [|y l IH]; simpl; [done|].
  case_bool_decide; [done|]. rewrite IH. apply Permutation_swap.
Qed.

Lemma inserted_fmap {T U} (g : T → U) (key_of : U → Z) k new (l : list T) :
  g <$> inserted (key_of ∘ g) k new l = inserted key_of k (g new) (g <$> l).
Proof.
  induction l as [|y l IH]; [done|].
  rewrite fmap_cons. cbn [inserted].
  change ((key_of ∘ g) y) with (key_of (g y)).
  case_bool_decide; [done|]. by rewrite fmap_cons, IH.
Qed.

Lemma inserted_end {T} (key_of : T → Z) k new (l : list T) :
  Forall (λ y, ¬ k < key_of y) l → inserted key_of k new l = l ++ [new].
Proof.
  induction 1 as [|y l Hy Hl IH]; simpl; [done|].
  by rewrite bool_decide_eq_false_2, IH.
Qed.

Lemma inserted_last {T} (key_of : T → Z) k new (l : list T) :
  Exists (λ y, k < key_of y) l →
  list.last (inserted key_of k new l) = list.last l.
Proof.
  induction l as [|y l IH]; intros Hex; [by apply Exists_nil in Hex|].
  simpl. case_bool_decide as Hlt; [done|].
  apply Exists_cons in Hex as [?|Hex]; [done|].
  specialize (IH Hex). destruct l as [|z l]; [by apply Exists_nil in Hex|].
  rewrite last_cons_cons, <- IH. simpl. by case_bool_decide.
Qed.

(** Where [inserted] puts the new element: behind every element whose key is
    not bigger, in front of one whose key is. *)
Lemma inserted_split {T} (key_of : T → Z) k new (l : list T) :
  ∃ before after,
    l = before ++ after
    ∧ inserted key_of k new l = before ++ new :: after
    ∧ Forall (λ y, key_of y ≤ k) before
    ∧ (∀ y, head after = Some y → k < key_of y).
Proof.
  induction l as [|y l IH]; simpl.
  - exists [], []. by repeat split.
  - case_bool_decide as Hlt.
    + exists [], (y :: l). repeat split; [constructor|]. by intros ? [= <-].
    + destruct IH as (before & after & -> & -> & Hle & Hgt).
      exists (y :: before), after. repeat split; [|done].
      constructor; [lia|done].
Qed.

Lemma inserted_sorted {T} (key_of : T → Z) new (l : list T) :
  StronglySorted (key_le key_of) l →
  StronglySorted (key_le key_of) (inserted key_of (key_of new) new l).
Proof.
  induction 1 as [|y l Hl IH Hy]; simpl.
  - repeat constructor.
  - case_bool_decide as Hlt.
    + constructor; [by constructor|]. constructor; [unfold key_le; lia|].
      eapply Forall_impl; [exact Hy|]. unfold key_le. intros; lia.
    + constructor; [done|]. rewrite inserted_perm.
      constructor; [unfold key_le; lia|done].
Qed.

Lemma filter_none {T} (P : T → Prop) `{∀ y, Decision (P y)} (l : list T) :
  Forall (λ y, ¬ P y) l → filter P l = [].
Proof.
  induction 1 as [|y l Hy Hl IH]; [done|]. by rewrite filter_cons_False.
Qed.

(** Among elements of one key, [inserted] keeps the order of arrival. *)
Lemma inserted_filter {T} (key_of : T → Z) new (l : list T) j :
  StronglySorted (key_le key_of) l →
  filter (λ y, key_of y = j) (inserted key_of (key_of new) new l)
  = filter (λ y, key_of y = j) (l ++ [new]).
Proof.
  intros Hl.
  destruct (inserted_split key_of (key_of new) new l)
    as (before & after & -> & -> & Hle & Hgt).
  rewrite <- app_assoc, !filter_app. f_equal. simpl.
  rewrite filter_cons, (filter_cons _ new), filter_nil.
  case_decide as Hj; [|by rewrite app_nil_r].
  assert (filter (λ y, key_of y = j) after = []) as ->; [|done].
  destruct after as [|y after]; [done|].
  specialize (Hgt y eq_refl).
  apply StronglySorted_app_1_r in Hl.
  apply StronglySorted_inv in Hl as [_ Hl].
  apply filter_none. constructor; [lia|].
  eapply Forall_impl; [exact Hl|]. unfold key_le. intros; lia.
Qed.

(** ** Walking the cells *)

Lemma addresses_cons c (cs : list node) :
  addresses (c :: cs) = c.1 :: addresses cs.
Proof. reflexivity. Qed.

Lemma last_cons_nonempty {T} (a : T) (l : list T) :
  l ≠ [] → list.last (a :: l) = list.last l.
Proof. by destruct l. Qed.


Lemma run_bind_Returns {X Y} (x : X) (k : X → run Y) :
  (Returns x ≫= k) = k x.
Proof. reflexivity. Qed.

Lemma deref_Some h p c : h !! p = Some c → deref h (Some p) = Returns c.
Proof. intros Hp. unfold deref. by rewrite Hp. Qed.

Lemma update_Some f h p c :
  h !! p = Some c → update f (Some p) h = Returns (<[p := f c]> h).
Proof. intros Hp. unfold update. by rewrite Hp. Qed.

Lemma SortedInsert_loop_run h e x k : ∀ (post pre : list node) c turns,
  NoDup (addresses (pre ++ c :: post)) →
  lseg h (pre ++ c :: post) None →
  e ∉ addresses (pre ++ c :: post) →
  h !! e = Some (mkListElement x k None) →
  (length post < turns)%nat →
  ∃ r,
    SortedInsert_loop turns (Some e) k (Some c.1) h = Returns r
    ∧ match r with
      | None => Forall (λ d : node, ¬ k < d.2.2) post
      | Some h' =>
          Exists (λ d : node, k < d.2.2) post
          ∧ lseg h' (pre ++ c :: inserted (λ d : node, d.2.2) k (e, (x, k)) post)
                 None
      end.
Proof.
  induction post as [|d post IH]; intros pre c turns Hnd Hseg He Hcell Hturns.
  - destruct turns as [|turns]; [simpl in Hturns; lia|].
    apply lseg_app in Hseg as [_ [Hc _]].
    exists None. split; [|constructor].
    cbn [SortedInsert_loop]. by rewrite (deref_Some _ _ _ Hc).
  - destruct turns as [|turns]; [simpl in Hturns; lia|].
    pose proof Hseg as Hseg'.
    apply lseg_app in Hseg' as [Hpre [Hc [Hd Hpost]]].
    rewrite addresses_app in Hnd, He.
    change (addresses (c :: d :: post))
      with (c.1 :: d.1 :: addresses post) in Hnd, He.
    apply NoDup_app in Hnd as (Hnd_pre & Hdisj & Hnd_rest).
    apply NoDup_cons in Hnd_rest as [Hc_notin Hnd_rest].
    apply NoDup_cons in Hnd_rest as [Hd_notin Hnd_post].
    apply not_elem_of_app in He as [He_pre He_rest].
    apply not_elem_of_cons in He_rest as [Hec He_rest].
    apply not_elem_of_cons in He_rest as [Hed He_post].
    apply not_elem_of_cons in Hc_notin as [Hcd Hc_post].
    cbn [SortedInsert_loop]. rewrite (deref_Some _ _ _ Hc).
    rewrite run_bind_Returns. cbn [next start].
    rewrite (deref_Some _ _ _ Hd), run_bind_Returns. cbn [key].
    case_bool_decide as Hlt.
    + rewrite (update_Some _ _ _ _ Hcell), run_bind_Returns.
      rewrite (update_Some _ _ c.1 (mkListElement c.2.1 c.2.2 (Some d.1)))
        by (by rewrite lookup_insert_ne).
      rewrite run_bind_Returns. eexists. split; [done|].
      split; [by apply Exists_cons_hd|].
      cbn [inserted]. rewrite bool_decide_eq_true_2 by done.
      unfold set_next. cbn [item key].
      apply lseg_app. split; [|split; [|split; [|split]]].
      * cbn [start]. apply lseg_insert_other.
        { intros Hin. by apply (Hdisj _ Hin), list_elem_of_here. }
        by apply lseg_insert_other.
      * by rewrite lookup_insert_eq.
      * rewrite lookup_insert_ne by done. by rewrite lookup_insert_eq.
      * by rewrite !lookup_insert_ne.
      * by do 2 (apply lseg_insert_other; [done|]).
    + destruct (IH (pre ++ [c]) d turns) as (r & Hrun & Hr).
      * rewrite <- app_assoc. simpl. rewrite addresses_app.
        apply NoDup_app. split; [done|]. split; [done|].
        apply NoDup_cons. split; [by apply not_elem_of_cons|].
        by apply NoDup_cons.
      * by rewrite <- app_assoc.
      * rewrite <- app_assoc. simpl. rewrite addresses_app.
        apply not_elem_of_app. split; [done|].
        apply not_elem_of_cons. split; [done|].
        by apply not_elem_of_cons.
      * done.
      * simpl in Hturns. lia.
      * exists r. split; [done|]. destruct r as [h'|].
        -- destruct Hr as [Hex Hseg'']. split; [by apply Exists_cons_tl|].
           cbn [inserted]. rewrite bool_decide_eq_false_2 by done.
           by rewrite <- app_assoc in Hseg''.
        -- by constructor.
Qed.

(** [last->next = element] for a cell [element] that is not yet linked. *)
Lemma link_at_end h (cs : list node) c e x k :
  NoDup (addresses (cs ++ [c])) → lseg h (cs ++ [c]) None →
  e ∉ addresses (cs ++ [c]) → h !! e = Some (mkListElement x k None) →
  ∃ h', update (set_next (Some e)) (Some c.1) h = Returns h'
        ∧ lseg h' ((cs ++ [c]) ++ [(e, (x, k))]) None
        ∧ dom h' = dom h.
Proof.
  intros Hnd Hseg He Hcell.
  pose proof Hseg as Hseg'. apply lseg_snoc in Hseg' as [_ Hc].
  rewrite (update_Some _ _ _ _ Hc). eexists. split; [done|].
  assert (c.1 ≠ e) as Hce.
  { intros Heq. apply He. rewrite addresses_app, <- Heq.
    apply elem_of_app. right. apply list_elem_of_here. }
  split.
  - apply lseg_snoc. split.
    + by apply (lseg_set_tail _ cs c None (Some e)).
    + simpl. by rewrite lookup_insert_ne.
  - rewrite dom_insert_L. apply set_eq. intros y.
    rewrite elem_of_union, elem_of_singleton.
    split; [intros [->|Hy]|intros Hy]; auto.
    apply elem_of_dom. eauto.
Qed.

Lemma SortedInsert_laid_out L (cs : list node) x k turns :
  laid_out L cs → (length cs ≤ turns)%nat →
  ∃ L',
    SortedInsert turns x k L = Returns L'
    ∧ laid_out L'
        (inserted (λ d : node, d.2.2) k (fresh (dom (cells L)), (x, k)) cs).
Proof.
  intros HL Hturns. pose proof (IsEmpty_laid_out _ _ HL) as Hemp.
  pose proof HL as (Hnd & Hseg & Hf & Hl).
  pose proof (fresh_not_linked _ _ _ Hseg) as He.
  unfold SortedInsert. rewrite Hemp. set (e := fresh (dom (cells L))) in *.
  set (h := <[e := mkListElement x k None]> (cells L)).
  assert (h !! e = Some (mkListElement x k None)) as Hcell
    by apply lookup_insert_eq.
  assert (lseg h cs None) as Hseg_h by (by apply lseg_insert_other).
  assert (NoDup (addresses
            (inserted (λ d : node, d.2.2) k (e, (x, k)) cs))) as Hnd'.
  { unfold addresses. rewrite inserted_perm. simpl. by apply NoDup_cons. }
  destruct cs as [|c post].
  - rewrite bool_decide_eq_true_2 by done. eexists. split; [done|].
    repeat split; simpl; [apply NoDup_singleton|exact Hcell].
  - rewrite bool_decide_eq_false_2 by done. clear Hemp.
    change (addresses (c :: post)) with (c.1 :: addresses post) in *.
    apply not_elem_of_cons in He as [Hec He_post].
    destruct Hseg_h as [Hc Hpost].
    rewrite Hf. cbn [head]. rewrite (deref_Some _ _ _ Hc), run_bind_Returns.
    cbn [key inserted] in Hnd' |- *. case_bool_decide as Hlt.
    + rewrite (update_Some _ _ _ _ Hcell), run_bind_Returns.
      eexists. split; [done|]. split; [done|]. split; [|split].
      * unfold set_next. cbn [lseg cells item key fst snd start].
        split; [by rewrite lookup_insert_eq|]. split.
        -- by rewrite !lookup_insert_ne.
        -- by apply lseg_insert_other.
      * done.
      * cbn [last]. by rewrite Hl.
    + destruct (SortedInsert_loop_run h e x k post [] c turns)
        as (r & Hrun & Hr);
        [exact Hnd|by split|simpl; by apply not_elem_of_cons|done
        |simpl in Hturns; lia|].
      rewrite Hrun, run_bind_Returns. destruct r as [h'|].
      * destruct Hr as [Hex Hseg']. eexists. split; [done|].
        split; [done|]. split; [done|]. split; [done|].
        cbn [last]. rewrite Hl.
        assert (post ≠ []) as Hpost_ne
          by (intros ->; by apply Exists_nil in Hex).
        assert (inserted (λ d : node, d.2.2) k (e, (x, k)) post ≠ [])
          as Hins_ne by (destruct post; simpl; [done|by case_bool_decide]).
        rewrite addresses_cons.
        rewrite (last_cons_nonempty c.1 (addresses post))
          by (unfold addresses; by intros ?%fmap_nil_inv).
        rewrite (last_cons_nonempty c.1 (addresses (inserted _ _ _ _)))
          by (unfold addresses; by intros ?%fmap_nil_inv).
        unfold addresses. rewrite !fmap_last. by rewrite inserted_last.
      * rewrite inserted_end by done.
        rewrite inserted_end in Hnd' by done.
        assert (is_Some (last L)) as [q Hq]
          by (rewrite Hl; by apply last_is_Some).
        destruct (laid_out_snoc_inv _ _ _ HL Hq) as (cs0 & d & Hcs & <-).
        destruct (link_at_end h cs0 d e x k) as (h' & Hup & Hseg' & _).
        { by rewrite <- Hcs. }
        { rewrite <- Hcs. by split. }
        { rewrite <- Hcs. simpl. by apply not_elem_of_cons. }
        { done. }
        rewrite Hq, Hup, run_bind_Returns. eexists. split; [done|].
        rewrite <- Hcs in Hseg'.
        split; [done|]. split; [done|]. split; [done|].
        cbn [last]. change (c :: post ++ [(e, (x, k))])
          with ((c :: post) ++ [(e, (x, k))]).
        rewrite addresses_app. change (addresses [(e, (x, k))]) with [e].
        by rewrite last_snoc.
Qed.

Lemma entries_inserted k new (cs : list node) :
  entries (inserted (λ d : node, d.2.2) k new cs)
  = inserted snd k new.2 (entries cs).
Proof. apply (inserted_fmap snd snd). Qed.

Lemma length_inserted {T} (key_of : T → Z) k new (l : list T) :
  length (inserted key_of k new l) = S (length l).
Proof. by rewrite inserted_perm. Qed.

Lemma removed_fmap {T U} (g : T → U) (key_of : U → Z) k (l : list T) :
  g <$> (removed (key_of ∘ g) k l).1 = (removed key_of k (g <$> l)).1
  ∧ g <$> (removed (key_of ∘ g) k l).2 = (removed key_of k (g <$> l)).2.
Proof.
  induction l as [|y l [IH1 IH2]]; [done|].
  rewrite fmap_cons. cbn [removed].
  change ((key_of ∘ g) y) with (key_of (g y)).
  case_bool_decide; [done|]. cbn [fst snd]. by rewrite fmap_cons, IH1, IH2.
Qed.

(** What [removed] takes out is the first element with the key. *)
Lemma removed_split {T} (key_of : T → Z) k (l : list T) :
  match (removed key_of k l).1 with
  | Some y =>
      ∃ before after,
        l = before ++ y :: after ∧ (removed key_of k l).2 = before ++ after
        ∧ key_of y = k ∧ Forall (λ z, key_of z ≠ k) before
  | None => (removed key_of k l).2 = l ∧ Forall (λ z, key_of z ≠ k) l
  end.
Proof.
  induction l as [|y l IH]; simpl; [by split|].
  case_bool_decide as Hk; simpl.
  - exists [], l. by repeat split.
  - destruct (removed key_of k l).1 as [z|].
    + destruct IH as (before & after & -> & -> & Hz & Hbefore).
      exists (y :: before), after. repeat split; [done|].
      constructor; [congruence|done].
    + destruct IH as [-> Hl]. split; [done|].
      constructor; [congruence|done].
Qed.

Lemma SortedInserts_laid_out es : ∀ L (cs : list node) turns,
  laid_out L cs → (length cs + length es ≤ turns)%nat →
  ∃ L' cs',
    SortedInserts turns es L = Returns L' ∧ laid_out L' cs'
    ∧ entries cs' = foldl (λ acc e, inserted snd e.2 e acc) (entries cs) es.
Proof.
  induction es as [|e es IH]; intros L cs turns HL Hturns.
  - by exists L, cs.
  - destruct (SortedInsert_laid_out L cs e.1 e.2 turns HL)
      as (L1 & Hrun & HL1); [simpl in Hturns; lia|].
    destruct (IH _ _ turns HL1) as (L' & cs' & Hruns & HL' & Hentries).
    { rewrite length_inserted. simpl in Hturns. lia. }
    exists L', cs'. cbn [SortedInserts].
    rewrite Hrun, run_bind_Returns. split; [done|]. split; [done|].
    rewrite Hentries, entries_inserted. simpl. by destruct e.
Qed.

Lemma SortedRemoves_laid_out (cs1 : list node) : ∀ L cs2,
  laid_out L (cs1 ++ cs2) →
  ∃ L', SortedRemoves (length cs1) L = Some (Some <$> entries cs1, L')
        ∧ laid_out L' cs2
        ∧ dom (cells L') = dom (cells L) ∖ list_to_set (addresses cs1).
Proof.
  induction cs1 as [|c cs1 IH]; intros L cs2 HL.
  - exists L. split; [done|]. split; [done|].
    simpl. apply set_eq. intros y.
    rewrite elem_of_difference, elem_of_empty. tauto.
  - destruct (SortedRemove_laid_out L c (cs1 ++ cs2) HL)
      as (L1 & Hrun & HL1 & Hcells).
    destruct (IH _ _ HL1) as (L' & Hruns & HL' & Hdom).
    exists L'. cbn [SortedRemoves length]. rewrite Hrun, Hruns.
    split; [done|]. split; [done|].
    rewrite Hdom, Hcells, dom_delete_L. simpl. apply set_eq. intros y.
    rewrite !elem_of_difference, elem_of_union, elem_of_singleton. tauto.
Qed.

(** ** Insertion sort by key *)

Lemma insertion_perm (es : list (A * Z)) : ∀ acc,
  foldl (λ acc e, inserted snd e.2 e acc) acc es ≡ₚ acc ++ es.
Proof.
  induction es as [|e es IH]; intros acc; simpl; [by rewrite app_nil_r|].
  rewrite IH, inserted_perm. simpl. apply Permutation_middle.
Qed.

Lemma insertion_sorted (es : list (A * Z)) : ∀ acc,
  sorted_by_key acc →
  sorted_by_key (foldl (λ acc e, inserted snd e.2 e acc) acc es).
Proof.
  induction es as [|e es IH]; intros acc Hacc; simpl; [done|].
  apply IH. by apply (inserted_sorted snd).
Qed.

Lemma insertion_stable (es : list (A * Z)) j : ∀ acc,
  sorted_by_key acc →
  filter (λ e, e.2 = j) (foldl (λ acc e, inserted snd e.2 e acc) acc es)
  = filter (λ e, e.2 = j) (acc ++ es).
Proof.
  induction es as [|e es IH]; intros acc Hacc; simpl; [by rewrite app_nil_r|].
  rewrite IH by (by apply (inserted_sorted snd)).
  rewrite filter_app, (inserted_filter snd) by done.
  by rewrite <- filter_app, <- app_assoc.
Qed.

(** ** The destructor *)

Lemma Remove_laid_out L c (cs : list node) :
  laid_out L (c :: cs) →
  ∃ L', Remove L = Some (Some c.2.1, L')
        ∧ laid_out L' cs ∧ cells L' = delete c.1 (cells L).
Proof.
  intros HL. destruct (SortedRemove_laid_out L c cs HL) as (L' & Hrun & HL').
  exists L'. unfold Remove. rewrite Hrun. by destruct c as [p [x k]].
Qed.

Lemma Remove_laid_out_nil L : laid_out L [] → Remove L = Some (None, L).
Proof.
  intros HL. unfold Remove, SortedRemove.
  by rewrite (IsEmpty_laid_out _ _ HL).
Qed.

Lemma List_destructor_run is_NULL (cs1 : list node) : ∀ L cs2 turns,
  laid_out L (cs1 ++ cs2) →
  Forall (λ c : node, is_NULL c.2.1 = false) cs1 →
  (∀ c, head cs2 = Some c → is_NULL c.2.1 = true) →
  (length cs1 < turns)%nat →
  ∃ L',
    List_destructor is_NULL turns L = Returns L'
    ∧ laid_out L' (drop 1 cs2)
    ∧ dom (cells L')
      = dom (cells L) ∖ list_to_set (addresses (cs1 ++ take 1 cs2)).
Proof.
  induction cs1 as [|c cs1 IH]; intros L cs2 turns HL Hitems Hstop Hturns.
  - destruct turns as [|turns]; [simpl in Hturns; lia|].
    cbn [List_destructor]. destruct cs2 as [|c cs2].
    + rewrite (Remove_laid_out_nil _ HL). exists L.
      split; [done|]. split; [done|]. simpl. apply set_eq. intros y.
      rewrite elem_of_difference, elem_of_empty. tauto.
    + destruct (Remove_laid_out L c cs2 HL) as (L' & -> & HL' & Hcells).
      rewrite (Hstop c eq_refl). exists L'.
      split; [done|]. split; [exact HL'|].
      rewrite Hcells, dom_delete_L. simpl. apply set_eq. intros y.
      rewrite !elem_of_difference, elem_of_union, elem_of_singleton,
        elem_of_empty. tauto.
  - destruct turns as [|turns]; [simpl in Hturns; lia|].
    apply Forall_cons in Hitems as [Hc Hitems].
    destruct (Remove_laid_out L c (cs1 ++ cs2) HL) as (L1 & Hrun & HL1 & Hcells).
    destruct (IH L1 cs2 turns HL1 Hitems Hstop) as (L' & Hdes & HL' & Hdom).
    { simpl in Hturns. lia. }
    exists L'. cbn [List_destructor]. rewrite Hrun, Hc.
    split; [done|]. split; [done|].
    rewrite Hdom, Hcells, dom_delete_L. simpl. apply set_eq. intros y.
    rewrite !elem_of_difference, elem_of_union, elem_of_singleton. tauto.
Qed.

(** ** The keyed list of [ListForJoin] *)

Lemma AppendTraverse_laid_out L (cs : list node) x k :
  laid_out L cs →
  ∃ L', AppendTraverse x k L = Returns L'
        ∧ laid_out L' (cs ++ [(fresh (dom (cells L)), (x, k))]).
Proof.
  intros HL. destruct (Append_laid_out L cs x HL) as (L1 & Hrun & HL1 & _).
  set (p := fresh (dom (cells L))) in *.
  destruct HL1 as (Hnd & Hseg & Hf & Hl).
  pose proof Hseg as Hseg'. apply lseg_snoc in Hseg' as [Hcs Hp].
  simpl in Hp, Hcs. unfold AppendTraverse. rewrite Hrun, Hl, addresses_app.
  change (addresses [(p, (x, 0))]) with [p]. rewrite last_snoc.
  rewrite (update_Some _ _ _ _ Hp), run_bind_Returns.
  eexists. split; [done|]. split; [|split; [|split]].
  - by rewrite addresses_app in *.
  - apply lseg_snoc. simpl. split; [|by rewrite lookup_insert_eq].
    apply lseg_insert_other; [|done].
    rewrite addresses_app in Hnd. apply NoDup_app in Hnd as (_ & Hnot & _).
    intros Hin. by apply (Hnot _ Hin), list_elem_of_here.
  - rewrite addresses_app in *. exact Hf.
  - cbn [last]. rewrite addresses_app.
    change (addresses [(p, (x, k))]) with [p]. by rewrite last_snoc.
Qed.

Lemma seek_loop_run h k (cs : list node) : ∀ turns,
  lseg h cs None → (length cs < turns)%nat →
  seek_loop turns k (start cs None) h
  = Returns (bool_decide (Exists (λ c : node, c.2.2 = k) cs)).
Proof.
  induction cs as [|c cs IH]; intros turns Hseg Hturns;
    (destruct turns as [|turns]; [simpl in Hturns; lia|]).
  - cbn [seek_loop start].
    by rewrite bool_decide_eq_false_2 by (by intros ?%Exists_nil).
  - destruct Hseg as [Hc Hseg]. cbn [seek_loop start].
    rewrite (deref_Some _ _ _ Hc), run_bind_Returns. cbn [key next].
    destruct (decide (k = c.2.2)) as [Hk|Hk].
    + rewrite (bool_decide_eq_true_2 (k = c.2.2)) by done.
      by rewrite bool_decide_eq_true_2 by (by apply Exists_cons_hd).
    + rewrite (bool_decide_eq_false_2 (k = c.2.2)) by done.
      rewrite IH by (done || simpl in Hturns; lia). f_equal.
      apply bool_decide_ext. rewrite Exists_cons. split; [tauto|].
      intros [?|?]; [congruence|done].
Qed.

Lemma Mapcar_loop_run {S} (func : A → S → S) h (cs : list node) : ∀ turns s,
  lseg h cs None → (length cs < turns)%nat →
  Mapcar_loop turns func (start cs None) h s
  = Returns (foldl (λ s x, func x s) s (fst <$> entries cs)).
Proof.
  induction cs as [|c cs IH]; intros turns s Hseg Hturns;
    (destruct turns as [|turns]; [simpl in Hturns; lia|]); [done|].
  destruct Hseg as [Hc Hseg]. cbn [Mapcar_loop start].
  rewrite (deref_Some _ _ _ Hc), run_bind_Returns. cbn [item next].
  by rewrite IH by (done || simpl in Hturns; lia).
Qed.

Lemma last_addresses_snoc (cs : list node) c :
  list.last (addresses (cs ++ [c])) = Some c.1.
Proof. rewrite addresses_app. apply last_snoc. Qed.

Lemma head_in_addresses (cs : list node) p :
  head (addresses cs) = Some p → p ∈ addresses cs.
Proof. apply head_Some_elem_of. Qed.

Lemma last_in_addresses (cs : list node) p :
  list.last (addresses cs) = Some p → p ∈ addresses cs.
Proof. apply last_Some_elem_of. Qed.

Lemma dom_delete_insert (h : gmap loc ListElement) p q c :
  q ∈ dom h → dom (delete p (<[q := c]> h)) = dom h ∖ {[p]}.
Proof.
  intros Hq. rewrite dom_delete_L, dom_insert_L. apply set_eq. intros y.
  rewrite !elem_of_difference, elem_of_union, elem_of_singleton.
  split; [intros [[->|Hy] Hne]|intros [Hy Hne]]; auto.
Qed.

Lemma RemoveTraverse_loop_run k L : ∀ (post pre : list node) turns,
  laid_out L (pre ++ post) → (2 ≤ length (pre ++ post))%nat →
  (length post < turns)%nat →
  ∃ L',
    RemoveTraverse_loop turns k (list.last (addresses pre)) (start post None) L
    = Returns ((λ c : node, c.2.1) <$> (removed (λ d : node, d.2.2) k post).1,
               L')
    ∧ laid_out L' (pre ++ (removed (λ d : node, d.2.2) k post).2)
    ∧ match (removed (λ d : node, d.2.2) k post).1 with
      | Some c => dom (cells L') = dom (cells L) ∖ {[c.1]}
      | None => L' = L
      end.
Proof.
  induction post as [|c post IH]; intros pre turns HL Hlen Hturns;
    (destruct turns as [|turns]; [simpl in Hturns; lia|]).
  - exists L. split; [done|]. split; [exact HL|done].
  - pose proof HL as (Hnd & Hseg & Hf & Hl).
    pose proof Hseg as Hseg'. apply lseg_app in Hseg' as [Hpre [Hc Hpost]].
    rewrite addresses_app, addresses_cons in Hnd, Hf, Hl.
    pose proof Hnd as Hnd'.
    apply NoDup_app in Hnd' as (Hnd_pre & Hdisj & Hnd_rest).
    apply NoDup_cons in Hnd_rest as [Hc_post Hnd_post].
    assert (c.1 ∉ addresses pre) as Hc_pre
      by (intros Hin; by apply (Hdisj _ Hin), list_elem_of_here).
    cbn [RemoveTraverse_loop start removed].
    rewrite (deref_Some _ _ _ Hc), run_bind_Returns. cbn [key next item].
    destruct (decide (k = c.2.2)) as [Hk|Hk].
    + rewrite (bool_decide_eq_true_2 (k = c.2.2)) by done. cbn [fst snd].
      destruct pre as [|b pre _] using rev_ind.
      * (* the first cell *)
        assert (post ≠ []) as Hpost_ne
          by (intros ->; simpl in Hlen; lia).
        simpl in Hf, Hl. rewrite Hf.
        rewrite bool_decide_eq_true_2 by done. rewrite run_bind_Returns.
        eexists. split; [done|]. split; [|simpl; apply dom_delete_L].
        repeat split; simpl.
        -- done.
        -- by apply lseg_delete_other.
        -- apply start_head.
        -- rewrite Hl. apply last_cons_nonempty.
           unfold addresses. by intros ?%fmap_nil_inv.
      * (* a cell after [b] *)
        rewrite addresses_app in *. change (addresses [b]) with [b.1] in *.
        rewrite last_snoc.
        assert (first L ≠ Some c.1) as Hfirst.
        { rewrite Hf.
          replace (head ((addresses pre ++ [b.1]) ++ c.1 :: addresses post))
            with (head (addresses pre ++ [b.1]))
            by (by destruct (addresses pre)).
          by intros Heq%head_Some_elem_of. }
        rewrite (bool_decide_eq_false_2 (Some c.1 = first L)) by done.
        apply lseg_snoc in Hpre as [Hpre0 Hb].
        assert (b.1 ∈ dom (cells L)) as Hb_dom by (apply elem_of_dom; eauto).
        assert (b.1 ≠ c.1) as Hbc.
        { intros Heq. apply Hc_pre. rewrite <- Heq.
          apply elem_of_app. right. apply list_elem_of_here. }
        assert (NoDup (addresses (pre ++ [b]))) as Hnd_b
          by (by rewrite addresses_app).
        assert (lseg (cells L) (pre ++ [b]) (Some c.1)) as Hseg_b
          by (by apply lseg_snoc).
        assert (head ((addresses pre ++ [b.1]) ++ addresses post)
                = head ((addresses pre ++ [b.1]) ++ c.1 :: addresses post))
          as Hhead by (by destruct (addresses pre)).
        destruct post as [|d post].
        -- (* the final cell *)
           simpl in Hl. rewrite last_snoc in Hl.
           rewrite bool_decide_eq_true_2 by done.
           rewrite (update_Some _ _ _ _ Hb), !run_bind_Returns.
           eexists. split; [done|].
           split; [|simpl; by apply dom_delete_insert].
           rewrite app_nil_r. repeat split; simpl.
           ++ by rewrite addresses_app.
           ++ apply lseg_delete_other; [by rewrite addresses_app|].
              by apply (lseg_set_tail _ pre b (Some c.1) None).
           ++ rewrite Hf, addresses_app.
              by rewrite <- Hhead, app_nil_r.
           ++ by rewrite last_addresses_snoc.
        -- (* a cell in the middle *)
           assert (last L ≠ Some c.1) as Hlast.
           { rewrite Hl, last_app_cons, addresses_cons, last_cons_cons.
             intros Heq. apply last_Some_elem_of in Heq.
             by rewrite addresses_cons in Hc_post. }
           rewrite (bool_decide_eq_false_2 (Some c.1 = last L))
             by (by intros Heq).
           rewrite (update_Some _ _ _ _ Hb), !run_bind_Returns.
           eexists. split; [done|].
           split; [|simpl; by apply dom_delete_insert].
           repeat split; simpl.
           ++ rewrite !addresses_app. apply NoDup_app. split; [done|].
              split; [|done]. intros y Hy Hy'.
              apply (Hdisj _ Hy). by apply list_elem_of_further.
           ++ apply lseg_app. split.
              ** apply lseg_delete_other; [by rewrite addresses_app|].
                 by apply (lseg_set_tail _ pre b (Some c.1)).
              ** apply lseg_delete_other; [done|].
                 apply lseg_insert_other; [|done].
                 intros Hin. apply (Hdisj b.1).
                 --- apply elem_of_app. right. apply list_elem_of_here.
                 --- by apply list_elem_of_further.
           ++ rewrite Hf, !addresses_app. exact (eq_sym Hhead).
           ++ rewrite Hl, !addresses_app, addresses_cons.
              by rewrite !last_app_cons, last_cons_cons.
    + rewrite (bool_decide_eq_false_2 (k = c.2.2)) by done. cbn [fst snd].
      destruct (IH (pre ++ [c]) turns) as (L' & Hrun & HL' & Heffect).
      * by rewrite <- app_assoc.
      * by rewrite <- app_assoc.
      * simpl in Hturns. lia.
      * rewrite addresses_app in Hrun. change (addresses [c]) with [c.1] in Hrun.
        rewrite last_snoc in Hrun. rewrite <- app_assoc in HL'.
        exists L'. split; [exact Hrun|]. split; [exact HL'|exact Heffect].
Qed.

Lemma RemoveTraverse_laid_out k L (cs : list node) turns :
  laid_out L cs → (length cs < turns)%nat →
  ∃ L',
    RemoveTraverse turns k L
    = Returns ((λ c : node, c.2.1) <$> (removed (λ d : node, d.2.2) k cs).1,
               L')
    ∧ laid_out L' (removed (λ d : node, d.2.2) k cs).2
    ∧ match (removed (λ d : node, d.2.2) k cs).1 with
      | Some c =>
          if bool_decide (length cs = 1%nat) then cells L' = cells L
          else dom (cells L') = dom (cells L) ∖ {[c.1]}
      | None => L' = L
      end.
Proof.
  intros HL Hturns. pose proof (IsEmpty_laid_out _ _ HL) as Hemp.
  pose proof HL as (Hnd & Hseg & Hf & Hl).
  unfold RemoveTraverse. rewrite Hemp.
  destruct cs as [|c [|d cs]].
  - rewrite bool_decide_eq_true_2 by done. exists L.
    split; [done|]. split; [exact HL|done].
  - rewrite bool_decide_eq_false_2 by done. simpl in Hf, Hl.
    rewrite bool_decide_eq_true_2 by (by rewrite Hf, Hl).
    destruct Hseg as [Hc _]. rewrite Hf.
    rewrite (deref_Some _ _ _ Hc), run_bind_Returns. cbn [key removed].
    destruct (decide (k = c.2.2)) as [Hk|Hk].
    + rewrite (bool_decide_eq_true_2 (k = c.2.2)) by done.
      rewrite bool_decide_eq_true_2 by done.
      eexists. split; [done|]. split; [by apply laid_out_nil|done].
    + rewrite (bool_decide_eq_false_2 (k = c.2.2)) by done.
      rewrite bool_decide_eq_false_2 by congruence.
      exists L. split; [done|]. split; [exact HL|done].
  - rewrite bool_decide_eq_false_2 by done.
    rewrite !addresses_cons in Hf, Hl, Hnd.
    rewrite bool_decide_eq_false_2.
    2:{ rewrite Hf, Hl, last_cons_cons. simpl. intros Heq. symmetry in Heq.
        apply last_Some_elem_of in Heq. apply NoDup_cons in Hnd as [Hnot _].
        done. }
    destruct (RemoveTraverse_loop_run k L (c :: d :: cs) [] turns)
      as (L' & Hrun & HL' & Heffect); [done|simpl; lia|done|].
    simpl in Hrun. rewrite Hf. exists L'. split; [exact Hrun|].
    split; [exact HL'|].
    by rewrite (bool_decide_eq_false_2 (length (c :: d :: cs) = 1%nat)).
Qed.

(** ** The routines against the sequence of items and keys *)

Lemma length_entries (cs : list node) : length (entries cs) = length cs.
Proof. apply length_fmap. Qed.

Lemma is_keyed_list_nil L : is_keyed_list L [] ↔ laid_out L [].
Proof.
  split.
  - intros (cs & HL & Hes). apply fmap_nil_inv in Hes. by subst cs.
  - intros HL. by exists [].
Qed.

Lemma removed_found {T} (key_of : T → Z) k (before : list T) y after :
  key_of y = k → Forall (λ z, key_of z ≠ k) before →
  removed key_of k (before ++ y :: after) = (Some y, before ++ after).
Proof.
  intros Hy. induction 1 as [|z before Hz Hbefore IH]; simpl.
  - by rewrite bool_decide_eq_true_2.
  - rewrite bool_decide_eq_false_2 by congruence. by rewrite IH.
Qed.

Lemma removed_missing {T} (key_of : T → Z) k (l : list T) :
  Forall (λ z, key_of z ≠ k) l → removed key_of k l = (None, l).
Proof.
  induction 1 as [|z l Hz Hl IH]; simpl; [done|].
  rewrite bool_decide_eq_false_2 by congruence. by rewrite IH.
Qed.

Lemma removed_entries k (cs : list node) :
  snd <$> (removed (λ d : node, d.2.2) k cs).1
  = (removed snd k (entries cs)).1
  ∧ entries (removed (λ d : node, d.2.2) k cs).2
    = (removed snd k (entries cs)).2.
Proof. apply (removed_fmap snd snd). Qed.

(** X3. [Prepend] puts the item in front of the items the list holds, with
    key 0, and the [Remove] that follows hands this item back and leaves the
    list with the items it held before. *)
Theorem Prepend_puts_in_front L es x :
  is_keyed_list L es →
  is_keyed_list (Prepend x L) ((x, 0) :: es)
  ∧ ∃ L', Remove (Prepend x L) = Some (Some x, L') ∧ is_keyed_list L' es.
Proof.
  intros (cs & HL & <-).
  pose proof (Prepend_laid_out L cs x HL) as HL1. split.
  - by eexists.
  - destruct (Remove_laid_out _ _ _ HL1) as (L' & Hrun & HL' & _).
    exists L'. split; [done|]. by exists cs.
Qed.

(** X4. [SortedInsert], given as many turns of its loop as the list has
    items, returns and puts the item behind every item whose key is not
    bigger than [sortKey] and in front of the first item whose key is bigger;
    the other items stay as they were.  A list sorted by key stays sorted. *)
Theorem SortedInsert_places_by_key L es x sortKey turns :
  is_keyed_list L es → (length es ≤ turns)%nat →
  ∃ L' before after,
    SortedInsert turns x sortKey L = Returns L'
    ∧ es = before ++ after
    ∧ is_keyed_list L' (before ++ (x, sortKey) :: after)
    ∧ Forall (λ e, e.2 ≤ sortKey) before
    ∧ (∀ e, head after = Some e → sortKey < e.2)
    ∧ (sorted_by_key es → sorted_by_key (before ++ (x, sortKey) :: after)).
Proof.
  intros (cs & HL & <-) Hturns.
  destruct (SortedInsert_laid_out L cs x sortKey turns HL)
    as (L' & Hrun & HL'); [by rewrite length_entries in Hturns|].
  destruct (inserted_split snd sortKey (x, sortKey) (entries cs))
    as (before & after & Hes & Hins & Hle & Hgt).
  exists L', before, after. split; [done|]. split; [done|].
  split; [|split; [done|split; [done|]]].
  - eexists. split; [exact HL'|]. by rewrite entries_inserted.
  - intros Hsorted. rewrite <- Hins.
    by apply (inserted_sorted snd (x, sortKey)).
Qed.

(** X5. Items inserted with [SortedInsert] into an empty list, in any order,
    come out of as many [SortedRemove]s by increasing key, each with its key,
    and items of one key come out in the order they were inserted; the list
    is empty afterwards. *)
Theorem SortedInsert_SortedRemove_sort L es turns :
  is_keyed_list L [] → (length es ≤ turns)%nat →
  ∃ L1 out L2,
    SortedInserts turns es L = Returns L1
    ∧ SortedRemoves (length es) L1 = Some (Some <$> out, L2)
    ∧ SortedRemove L2 = Some (None, L2)
    ∧ out ≡ₚ es
    ∧ sorted_by_key out
    ∧ ∀ k, filter (λ e, e.2 = k) out = filter (λ e, e.2 = k) es.
Proof.
  intros HL Hturns. apply is_keyed_list_nil in HL.
  destruct (SortedInserts_laid_out es L [] turns HL)
    as (L1 & cs1 & Hins & HL1 & Hout); [done|].
  simpl in Hout.
  assert (length cs1 = length es) as Hlen.
  { by rewrite <- (length_entries cs1), Hout, insertion_perm. }
  rewrite <- (app_nil_r cs1) in HL1.
  destruct (SortedRemoves_laid_out cs1 L1 [] HL1) as (L2 & Hrem & HL2 & _).
  exists L1, (entries cs1), L2. split; [done|].
  split; [by rewrite <- Hlen|]. split.
  - unfold SortedRemove. by rewrite (IsEmpty_laid_out _ _ HL2).
  - rewrite Hout. split; [apply insertion_perm|].
    split; [apply insertion_sorted; constructor|].
    intros k. apply (insertion_stable es k []). constructor.
Qed.

(** X6. [List::~List], on a list none of whose items is a NULL pointer,
    returns after having unlinked and deleted every cell of the list: the
    list is empty and none of its cells is allocated any more. *)
Theorem destructor_frees_every_cell is_NULL L (cs : list (loc * (A * Z))) turns :
  laid_out L cs →
  Forall (λ c, is_NULL c.2.1 = false) cs →
  (length cs < turns)%nat →
  ∃ L',
    List_destructor is_NULL turns L = Returns L'
    ∧ IsEmpty L' = true ∧ last L' = None
    ∧ dom (cells L') = dom (cells L) ∖ list_to_set (addresses cs).
Proof.
  intros HL Hitems Hturns. rewrite <- (app_nil_r cs) in HL.
  destruct (List_destructor_run is_NULL cs L [] turns HL Hitems)
    as (L' & Hrun & HL' & Hdom); [done|done|].
  exists L'. split; [done|].
  split; [by rewrite (IsEmpty_laid_out _ _ HL')|].
  split; [by destruct HL' as (_ & _ & _ & ->)|].
  by rewrite app_nil_r in Hdom.
Qed.

(** X7. [List::~List] stops at the first item that is a NULL pointer, as
    [Remove] hands it back: the cells up to this one are deleted and the
    cells behind it stay linked and allocated. *)
Theorem destructor_stops_at_NULL_item is_NULL L
    (before : list (loc * (A * Z))) c after turns :
  laid_out L (before ++ c :: after) →
  Forall (λ c, is_NULL c.2.1 = false) before →
  is_NULL c.2.1 = true →
  (length before < turns)%nat →
  ∃ L',
    List_destructor is_NULL turns L = Returns L'
    ∧ laid_out L' after
    ∧ dom (cells L')
      = dom (cells L) ∖ list_to_set (addresses (before ++ [c]))
    ∧ ∀ p, p ∈ addresses after → p ∈ dom (cells L').
Proof.
  intros HL Hitems Hc Hturns.
  destruct (List_destructor_run is_NULL before L (c :: after) turns HL Hitems)
    as (L' & Hrun & HL' & Hdom); [by intros ? [= <-]|done|].
  exists L'. split; [done|]. split; [exact HL'|]. split; [exact Hdom|].
  intros p Hp. destruct HL' as (_ & Hseg & _). by eapply lseg_dom.
Qed.

(** X8. [ListForJoin::AppendTraverse] puts the item behind the items the list
    holds and gives it the key it was called with. *)
Theorem AppendTraverse_appends_with_key L es x k :
  is_keyed_list L es →
  ∃ L', AppendTraverse x k L = Returns L'
        ∧ is_keyed_list L' (es ++ [(x, k)]).
Proof.
  intros (cs & HL & <-).
  destruct (AppendTraverse_laid_out L cs x k HL) as (L' & Hrun & HL').
  exists L'. split; [done|]. eexists. split; [exact HL'|].
  by rewrite entries_app.
Qed.

(** X9. [ListForJoin::RemoveTraverse], given more turns than the list has
    items, returns the item of the first cell whose key is [key] and takes
    this cell out, the other items keeping their order; when no cell has the
    key it returns NULL and the list is as it was. *)
Theorem RemoveTraverse_takes_first_match L es key turns :
  is_keyed_list L es → (length es < turns)%nat →
  (∀ before x after,
      es = before ++ (x, key) :: after →
      Forall (λ e, e.2 ≠ key) before →
      ∃ L', RemoveTraverse turns key L = Returns (Some x, L')
            ∧ is_keyed_list L' (before ++ after))
  ∧ (Forall (λ e, e.2 ≠ key) es →
     RemoveTraverse turns key L = Returns (None, L)).
Proof.
  intros (cs & HL & <-) Hturns. rewrite length_entries in Hturns.
  destruct (RemoveTraverse_laid_out key L cs turns HL Hturns)
    as (L' & Hrun & HL' & Heffect).
  destruct (removed_entries key cs) as [Hfound Hrest]. split.
  - intros before x after Hes Hbefore.
    rewrite Hes, (removed_found snd) in Hfound, Hrest by done.
    simpl in Hfound, Hrest.
    destruct (removed (λ d : loc * (A * Z), d.2.2) key cs).1 as [c|];
      [|done].
    simpl in Hfound. injection Hfound as Hc. exists L'.
    split; [rewrite Hrun; simpl; by rewrite Hc|]. by eexists.
  - intros Hes. rewrite (removed_missing snd) in Hfound by done.
    destruct (removed (λ d : loc * (A * Z), d.2.2) key cs).1 as [c|];
      [done|].
    by rewrite Hrun, Heffect.
Qed.

(** X10. The cell [RemoveTraverse] takes out is deleted when the list has
    two cells or more.  When the list has one cell and its key is [key], the
    cell is unlinked and the list is empty, and the cell stays allocated. *)
Theorem RemoveTraverse_keeps_the_only_cell L (cs : list (loc * (A * Z)))
    key turns c :
  laid_out L cs → (length cs < turns)%nat →
  (removed (λ d : loc * (A * Z), d.2.2) key cs).1 = Some c →
  ∃ L',
    RemoveTraverse turns key L = Returns (Some c.2.1, L')
    ∧ (length cs = 1%nat →
       IsEmpty L' = true ∧ cells L' = cells L ∧ c.1 ∈ dom (cells L'))
    ∧ (length cs ≠ 1%nat →
       dom (cells L') = dom (cells L) ∖ {[c.1]}).
Proof.
  intros HL Hturns Hc.
  destruct (RemoveTraverse_laid_out key L cs turns HL Hturns)
    as (L' & Hrun & HL' & Heffect).
  rewrite Hc in Hrun, Heffect. exists L'. split; [done|]. split.
  - intros Hone. rewrite bool_decide_eq_true_2 in Heffect by done.
    destruct cs as [|d [|d' cs]]; try done.
    simpl in Hc, HL'. case_bool_decide; [|done]. injection Hc as ->.
    split; [by rewrite (IsEmpty_laid_out _ _ HL')|]. split; [done|].
    rewrite Heffect. destruct HL as (_ & [Hd _] & _).
    apply elem_of_dom. eauto.
  - intros Hmore. by rewrite bool_decide_eq_false_2 in Heffect.
Qed.

(** X11. [ListForJoin::seek], given more turns than the list has items,
    tells whether some cell of the list has the key. *)
Theorem seek_finds_key L es key turns :
  is_keyed_list L es → (length es < turns)%nat →
  seek turns key L = Returns (bool_decide (key ∈ es.*2)).
Proof.
  intros (cs & (_ & Hseg & Hf & _) & <-) Hturns.
  rewrite length_entries in Hturns.
  unfold seek. rewrite Hf, <- start_head, seek_loop_run by done.
  f_equal. apply bool_decide_ext. rewrite Exists_exists.
  unfold entries. rewrite <- list_fmap_compose, list_elem_of_fmap.
  split; intros (c & Hc1 & Hc2); exists c; by split.
Qed.

(** X12. An item appended with a key that no cell of the list has is found
    by [seek], is what [RemoveTraverse] returns for this key, and the list
    holds what it held before once it is taken out. *)
Theorem AppendTraverse_RemoveTraverse L es x key turns :
  is_keyed_list L es → Forall (λ e, e.2 ≠ key) es →
  (S (length es) < turns)%nat →
  ∃ L1 L2,
    AppendTraverse x key L = Returns L1
    ∧ seek turns key L1 = Returns true
    ∧ RemoveTraverse turns key L1 = Returns (Some x, L2)
    ∧ is_keyed_list L2 es
    ∧ seek turns key L2 = Returns false.
Proof.
  intros (cs & HL & <-) Hes Hturns. rewrite length_entries in Hturns.
  destruct (AppendTraverse_laid_out L cs x key HL) as (L1 & Happ & HL1).
  set (c := (fresh (dom (cells L)), (x, key))) in *.
  destruct (RemoveTraverse_laid_out key L1 (cs ++ [c]) turns HL1)
    as (L2 & Hrem & HL2 & _); [rewrite length_app; simpl; lia|].
  assert (Forall (λ d : loc * (A * Z), d.2.2 ≠ key) cs) as Hcs.
  { apply Forall_forall. intros d Hd.
    apply (proj1 (Forall_forall _ _) Hes d.2).
    apply list_elem_of_fmap. by exists d. }
  rewrite (removed_found (λ d : loc * (A * Z), d.2.2) key cs c [])
    in Hrem, HL2 by done.
  simpl in Hrem, HL2. rewrite app_nil_r in HL2.
  exists L1, L2. split; [done|]. split; [|split; [done|split; [by exists cs|]]].
  - destruct HL1 as (_ & Hseg & Hf & _). unfold seek.
    rewrite Hf, <- start_head, seek_loop_run
      by (done || rewrite length_app; simpl; lia).
    f_equal. apply bool_decide_eq_true_2. apply Exists_app. right.
    by apply Exists_cons_hd.
  - destruct HL2 as (_ & Hseg & Hf & _). unfold seek.
    rewrite Hf, <- start_head, seek_loop_run by (done || lia).
    f_equal. apply bool_decide_eq_false_2. rewrite Exists_exists.
    intros (d & Hd & Hkey). by apply (proj1 (Forall_forall _ _) Hcs d).
Qed.

(** X13. [Mapcar], given more turns than the list has items, applies [func]
    to every item once, from the first to the last. *)
Theorem Mapcar_visits_in_order {S : Type} (func : A → S → S) L es turns s :
  is_keyed_list L es → (length es < turns)%nat →
  Mapcar turns func L s = Returns (foldl (λ s x, func x s) s es.*1).
Proof.
  intros (cs & (_ & Hseg & Hf & _) & <-) Hturns.
  rewrite length_entries in Hturns.
  unfold Mapcar. by rewrite Hf, <- start_head, Mapcar_loop_run.
Qed.

(** ** The cells a list owns *)

Lemma update_dom f p h h' : update f p h = Returns h' → dom h' = dom h.
Proof.
  unfold update. destruct p as [q|]; [|done].
  destruct (h !! q) as [c|] eqn:Hq; [|done]. intros [= <-].
  rewrite dom_insert_L. apply set_eq. intros y.
  rewrite elem_of_union, elem_of_singleton.
  split; [intros [->|Hy]|intros Hy]; auto.
  apply elem_of_dom. eauto.
Qed.

Lemma SortedInsert_loop_dom turns : ∀ element sortKey ptr h h',
  SortedInsert_loop turns element sortKey ptr h = Returns (Some h') →
  dom h' = dom h.
Proof.
  induction turns as [|turns IH]; intros element sortKey ptr h h'; [done|].
  cbn [SortedInsert_loop].
  destruct (deref h ptr) as [c| |]; [|done|done]. rewrite run_bind_Returns.
  destruct (next c) as [n|]; [|done].
  destruct (deref h (Some n)) as [cn| |]; [|done|done].
  rewrite run_bind_Returns. case_bool_decide; [|apply IH].
  destruct (update (set_next (Some n)) element h) as [h1| |] eqn:H1;
    [|done|done].
  rewrite run_bind_Returns.
  destruct (update (set_next element) ptr h1) as [h2| |] eqn:H2;
    [|done|done].
  rewrite run_bind_Returns. intros [= <-].
  by rewrite (update_dom _ _ _ _ H2), (update_dom _ _ _ _ H1).
Qed.

Lemma SortedInsert_dom turns x k L L' :
  SortedInsert turns x k L = Returns L' →
  dom (cells L') = {[fresh (dom (cells L))]} ∪ dom (cells L).
Proof.
  unfold SortedInsert. set (e := fresh (dom (cells L))).
  set (h := <[e := mkListElement x k None]> (cells L)).
  assert (dom h = {[e]} ∪ dom (cells L)) as Hh by apply dom_insert_L.
  destruct (IsEmpty L); [by intros [= <-]|].
  destruct (deref h (first L)) as [f| |]; [|done|done].
  rewrite run_bind_Returns. case_bool_decide.
  - destruct (update (set_next (first L)) (Some e) h) as [h1| |] eqn:H1;
      [|done|done].
    rewrite run_bind_Returns. intros [= <-]. simpl.
    by rewrite (update_dom _ _ _ _ H1).
  - destruct (SortedInsert_loop turns (Some e) k (first L) h)
      as [[h1|]| |] eqn:Hloop; [| |done|done]; rewrite run_bind_Returns.
    + intros [= <-]. simpl. by rewrite (SortedInsert_loop_dom _ _ _ _ _ _ Hloop).
    + destruct (update (set_next (Some e)) (last L) h) as [h1| |] eqn:H1;
        [|done|done].
      rewrite run_bind_Returns. intros [= <-]. simpl.
      by rewrite (update_dom _ _ _ _ H1).
Qed.

Lemma Append_dom x L L' :
  Append x L = Some L' →
  dom (cells L') = {[fresh (dom (cells L))]} ∪ dom (cells L).
Proof.
  unfold Append. set (e := fresh (dom (cells L))).
  destruct (IsEmpty L); [intros [= <-]; apply dom_insert_L|].
  destruct (last L) as [l|]; [|done]. simpl.
  destruct (<[e := mkListElement x 0 None]> (cells L) !! l) as [c|] eqn:Hl;
    [|done].
  simpl. intros [= <-]. simpl. rewrite !dom_insert_L.
  apply set_eq. intros y.
  rewrite !elem_of_union, !elem_of_singleton.
  split; [intros [->|[->|Hy]]|intros [->|Hy]]; auto.
  assert (l ∈ dom (<[e := mkListElement x 0 None]> (cells L))) as Hdom
    by (apply elem_of_dom; eauto).
  rewrite dom_insert_L, elem_of_union, elem_of_singleton in Hdom.
  destruct Hdom; auto.
Qed.

Lemma AppendTraverse_dom x k L L' :
  AppendTraverse x k L = Returns L' →
  dom (cells L') = {[fresh (dom (cells L))]} ∪ dom (cells L).
Proof.
  unfold AppendTraverse.
  destruct (Append x L) as [L1|] eqn:HL1; [|done].
  destruct (update (set_key k) (last L1) (cells L1)) as [h1| |] eqn:H1;
    [|done|done].
  rewrite run_bind_Returns. intros [= <-]. simpl.
  by rewrite (update_dom _ _ _ _ H1), (Append_dom _ _ _ HL1).
Qed.

Lemma list_to_set_addresses_cons c (cs : list node) :
  list_to_set (addresses (c :: cs)) =@{gset loc}
  {[c.1]} ∪ list_to_set (addresses cs).
Proof. done. Qed.

Lemma list_to_set_addresses_perm (cs1 cs2 : list node) :
  cs1 ≡ₚ cs2 →
  list_to_set (addresses cs1) =@{gset loc} list_to_set (addresses cs2).
Proof.
  intros Hperm. apply list_to_set_perm_L. unfold addresses. by rewrite Hperm.
Qed.

(** X22. The lists of list.cc own their cells: starting from [List::List],
    after [Append], [Prepend], [SortedInsert] and [AppendTraverse] the
    allocated cells are those linked in the list, one more than before;
    [SortedRemove] and [Remove] delete the cell they unlink, and so does
    [RemoveTraverse] on a list of two cells or more; no cell is left
    allocated that the list does not reach. *)
Theorem list_owns_its_cells :
  owns new_List []
  ∧ (∀ L cs x, owns L cs →
       ∃ L' c, Append x L = Some L' ∧ owns L' (cs ++ [c]) ∧ c.2 = (x, 0))
  ∧ (∀ L cs x, owns L cs →
       ∃ c, owns (Prepend x L) (c :: cs) ∧ c.2 = (x, 0))
  ∧ (∀ L cs x k turns, owns L cs → (length cs ≤ turns)%nat →
       ∃ L' cs', SortedInsert turns x k L = Returns L' ∧ owns L' cs'
                 ∧ entries cs' = inserted snd k (x, k) (entries cs))
  ∧ (∀ L cs x k, owns L cs →
       ∃ L' c, AppendTraverse x k L = Returns L' ∧ owns L' (cs ++ [c])
               ∧ c.2 = (x, k))
  ∧ (∀ L c cs, owns L (c :: cs) →
       ∃ L', SortedRemove L = Some (Some c.2, L') ∧ owns L' cs)
  ∧ (∀ L cs k turns, owns L cs → (length cs < turns)%nat →
       length cs ≠ 1%nat →
       ∃ r L', RemoveTraverse turns k L = Returns (r, L')
               ∧ owns L' (removed (λ d : loc * (A * Z), d.2.2) k cs).2).
Proof.
  split; [|split; [|split; [|split; [|split; [|split]]]]].
  - split; [by apply laid_out_nil|]. simpl. by rewrite dom_empty_L.
  - intros L cs x [HL Hdom].
    destruct (Append_laid_out L cs x HL) as (L' & Hrun & HL' & Hdom').
    exists L', (fresh (dom (cells L)), (x, 0)).
    split; [done|]. split; [|done]. split; [done|].
    rewrite Hdom', Hdom, addresses_app, list_to_set_app_L. simpl.
    apply set_eq. intros y.
    rewrite !elem_of_union, elem_of_singleton, elem_of_empty. tauto.
  - intros L cs x [HL Hdom].
    exists (fresh (dom (cells L)), (x, 0)). split; [|done].
    split; [by apply Prepend_laid_out|].
    rewrite list_to_set_addresses_cons, <- Hdom.
    unfold Prepend. destruct (IsEmpty L); simpl; apply dom_insert_L.
  - intros L cs x k turns [HL Hdom] Hturns.
    destruct (SortedInsert_laid_out L cs x k turns HL Hturns)
      as (L' & Hrun & HL').
    exists L', (inserted (λ d : loc * (A * Z), d.2.2) k
                 (fresh (dom (cells L)), (x, k)) cs).
    split; [done|]. split; [|apply entries_inserted].
    split; [exact HL'|].
    rewrite (SortedInsert_dom _ _ _ _ _ Hrun), Hdom.
    rewrite (list_to_set_addresses_perm _ _ (inserted_perm _ _ _ _)).
    by rewrite list_to_set_addresses_cons.
  - intros L cs x k [HL Hdom].
    destruct (AppendTraverse_laid_out L cs x k HL) as (L' & Hrun & HL').
    exists L', (fresh (dom (cells L)), (x, k)).
    split; [done|]. split; [|done]. split; [done|].
    rewrite (AppendTraverse_dom _ _ _ _ Hrun), Hdom.
    rewrite addresses_app, list_to_set_app_L. simpl.
    apply set_eq. intros y.
    rewrite !elem_of_union, elem_of_singleton, elem_of_empty. tauto.
  - intros L c cs [HL Hdom].
    destruct (SortedRemove_laid_out L c cs HL) as (L' & Hrun & HL' & Hcells).
    exists L'. split; [done|]. split; [done|].
    rewrite Hcells, dom_delete_L, Hdom, list_to_set_addresses_cons.
    destruct HL as (Hnd & _). rewrite addresses_cons in Hnd.
    apply NoDup_cons in Hnd as [Hnot _].
    apply set_eq. intros y.
    rewrite elem_of_difference, elem_of_union, elem_of_singleton,
      !elem_of_list_to_set.
    split; [intros [[->|Hy] Hne]; done|].
    intros Hy. split; [by right|]. by intros ->.
  - intros L cs k turns [HL Hdom] Hturns Hmore.
    destruct (RemoveTraverse_laid_out k L cs turns HL Hturns)
      as (L' & Hrun & HL' & Heffect).
    eexists _, L'. split; [exact Hrun|]. split; [exact HL'|].
    pose proof (removed_split (λ d : loc * (A * Z), d.2.2) k cs) as Hsplit.
    destruct (removed (λ d : loc * (A * Z), d.2.2) k cs).1 as [c|].
    + rewrite bool_decide_eq_false_2 in Heffect by done.
      destruct Hsplit as (before & after & Hcs & Hrest & _).
      rewrite Heffect, Hdom, Hrest, Hcs.
      destruct HL as (Hnd & _). rewrite Hcs in Hnd.
      rewrite addresses_app, addresses_cons in Hnd.
      apply NoDup_app in Hnd as (_ & Hdisj & Hnd).
      apply NoDup_cons in Hnd as [Hnot _].
      rewrite !addresses_app, addresses_cons, !list_to_set_app_L.
      apply set_eq. intros y. simpl.
      rewrite elem_of_difference, !elem_of_union, elem_of_singleton,
        !elem_of_list_to_set.
      split.
      * intros [[Hy|[->|Hy]] Hne]; auto. done.
      * intros [Hy|Hy]; (split; [auto|intros ->]); [|done].
        apply (Hdisj _ Hy). apply list_elem_of_here.
    + destruct Hsplit as [Hrest _]. by rewrite Heffect, Hrest.
Qed.

End list_cc.

Arguments ListElement : clear implicits.
Arguments List : clear implicits.

End LinkedList.

(* ================================================================== *)
(** * list.cc on small lists *)
(* ================================================================== *)

Module ListScenario.
Import LinkedList.

(** Three cells, with the items 10, 20, 30 and the keys 1, 3, 3. *)
Definition three : List nat :=
  {| cells := {[ 1%positive := mkListElement 10%nat 1 (Some 2%positive);
                 2%positive := mkListElement 20%nat 3 (Some 3%positive);
                 3%positive := mkListElement 30%nat 3 None ]};
     first := Some 1%positive; last := Some 3%positive |}.

Definition three_cells : list (loc * (nat * Z)) :=
  [(1%positive, (10%nat, 1)); (2%positive, (20%nat, 3));
   (3%positive, (30%nat, 3))].

Definition three_entries : list (nat * Z) :=
  [(10%nat, 1); (20%nat, 3); (30%nat, 3)].

(** The same cells, the item of the second one being a NULL pointer. *)
Definition is_NULL (x : nat) : bool := bool_decide (x = 0%nat).

Definition with_NULL : List nat :=
  {| cells := {[ 1%positive := mkListElement 10%nat 1 (Some 2%positive);
                 2%positive := mkListElement 0%nat 3 (Some 3%positive);
                 3%positive := mkListElement 30%nat 3 None ]};
     first := Some 1%positive; last := Some 3%positive |}.

(** One cell. *)
Definition one : List nat :=
  {| cells := {[ 1%positive := mkListElement 10%nat 1 None ]};
     first := Some 1%positive; last := Some 1%positive |}.

Lemma three_laid_out : laid_out three three_cells.
Proof.
  split; [|split; [|done]].
  - apply (bool_decide_unpack (NoDup (addresses three_cells))).
    vm_compute. exact I.
  - simpl. repeat split; vm_compute; reflexivity.
Qed.

Lemma three_holds : is_keyed_list three three_entries.
Proof. exists three_cells. split; [apply three_laid_out|done]. Qed.

Lemma with_NULL_laid_out :
  laid_out with_NULL
    ([(1%positive, (10%nat, 1))]
       ++ (2%positive, (0%nat, 3)) :: [(3%positive, (30%nat, 3))]).
Proof.
  split; [|split; [|done]].
  - apply (bool_decide_unpack (NoDup [1%positive; 2%positive; 3%positive])).
    vm_compute. exact I.
  - simpl. repeat split; vm_compute; reflexivity.
Qed.

Lemma one_laid_out : laid_out one [(1%positive, (10%nat, 1))].
Proof.
  split; [|split; [|done]].
  - apply NoDup_singleton.
  - simpl. repeat split; vm_compute; reflexivity.
Qed.

Lemma Prepend_5 :
  is_keyed_list (Prepend 5%nat three) ((5%nat, 0) :: three_entries)
  ∧ ∃ L', Remove (Prepend 5%nat three) = Some (Some 5%nat, L')
          ∧ is_keyed_list L' three_entries.
Proof. apply Prepend_puts_in_front. exact three_holds. Defined.

Lemma SortedInsert_25_with_key_2 :
  ∃ L' before after,
    SortedInsert 3 25%nat 2 three = Returns L'
    ∧ three_entries = before ++ after
    ∧ is_keyed_list L' (before ++ (25%nat, 2) :: after)
    ∧ Forall (λ e, e.2 ≤ 2) before
    ∧ (∀ e, head after = Some e → 2 < e.2)
    ∧ (sorted_by_key three_entries →
       sorted_by_key (before ++ (25%nat, 2) :: after)).
Proof.
  apply SortedInsert_places_by_key; [exact three_holds|simpl; lia].
Defined.

Lemma four_items_sorted :
  ∃ L1 out L2,
    SortedInserts 4 [(30%nat, 3); (10%nat, 1); (20%nat, 3); (40%nat, 2)]
      new_List = Returns L1
    ∧ SortedRemoves 4 L1 = Some (Some <$> out, L2)
    ∧ SortedRemove L2 = Some (None, L2)
    ∧ out ≡ₚ [(30%nat, 3); (10%nat, 1); (20%nat, 3); (40%nat, 2)]
    ∧ sorted_by_key out
    ∧ ∀ k, filter (λ e, e.2 = k) out
           = filter (λ e, e.2 = k)
               [(30%nat, 3); (10%nat, 1); (20%nat, 3); (40%nat, 2)].
Proof.
  apply (SortedInsert_SortedRemove_sort new_List
           [(30%nat, 3); (10%nat, 1); (20%nat, 3); (40%nat, 2)] 4);
    [|simpl; lia].
  exists []. split; [|reflexivity]. split; [constructor|done].
Defined.

Lemma three_cells_freed :
  ∃ L',
    List_destructor is_NULL 4 three = Returns L'
    ∧ IsEmpty L' = true ∧ last L' = None
    ∧ dom (cells L') = dom (cells three) ∖ list_to_set (addresses three_cells).
Proof.
  apply destructor_frees_every_cell;
    [exact three_laid_out|repeat constructor|simpl; lia].
Defined.

Lemma third_cell_is_left :
  ∃ L',
    List_destructor is_NULL 2 with_NULL = Returns L'
    ∧ laid_out L' [(3%positive, (30%nat, 3))]
    ∧ dom (cells L')
      = dom (cells with_NULL)
          ∖ list_to_set
              (addresses ([(1%positive, (10%nat, 1))]
                            ++ [(2%positive, (0%nat, 3))]))
    ∧ ∀ p, p ∈ addresses [(3%positive, (30%nat, 3))] → p ∈ dom (cells L').
Proof.
  apply destructor_stops_at_NULL_item;
    [exact with_NULL_laid_out|repeat constructor|reflexivity|simpl; lia].
Defined.

Lemma AppendTraverse_40_with_key_7 :
  ∃ L', AppendTraverse 40%nat 7 three = Returns L'
        ∧ is_keyed_list L' (three_entries ++ [(40%nat, 7)]).
Proof. apply AppendTraverse_appends_with_key. exact three_holds. Defined.

Lemma RemoveTraverse_key_3 :
  ∃ L', RemoveTraverse 4 3 three = Returns (Some 20%nat, L')
        ∧ is_keyed_list L' ([(10%nat, 1)] ++ [(30%nat, 3)]).
Proof.
  destruct (RemoveTraverse_takes_first_match three three_entries 3 4)
    as [Hfound _]; [exact three_holds|simpl; lia|].
  apply (Hfound [(10%nat, 1)] 20%nat [(30%nat, 3)]); [reflexivity|].
  repeat constructor. simpl. lia.
Defined.

Lemma the_only_cell_stays_allocated :
  ∃ L',
    RemoveTraverse 2 1 one = Returns (Some 10%nat, L')
    ∧ (length [(1%positive, (10%nat, 1))] = 1%nat →
       IsEmpty L' = true ∧ cells L' = cells one
       ∧ 1%positive ∈ dom (cells L'))
    ∧ (length [(1%positive, (10%nat, 1))] ≠ 1%nat →
       dom (cells L') = dom (cells one) ∖ {[1%positive]}).
Proof.
  apply (RemoveTraverse_keeps_the_only_cell one [(1%positive, (10%nat, 1))]
           1 2 (1%positive, (10%nat, 1)));
    [exact one_laid_out|simpl; lia|reflexivity].
Defined.

Lemma seek_key_3 :
  seek 4 3 three = Returns (bool_decide (3 ∈ three_entries.*2)).
Proof. apply seek_finds_key; [exact three_holds|simpl; lia]. Defined.

Lemma AppendTraverse_RemoveTraverse_key_7 :
  ∃ L1 L2,
    AppendTraverse 40%nat 7 three = Returns L1
    ∧ seek 5 7 L1 = Returns true
    ∧ RemoveTraverse 5 7 L1 = Returns (Some 40%nat, L2)
    ∧ is_keyed_list L2 three_entries
    ∧ seek 5 7 L2 = Returns false.
Proof.
  apply AppendTraverse_RemoveTraverse;
    [exact three_holds|repeat constructor; simpl; lia|simpl; lia].
Defined.

Lemma Mapcar_collects_the_items :
  Mapcar 4 (λ x s, s ++ [x]) three []
  = Returns (foldl (λ s x, s ++ [x]) [] three_entries.*1).
Proof.
  apply (Mapcar_visits_in_order (λ x s, s ++ [x]));
    [exact three_holds|simpl; lia].
Defined.

End ListScenario.

(* ================================================================== *)
(** * The libc routines post.cc calls on character buffers *)
(* ================================================================== *)

(** A [char *] is modelled by the bytes that can be read from the address on:
    reading past them is an out-of-bounds access, [None]. *)
Module CString.

Local Open Scope nat_scope.

Definition NUL : byte := x00.

Definition is_nul (c : byte) : bool := Byte.eqb c NUL.

(** [strlen (s)] *)
Fixpoint strlen (s : list byte) : option nat :=
  match s with
  | [] => None
  | c :: s' => if is_nul c then Some 0 else S <$> strlen s'
  end.

(** The characters of the C string at [s]: those before its terminator. *)
Fixpoint chars (s : list byte) : list byte :=
  match s with
  | [] => []
  | c :: s' => if is_nul c then [] else c :: chars s'
  end.

(** [memcpy (dst, src + off, n)] and [bcopy (src + off, dst, n)]: the [n]
    bytes that are read. *)
Definition memread (src : list byte) (off n : nat) : option (list byte) :=
  if decide (off + n ≤ length src) then Some (take n (drop off src)) else None.

(** [strncpy (dst, src, n)]: the [n] bytes written to [dst]; the copy stops at
    the terminator of [src] and pads with NUL, and writes no terminator when
    the first [n] bytes of [src] hold none. *)
Fixpoint strncpy (src : list byte) (n : nat) {struct n} : option (list byte) :=
  match n with
  | 0 => Some []
  | S n' =>
      match src with
      | [] => None
      | c :: src' =>
          if is_nul c then Some (replicate (S n') NUL)
          else cons c <$> strncpy src' n'
      end
  end.

(** [bcopy (src, dst, n)]: the buffer [dst] after the copy. *)
Definition bcopy (src dst : list byte) (n : nat) : option (list byte) :=
  if decide (n ≤ length src ∧ n ≤ length dst)
  then Some (take n src ++ drop n dst) else None.

(** [strcat (dst, src)]: the buffer [dst] after the call. *)
Definition strcat (dst src : list byte) : option (list byte) :=
  match strlen dst, strlen src with
  | Some n, Some m =>
      if decide (n + m + 1 ≤ length dst)
      then Some (take n dst ++ take (m + 1) src ++ drop (n + m + 1) dst)
      else None
  | _, _ => None
  end.

(** A string constant: its characters and the terminator. *)
Definition literal (s : list byte) : list byte := s ++ [NUL].

(** A sequence of characters none of which is NUL. *)
Definition text (s : list byte) : Prop := Forall (λ c, is_nul c = false) s.

(** ** Strings with their terminator in place *)

Lemma text_app s1 s2 : text (s1 ++ s2) ↔ text s1 ∧ text s2.
Proof. apply Forall_app. Qed.

Lemma text_take n s : text s → text (take n s).
Proof. apply Forall_take. Qed.

Lemma text_drop n s : text s → text (drop n s).
Proof. apply Forall_drop. Qed.

Lemma strlen_text s rest : text s → strlen (s ++ NUL :: rest) = Some (length s).
Proof.
  induction s as [|c s IH]; intros Hs; simpl; [done|].
  apply Forall_cons in Hs as [-> Hs]. by rewrite IH.
Qed.

Lemma strlen_no_terminator s : text s → strlen s = None.
Proof.
  induction s as [|c s IH]; intros Hs; simpl; [done|].
  apply Forall_cons in Hs as [-> Hs]. by rewrite IH.
Qed.

Lemma chars_text s rest : text s → chars (s ++ NUL :: rest) = s.
Proof.
  induction s as [|c s IH]; intros Hs; simpl; [done|].
  apply Forall_cons in Hs as [-> Hs]. by rewrite IH.
Qed.

Lemma strncpy_text s rest n :
  text s →
  strncpy (s ++ NUL :: rest) n = Some (take n s ++ replicate (n - length s) NUL).
Proof.
  revert n. induction s as [|c s IH]; intros n Hs.
  - by destruct n.
  - apply Forall_cons in Hs as [Hc Hs].
    destruct n; simpl; [done|]. by rewrite Hc, IH.
Qed.

(** A string of [n] or more characters: [strncpy] stops before any terminator
    and writes none. *)
Lemma strncpy_long s rest n :
  text s → n ≤ length s → strncpy (s ++ rest) n = Some (take n s).
Proof.
  revert n. induction s as [|c s IH]; intros n Hs Hn.
  - destruct n; [done|]. simpl in Hn. lia.
  - apply Forall_cons in Hs as [Hc Hs].
    destruct n; simpl; [done|]. simpl in Hn. by rewrite Hc, IH by (done || lia).
Qed.

Lemma strcat_text a resta b restb :
  text a → text b →
  length a + length b + 1 ≤ length (a ++ NUL :: resta) →
  strcat (a ++ NUL :: resta) (b ++ NUL :: restb)
  = Some ((a ++ b) ++ NUL :: drop (length b) resta).
Proof.
  intros Ha Hb Hfit. unfold strcat.
  rewrite !strlen_text by done. rewrite decide_True by done.
  f_equal. rewrite take_app_length.
  rewrite (take_app_ge b) by lia.
  replace (length b + 1 - length b) with 1 by lia. simpl.
  rewrite <- !app_assoc. do 2 f_equal.
  rewrite drop_app_ge by lia.
  replace (length a + length b + 1 - length a) with (S (length b)) by lia.
  done.
Qed.

Lemma is_nul_true c : is_nul c = true → c = NUL.
Proof. apply Byte.byte_dec_bl. Qed.

Lemma strlen_inv data len :
  strlen data = Some len →
  ∃ s rest, data = s ++ NUL :: rest ∧ text s ∧ length s = len.
Proof.
  revert len. induction data as [|c data IH]; intros len; simpl; [done|].
  destruct (is_nul c) eqn:Hc.
  - intros [= <-]. apply is_nul_true in Hc as ->.
    exists [], data. repeat split. apply Forall_nil_2.
  - destruct (strlen data) as [n|]; [|done]. simpl. intros [= <-].
    destruct (IH n eq_refl) as (s & rest & -> & Hs & <-).
    exists (c :: s), rest. split; [done|]. split; [|done]. by apply Forall_cons.
Qed.



End CString.

(* ================================================================== *)
(** * post.cc: mail, mailboxes and the post office *)
(* ================================================================== *)

(** [class PacketHeader] of network.h, through the fields post.cc reads and
    writes: the machines and the number of bytes that follow. *)
Module PacketHeader.
Record t := mk { to : Z; from : Z; length : nat }.
End PacketHeader.

(** [class MailHeader] of post.h, through the fields post.cc reads and writes:
    the mailboxes, the number of data bytes and the fragments still to come. *)
Module MailHeader.
Record t := mk { to : Z; from : Z; length : nat; remainingParts : Z }.
End MailHeader.

(** The queues of post.cc are [SynchList]s.

    Modelled from the spec: [SynchList] (synchlist.cc is not among the
    sources) is the blocking FIFO queue the spec requires: a [List] whose
    [Append] adds at the tail, whose [Remove] takes the oldest item and makes
    the caller wait while there is none, and whose [isEmpty] is that of the
    list.  A queue is represented by the sequence of its items, oldest first.

    What [GetFirst] does on an empty queue is decided in synchlist.cc: it
    either tests for emptiness itself and yields NULL ([checks_empty]), or
    hands the call to [List::GetFirst], which dereferences the NULL [first]. *)
Module SynchList.

Abbreviation t := list (only parsing).

Section synchlist.
Context {A : Type}.

Definition Append (x : A) (l : t A) : t A := l ++ [x].

(** [None]: the caller waits. *)
Definition Remove (l : t A) : option (A * t A) :=
  match l with
  | [] => None
  | x :: l' => Some (x, l')
  end.

Definition isEmpty (l : t A) : bool :=
  match l with
  | [] => true
  | _ :: _ => false
  end.

(** [None]: a NULL pointer is dereferenced; [Some None]: NULL is returned. *)
Definition GetFirst (checks_empty : bool) (l : t A) : option (option A) :=
  match l with
  | [] => if checks_empty then Some None else None
  | x :: _ => Some (Some x)
  end.

End synchlist.
End SynchList.

Module Post.

(** [class Mail]: the two headers, the [data] buffer (its bytes written so
    far) and the bookkeeping of the reliable protocol. *)
Record Mail := mkMail {
  pktHdr : PacketHeader.t;
  mailHdr : MailHeader.t;
  data : list byte;
  remainingParts : Z;
  attempts : Z
}.

Definition packet : Type := PacketHeader.t * list byte.

(** [class PostOffice], together with what its collaborators hold on its
    behalf: the packets handed to the network device ([sent], oldest first),
    the packets the device has received and not yet given to the postal worker
    ([arrived]), and the number of [TimeOutHandler] callbacks scheduled with
    the interrupt simulator and not yet run ([timeouts]). *)
Record PostOffice := mkPostOffice {
  netAddr : Z;
  numBoxes : Z;
  boxes : list (SynchList.t Mail);
  sentMessages : SynchList.t Mail;
  sent : list packet;
  arrived : list packet;
  timeouts : nat
}.

Definition set_boxes (b : list (SynchList.t Mail)) (po : PostOffice) : PostOffice :=
  {| netAddr := netAddr po; numBoxes := numBoxes po; boxes := b;
     sentMessages := sentMessages po; sent := sent po; arrived := arrived po;
     timeouts := timeouts po |}.

Definition set_sentMessages (l : SynchList.t Mail) (po : PostOffice) : PostOffice :=
  {| netAddr := netAddr po; numBoxes := numBoxes po; boxes := boxes po;
     sentMessages := l; sent := sent po; arrived := arrived po;
     timeouts := timeouts po |}.

Definition set_sent (l : list packet) (po : PostOffice) : PostOffice :=
  {| netAddr := netAddr po; numBoxes := numBoxes po; boxes := boxes po;
     sentMessages := sentMessages po; sent := l; arrived := arrived po;
     timeouts := timeouts po |}.

Definition set_arrived (l : list packet) (po : PostOffice) : PostOffice :=
  {| netAddr := netAddr po; numBoxes := numBoxes po; boxes := boxes po;
     sentMessages := sentMessages po; sent := sent po; arrived := l;
     timeouts := timeouts po |}.

Definition set_timeouts (n : nat) (po : PostOffice) : PostOffice :=
  {| netAddr := netAddr po; numBoxes := numBoxes po; boxes := boxes po;
     sentMessages := sentMessages po; sent := sent po; arrived := arrived po;
     timeouts := n |}.

(** The [ASSERT]s of post.cc. *)
Inductive assertion :=
| MailLength        (* Mail::Mail: mailH.length <= MaxMailSize *)
| SendLength        (* Send: mailHdr.length <= MaxMailSize *)
| SendBox           (* Send: 0 <= mailHdr.to && mailHdr.to < numBoxes *)
| DeliveryBox       (* PostalDelivery: 0 <= mailHdr.to && mailHdr.to < numBoxes *)
| DeliveryLength    (* PostalDelivery: mailHdr.length <= MaxMailSize *)
| ReceiveBox        (* Receive, ReliableReceive: box >= 0 && box < numBoxes *)
| ReceiveLength     (* Receive, ReliableReceive: mailHdr->length <= MaxMailSize *)
| NetworkError.     (* ReliableSend: ASSERT(false) after " - Network Error -" *)

(** What the C++ standard leaves undefined. *)
Inductive fault := NullDereference | OutOfBounds | DivisionByZero.

(** Where a thread sleeps. *)
Inductive wait :=
| MailboxEmpty (box : nat)    (* SynchList::Remove on boxes[box] *)
| SentMessagesEmpty           (* SynchList::Remove on sentMessages *)
| NoPacket.                   (* messageAvailable->P() *)

(** How a call ends: it returns, an [ASSERT] aborts the machine, the behaviour
    is undefined, the calling thread sleeps, or the machine is halted. *)
Inductive outcome (A : Type) :=
| Ok (a : A) (po : PostOffice)
| AssertFailed (a : assertion)
| Undefined (f : fault)
| Blocked (w : wait) (po : PostOffice)
| Halted (po : PostOffice)
| OutOfFuel.
Arguments Ok {A}.
Arguments AssertFailed {A}.
Arguments Undefined {A}.
Arguments Blocked {A}.
Arguments Halted {A}.
Arguments OutOfFuel {A}.

Definition M (A : Type) : Type := PostOffice → outcome A.

#[global] Instance M_ret : MRet M := λ A a po, Ok a po.

#[global] Instance M_bind : MBind M := λ A B k c po,
  match c po with
  | Ok a po' => k a po'
  | AssertFailed a => AssertFailed a
  | Undefined f => Undefined f
  | Blocked w po' => Blocked w po'
  | Halted po' => Halted po'
  | OutOfFuel => OutOfFuel
  end.

Definition get : M PostOffice := λ po, Ok po po.
Definition modify (f : PostOffice → PostOffice) : M unit := λ po, Ok tt (f po).

(** [ASSERT (b)] *)
Definition ASSERT (b : bool) (a : assertion) : M unit :=
  λ po, if b then Ok tt po else AssertFailed a.

(** A memory access. *)
Definition access {A} (f : fault) (o : option A) : M A :=
  λ po, match o with
        | Some a => Ok a po
        | None => Undefined f
        end.

(** Modelled from the spec: [divRoundUp] is a macro of utility.h, which is not
    among the sources; the quotient rounded up, as the fragment count of the
    spec requires. *)
Definition divRoundUp (n s : nat) : nat :=
  (n / s + (if 0 <? n `mod` s then 1 else 0))%nat.

(** The acknowledgement text of [ReliableReceive]: "Got it!". *)
Definition ack : list byte :=
  CString.literal [x47; x6f; x74; x20; x69; x74; x21].

(** A thread that needs an item the queue does not hold sleeps. *)
Definition wait_for {A} (w : wait) (o : option A) : M A :=
  λ po, match o with
        | Some a => Ok a po
        | None => Blocked w po
        end.

Definition set_attempts (n : Z) (m : Mail) : Mail :=
  {| pktHdr := pktHdr m; mailHdr := mailHdr m; data := data m;
     remainingParts := remainingParts m; attempts := n |}.

Section post_cc.

(** post.h is not among the sources: its constants are parameters. *)
Variable MaxMailSize : nat.
Variable MAXREEMISSIONS : Z.

(** [sizeof (MailHeader)], the bytes [bcopy (&mailHdr, buffer, ...)] copies and
    the header [*(MailHeader * )buffer] reads back. *)
Variable sizeofMailHeader : nat.
Variable encodeMailHeader : MailHeader.t → list byte.
Variable decodeMailHeader : list byte → MailHeader.t.

(** Whether [SynchList::GetFirst] tests for emptiness itself. *)
Variable checks_empty : bool.

(** [Mail::Mail].  Without [msgData] the buffer is left as allocated; the two
    bookkeeping fields are not set by the constructor (they are read only
    after [ReliableSend] has assigned them). *)
Definition Mail_new (pktH : PacketHeader.t) (mailH : MailHeader.t)
    (msgData : option (list byte)) : M Mail :=
  ASSERT (bool_decide (MailHeader.length mailH ≤ MaxMailSize)%nat) MailLength ;;
  d ← match msgData with
      | Some src =>
          access OutOfBounds (CString.memread src 0 (MailHeader.length mailH))
      | None => mret []
      end;
  mret {| pktHdr := pktH; mailHdr := mailH; data := d;
          remainingParts := 0; attempts := 0 |}.

(** [boxes[box]] *)
Definition box_at (box : nat) : M (SynchList.t Mail) :=
  po ← get;
  access OutOfBounds (boxes po !! box).

Definition set_box (box : nat) (messages : SynchList.t Mail) : M unit :=
  modify (λ po, set_boxes (<[box := messages]> (boxes po)) po).

(** [MailBox::Put], on [boxes[box]]. *)
Definition MailBox_Put (box : nat) (pktHdr : PacketHeader.t)
    (mailHdr : MailHeader.t) (data : list byte) : M unit :=
  mail ← Mail_new pktHdr mailHdr (Some data);
  messages ← box_at box;
  set_box box (SynchList.Append mail messages).

(** [MailBox::Get], on [boxes[box]]; [out] is the caller's buffer, returned as
    the copy leaves it.  [postOfficeMessages] is [sentMessages]. *)
Definition MailBox_Get (box : nat) (out : list byte)
    : M (PacketHeader.t * MailHeader.t * list byte) :=
  messages ← box_at box;
  '(mail, messages') ← wait_for (MailboxEmpty box) (SynchList.Remove messages);
  set_box box messages' ;;
  po ← get;
  sentMessage ← access NullDereference
                  (SynchList.GetFirst checks_empty (sentMessages po));
  match sentMessage with
  | Some sentMessage =>
      if bool_decide (MailHeader.from (mailHdr sentMessage)
                      = MailHeader.to (mailHdr mail))
      then
        '(_, rest) ← wait_for SentMessagesEmpty
                       (SynchList.Remove (sentMessages po));
        modify (set_sentMessages rest)
      else mret ()
  | None => mret ()
  end ;;
  out' ← access OutOfBounds
           (CString.bcopy (data mail) out (MailHeader.length (mailHdr mail)));
  mret (pktHdr mail, mailHdr mail, out').

(** [messageAvailable->P ()] followed by [network->Receive (buffer)]: the
    oldest packet the device holds. *)
Definition network_Receive : M packet :=
  λ po, match arrived po with
        | [] => Blocked NoPacket po
        | p :: rest => Ok p (set_arrived rest po)
        end.

(** One turn of the loop of [PostOffice::PostalDelivery].  The packet the
    device hands over is the content of [buffer]: the bytes of the mail
    header and the [mailHdr.length] data bytes behind them, as [Send] put
    them in the packet.  What [buffer] holds behind the bytes of a packet
    that is shorter than its mail header announces is left over from
    earlier turns; these bytes are not modelled, and a read of them has no
    value here. *)
Definition PostalDelivery : M unit :=
  po ← get;
  '(pktHdr, buffer) ← network_Receive;
  let mailHdr := decodeMailHeader buffer in
  ASSERT (bool_decide (0 ≤ MailHeader.to mailHdr
                       ∧ MailHeader.to mailHdr < numBoxes po)) DeliveryBox ;;
  ASSERT (bool_decide (MailHeader.length mailHdr ≤ MaxMailSize)%nat)
         DeliveryLength ;;
  MailBox_Put (Z.to_nat (MailHeader.to mailHdr)) pktHdr mailHdr
              (drop sizeofMailHeader buffer).

(** [PostOffice::Send].  The device takes the packet and raises "send
    complete", on which the caller goes on. *)
Definition Send (pktHdr : PacketHeader.t) (mailHdr : MailHeader.t)
    (data : list byte) : M unit :=
  po ← get;
  ASSERT (bool_decide (MailHeader.length mailHdr ≤ MaxMailSize)%nat) SendLength ;;
  ASSERT (bool_decide (0 ≤ MailHeader.to mailHdr
                       ∧ MailHeader.to mailHdr < numBoxes po)) SendBox ;;
  let pktHdr :=
    PacketHeader.mk (PacketHeader.to pktHdr) (netAddr po)
                    (MailHeader.length mailHdr + sizeofMailHeader) in
  payload ← access OutOfBounds
              (CString.memread data 0 (MailHeader.length mailHdr));
  let buffer := encodeMailHeader mailHdr ++ payload in
  modify (λ po, set_sent (sent po ++ [(pktHdr, buffer)]) po).

(** [PostOffice::Receive] *)
Definition Receive (box : Z) (out : list byte)
    : M (PacketHeader.t * MailHeader.t * list byte) :=
  po ← get;
  ASSERT (bool_decide (0 ≤ box ∧ box < numBoxes po)) ReceiveBox ;;
  '(pktHdr, mailHdr, out') ← MailBox_Get (Z.to_nat box) out;
  ASSERT (bool_decide (MailHeader.length mailHdr ≤ MaxMailSize)%nat)
         ReceiveLength ;;
  mret (pktHdr, mailHdr, out').

(** [PostOffice::FindMail]: the argument is not looked at. *)
Definition FindMail (mail : Mail) : M (option Mail) :=
  po ← get;
  if negb (SynchList.isEmpty (sentMessages po)) then
    access NullDereference (SynchList.GetFirst checks_empty (sentMessages po))
  else mret None.

(** [sentMail->attempts++], where [sentMail] points to the item at the head of
    [sentMessages]: the entry in the list is the object that changes. *)
Definition increment_attempts_of_first : M unit :=
  modify (λ po,
    match sentMessages po with
    | [] => po
    | m :: rest => set_sentMessages (set_attempts (attempts m + 1) m :: rest) po
    end).

(** [interrupt->Schedule (TimeOutHandler, (int) this, TEMPO, NetworkSendInt)] *)
Definition Schedule_TimeOutHandler : M unit :=
  modify (λ po, set_timeouts (S (timeouts po)) po).

(** The loop of [ReliableSend] over the pieces of an oversized payload, from
    piece [i] on, [count] pieces to go. *)
Fixpoint schedule_chunks (count i : nat) (remainingParts : Z)
    (pktHdr : PacketHeader.t) (mailHdr : MailHeader.t) (data : list byte)
    : M unit :=
  match count with
  | O => mret ()
  | S count' =>
      chunk ← access OutOfBounds
                (CString.memread data (i * (MaxMailSize - 1)) (MaxMailSize - 1));
      let chunk := chunk ++ [CString.NUL] in
      let mailHdr :=
        MailHeader.mk (MailHeader.to mailHdr) (MailHeader.from mailHdr)
                      MaxMailSize (MailHeader.remainingParts mailHdr) in
      mail ← Mail_new pktHdr mailHdr None;
      d ← access OutOfBounds (CString.strncpy chunk MaxMailSize);
      let mail :=
        {| pktHdr := Post.pktHdr mail; mailHdr := Post.mailHdr mail; data := d;
           remainingParts := remainingParts; attempts := 0 |} in
      modify (λ po, set_sentMessages
                      (SynchList.Append mail (sentMessages po)) po) ;;
      schedule_chunks count' (S i) (remainingParts - 1) pktHdr mailHdr data
  end.

(** [TimeOutHandler], given the [ReliableSend] it calls. *)
Definition TimeOutHandler_with
    (ReliableSend : PacketHeader.t → MailHeader.t → list byte → M unit)
    : M unit :=
  po ← get;
  if negb (SynchList.isEmpty (sentMessages po)) then
    mail ← access NullDereference
             (SynchList.GetFirst checks_empty (sentMessages po));
    match mail with
    | Some mail => ReliableSend (pktHdr mail) (mailHdr mail) (data mail)
    | None => λ _, Undefined NullDereference
    end
  else λ po, Halted po.

(** [PostOffice::ReliableSend].  It calls [TimeOutHandler], which calls it
    back: [fuel] bounds the depth of these calls. *)
Fixpoint ReliableSend (fuel : nat) (pktHdr : PacketHeader.t)
    (mailHdr : MailHeader.t) (data : list byte) : M unit :=
  match fuel with
  | O => λ _, OutOfFuel
  | S fuel' =>
      len ← access OutOfBounds (CString.strlen data);
      if bool_decide (MaxMailSize < len)%nat then
        (if bool_decide (MaxMailSize - 1 = 0)%nat
         then λ _, Undefined DivisionByZero else mret ()) ;;
        let pieces := divRoundUp len (MaxMailSize - 1) in
        schedule_chunks pieces 0 (Z.of_nat pieces - 1) pktHdr mailHdr data ;;
        TimeOutHandler_with (ReliableSend fuel')
      else
        mail ← Mail_new pktHdr mailHdr None;
        d ← access OutOfBounds (CString.strncpy data MaxMailSize);
        let mail :=
          {| pktHdr := Post.pktHdr mail; mailHdr := Post.mailHdr mail; data := d;
             remainingParts := 0; attempts := attempts mail |} in
        sentMail ← FindMail mail;
        mail ← match sentMail with
               | None =>
                   let mail := set_attempts 1 mail in
                   modify (λ po, set_sentMessages
                                   (SynchList.Append mail (sentMessages po)) po) ;;
                   mret mail
               | Some sentMail =>
                   ASSERT (bool_decide (attempts sentMail ≤ MAXREEMISSIONS))
                          NetworkError ;;
                   increment_attempts_of_first ;;
                   mret (set_attempts (attempts sentMail + 1) sentMail)
               end;
        let mailHdr :=
          MailHeader.mk (MailHeader.to mailHdr) (MailHeader.from mailHdr)
                        (MailHeader.length mailHdr) (remainingParts mail) in
        Send pktHdr mailHdr data ;;
        Schedule_TimeOutHandler ;;
        Receive 1 (replicate MaxMailSize CString.NUL) ;;
        mret ()
  end.

Definition TimeOutHandler (fuel : nat) : M unit :=
  TimeOutHandler_with (ReliableSend fuel).

(** The interrupt simulator runs a scheduled [TimeOutHandler], if there is
    one. *)
Definition fire (fuel : nat) : M unit :=
  λ po, match timeouts po with
        | O => Ok () po
        | S n => TimeOutHandler fuel (set_timeouts n po)
        end.

(** The headers [ReliableReceive] fills in for its acknowledgement:
    [outPktHdr] (its [length] is left for [Send] to set) and [outMailHdr],
    whose [length] is [strlen (ack) + 1]. *)
Definition reply_pktHdr (pktHdr : PacketHeader.t) : PacketHeader.t :=
  PacketHeader.mk (PacketHeader.from pktHdr) (PacketHeader.to pktHdr) 0.

Definition reply_mailHdr (mailHdr : MailHeader.t) : MailHeader.t :=
  MailHeader.mk (MailHeader.from mailHdr) (MailHeader.to mailHdr)
                (length ack) 0.

(** [PostOffice::ReliableReceive]; [fuel] bounds the depth of the recursion.
    The result is what the four pointers hold on return. *)
Fixpoint ReliableReceive (fuel : nat) (box : Z) (out bigBuffer : list byte)
    : M (PacketHeader.t * MailHeader.t * list byte * list byte) :=
  match fuel with
  | O => λ _, OutOfFuel
  | S fuel' =>
      po ← get;
      ASSERT (bool_decide (0 ≤ box ∧ box < numBoxes po)) ReceiveBox ;;
      '(pktHdr, mailHdr, out) ← MailBox_Get (Z.to_nat box) out;
      bigBuffer ← access OutOfBounds (CString.strcat bigBuffer out);
      Send (reply_pktHdr pktHdr) (reply_mailHdr mailHdr) ack ;;
      '(pktHdr, mailHdr, out, bigBuffer) ←
        (if bool_decide (0 < MailHeader.remainingParts mailHdr)
         then ReliableReceive fuel' box out bigBuffer
         else mret (pktHdr, mailHdr, out, bigBuffer));
      ASSERT (bool_decide (MailHeader.length mailHdr ≤ MaxMailSize)%nat)
             ReceiveLength ;;
      mret (pktHdr, mailHdr, out, bigBuffer)
  end.

(** [msgs] put one after the other by one producer, and [n] successive
    [Get]s, each into a buffer like [out]. *)
Fixpoint Puts (box : nat)
    (msgs : list (PacketHeader.t * MailHeader.t * list byte)) : M unit :=
  match msgs with
  | [] => mret ()
  | (pktHdr, mailHdr, data) :: msgs' =>
      MailBox_Put box pktHdr mailHdr data ;; Puts box msgs'
  end.

Fixpoint Gets (box : nat) (n : nat) (out : list byte)
    : M (list (PacketHeader.t * MailHeader.t * list byte)) :=
  match n with
  | O => mret []
  | S n' =>
      r ← MailBox_Get box out;
      rs ← Gets box n' out;
      mret (r :: rs)
  end.

(** What [Get] hands back for a message that was [Put]: its headers, and the
    caller's buffer with the [length] data bytes copied to its front. *)
Definition delivered (out : list byte)
    (msg : PacketHeader.t * MailHeader.t * list byte)
    : PacketHeader.t * MailHeader.t * list byte :=
  let '(pktHdr, mailHdr, data) := msg in
  (pktHdr, mailHdr,
   take (MailHeader.length mailHdr) data ++ drop (MailHeader.length mailHdr) out).

Definition well_sized (out : list byte)
    (msg : PacketHeader.t * MailHeader.t * list byte) : Prop :=
  let '(_, mailHdr, data) := msg in
  (MailHeader.length mailHdr ≤ MaxMailSize)%nat
  ∧ (MailHeader.length mailHdr ≤ length data)%nat
  ∧ (MailHeader.length mailHdr ≤ length out)%nat.

(** The mail [Put] queues for a message. *)
Definition mail_of (msg : PacketHeader.t * MailHeader.t * list byte) : Mail :=
  let '(pktHdr, mailHdr, data) := msg in
  {| pktHdr := pktHdr; mailHdr := mailHdr;
     data := take (MailHeader.length mailHdr) data;
     remainingParts := 0; attempts := 0 |}.

(** The in-flight list after [Get] has taken [mail] out of a mailbox. *)
Definition acknowledge (mail : Mail) (inflight : list Mail) : list Mail :=
  match inflight with
  | [] => []
  | sentMessage :: rest =>
      if bool_decide (MailHeader.from (mailHdr sentMessage)
                      = MailHeader.to (mailHdr mail))
      then rest else sentMessage :: rest
  end.

(** The packet [Send] hands to the device. *)
Definition packet_of (po : PostOffice) (pktHdr : PacketHeader.t)
    (mailHdr : MailHeader.t) (data : list byte) : packet :=
  (PacketHeader.mk (PacketHeader.to pktHdr) (netAddr po)
     (MailHeader.length mailHdr + sizeofMailHeader),
   encodeMailHeader mailHdr ++ take (MailHeader.length mailHdr) data).

Definition with_remainingParts (r : Z) (mailHdr : MailHeader.t) : MailHeader.t :=
  MailHeader.mk (MailHeader.to mailHdr) (MailHeader.from mailHdr)
                (MailHeader.length mailHdr) r.

(** The post office as [Send] of one packet followed by the scheduling of the
    timeout leaves it. *)
Definition transmitted (p : packet) (po : PostOffice) : PostOffice :=
  set_timeouts (S (timeouts po)) (set_sent (sent po ++ [p]) po).

(** The post office as a call leaves it, when it returns or when its thread
    goes to sleep. *)
Definition after {A} (o : outcome A) : option PostOffice :=
  match o with
  | Ok _ po | Blocked _ po => Some po
  | _ => None
  end.

(** [n] timeouts in a row, with no packet arriving in between: each is run
    from the post office the previous one left; an abort ends the run. *)
Fixpoint fires (fuel n : nat) (po : PostOffice) : outcome unit :=
  match n with
  | O => Ok () po
  | S n' =>
      match after (fires fuel n' po) with
      | Some po' => fire fuel po'
      | None => fires fuel n' po
      end
  end.

(** An in-flight entry [ReliableSend] can send again: its copy of the text is
    terminated within the buffer and its mail header passes [Send]. *)
Definition resendable (po : PostOffice) (e : Mail) : Prop :=
  (∃ len, CString.strlen (data e) = Some len ∧ (len ≤ MaxMailSize)%nat)
  ∧ (MailHeader.length (mailHdr e) ≤ MaxMailSize)%nat
  ∧ (MailHeader.length (mailHdr e) ≤ length (data e))%nat
  ∧ 0 ≤ MailHeader.to (mailHdr e) < numBoxes po.

(** The packet that carries the in-flight entry [e]. *)
Definition packet_of_entry (po : PostOffice) (e : Mail) : packet :=
  packet_of po (pktHdr e)
    (with_remainingParts (remainingParts e) (mailHdr e)) (data e).

(** The post office [po], whose oldest in-flight entry is [e], after this
    entry has been sent [k] more times on timeouts. *)
Definition resent (k : nat) (e : Mail) (po : PostOffice) : PostOffice :=
  set_sent (sent po ++ replicate k (packet_of_entry po e))
    (set_sentMessages
       (set_attempts (attempts e + Z.of_nat k) e :: drop 1 (sentMessages po)) po).

(** The post office after [Get] has taken [mail] from the front of
    [boxes[box]], [messages] staying behind. *)
Definition got (box : nat) (mail : Mail) (messages : list Mail)
    (po : PostOffice) : PostOffice :=
  set_sentMessages (acknowledge mail (sentMessages po))
    (set_boxes (<[box := messages]> (boxes po)) po).

(** The acknowledgement packet [ReliableReceive] sends for [mail]. *)
Definition reply_packet (po : PostOffice) (mail : Mail) : packet :=
  packet_of po (reply_pktHdr (pktHdr mail)) (reply_mailHdr (mailHdr mail)) ack.

(** The data bytes of [mail] are the text [t] and its terminator, possibly
    followed by more bytes. *)
Definition carries (mail : Mail) (t : list byte) : Prop :=
  CString.text t
  ∧ ∃ r, take (MailHeader.length (mailHdr mail)) (data mail)
         = t ++ CString.NUL :: r.

(** What [ReliableReceive] needs to take [mail] out of [boxes[box]] into
    [out], to append its text to the accumulator and to acknowledge it. *)
Definition receivable (po : PostOffice) (box : Z) (out : list byte)
    (mail : Mail) : Prop :=
  0 ≤ box < numBoxes po
  ∧ (MailHeader.length (mailHdr mail) ≤ length (data mail))%nat
  ∧ (MailHeader.length (mailHdr mail) ≤ length out)%nat
  ∧ (length ack ≤ MaxMailSize)%nat
  ∧ 0 ≤ MailHeader.from (mailHdr mail) < numBoxes po.

(** The [i]-th piece of the text [s], [MaxMailSize - 1] characters or what is
    left of [s]. *)
Definition piece (s : list byte) (i : nat) : list byte :=
  take (MaxMailSize - 1) (drop (i * (MaxMailSize - 1)) s).

(** The in-flight entry the loop of [ReliableSend] makes of piece [i], with
    [r] fragments to come after it. *)
Definition chunk (pktHdr : PacketHeader.t) (mailHdr : MailHeader.t)
    (s : list byte) (i : nat) (r : Z) : Mail :=
  {| pktHdr := pktHdr;
     mailHdr := MailHeader.mk (MailHeader.to mailHdr) (MailHeader.from mailHdr)
                              MaxMailSize (MailHeader.remainingParts mailHdr);
     data := piece s i
               ++ replicate (MaxMailSize - length (piece s i)) CString.NUL;
     remainingParts := r;
     attempts := 0 |}.

(** The entries of pieces [i], [i + 1], ... ([count] of them), the first with
    [r] fragments to come. *)
Fixpoint chunks (pktHdr : PacketHeader.t) (mailHdr : MailHeader.t)
    (s : list byte) (count i : nat) (r : Z) : list Mail :=
  match count with
  | O => []
  | S count' =>
      chunk pktHdr mailHdr s i r :: chunks pktHdr mailHdr s count' (S i) (r - 1)
  end.

(** The mail the postal worker queues for the packet [p]. *)
Definition mail_of_packet (p : packet) : Mail :=
  {| pktHdr := p.1; mailHdr := decodeMailHeader p.2;
     data := take (MailHeader.length (decodeMailHeader p.2))
                  (drop sizeofMailHeader p.2);
     remainingParts := 0; attempts := 0 |}.

(** [n] turns of the postal worker. *)
Fixpoint deliveries (n : nat) : M unit :=
  match n with
  | O => mret ()
  | S n' => PostalDelivery ;; deliveries n'
  end.

(** A packet the postal worker accepts for [boxes[box]]. *)
Definition deliverable (po : PostOffice) (box : nat) (p : packet) : Prop :=
  0 ≤ MailHeader.to (decodeMailHeader p.2) < numBoxes po
  ∧ Z.to_nat (MailHeader.to (decodeMailHeader p.2)) = box
  ∧ (MailHeader.length (decodeMailHeader p.2) ≤ MaxMailSize)%nat
  ∧ (sizeofMailHeader + MailHeader.length (decodeMailHeader p.2)
     ≤ length p.2)%nat.

(** The mails of one fragmented message, as they queue up: every header but
    the last announces more fragments. *)
Inductive fragments : list Mail → Prop :=
| fragments_last m :
    MailHeader.remainingParts (mailHdr m) ≤ 0 → fragments [m]
| fragments_more m ms :
    0 < MailHeader.remainingParts (mailHdr m) → fragments ms →
    fragments (m :: ms).

(** The header of the packet that carries [e] is read back by the postal
    worker as it was written, from a buffer that holds it in
    [sizeof (MailHeader)] bytes in front of the data. *)
Definition reads_back (e : Mail) : Prop :=
  let h := with_remainingParts (remainingParts e) (mailHdr e) in
  decodeMailHeader (encodeMailHeader h ++ data e) = h
  ∧ length (encodeMailHeader h) = sizeofMailHeader.


(** [MailBox::isEmpty], on [boxes[box]]. *)
Definition MailBox_isEmpty (box : nat) : M bool :=
  messages ← box_at box;
  mret (SynchList.isEmpty messages).

(** A mail as [Mail::Mail] makes it from a message: its length passed the
    assertion and its buffer holds that many bytes of data. *)
Definition well_formed_mail (m : Mail) : Prop :=
  (MailHeader.length (mailHdr m) ≤ MaxMailSize)%nat
  ∧ length (data m) = MailHeader.length (mailHdr m).

(** The post office has the [numBoxes] mailboxes it was made with, and every
    mail that waits in a mailbox is as [Mail::Mail] makes it. *)
Definition consistent (po : PostOffice) : Prop :=
  0 ≤ numBoxes po
  ∧ length (boxes po) = Z.to_nat (numBoxes po)
  ∧ Forall (Forall well_formed_mail) (boxes po).



(** A packet the postal worker accepts: it passes the two assertions, and
    it holds the data bytes its mail header announces. *)
Definition acceptable (po : PostOffice) (p : packet) : Prop :=
  0 ≤ MailHeader.to (decodeMailHeader p.2) < numBoxes po
  ∧ (MailHeader.length (decodeMailHeader p.2) ≤ MaxMailSize)%nat
  ∧ (sizeofMailHeader + MailHeader.length (decodeMailHeader p.2)
     ≤ length p.2)%nat.

(** The packets among [ps] that are addressed to mailbox [box]. *)
Definition addressed_to (box : nat) (ps : list packet) : list packet :=
  filter (λ p, Z.to_nat (MailHeader.to (decodeMailHeader p.2)) = box) ps.

(** An acknowledgement [q] comes from the network while the sender is
    asleep in the [Receive (1, ...)] of [ReliableSend]: the postal worker
    takes the packet, the sender wakes up and leaves [Receive], and the
    timeout that was scheduled runs. *)
Definition acknowledged (fuel : nat) (q : packet) : M unit :=
  modify (λ po, set_arrived (arrived po ++ [q]) po) ;;
  PostalDelivery ;;
  Receive 1 (replicate MaxMailSize CString.NUL) ;;
  fire fuel.


(** ** Running the model *)

Ltac run_monad :=
  cbv [mbind M_bind mret M_ret get modify access wait_for box_at set_box];
  simpl.

Lemma set_sentMessages_same po l :
  sentMessages po = l → set_sentMessages l po = po.
Proof. intros <-. by destruct po. Qed.

Lemma bind_run {A B} (c : M A) (k : A → M B) po :
  (c ≫= k) po =
    match c po with
    | Ok a po' => k a po'
    | AssertFailed a => AssertFailed a
    | Undefined f => Undefined f
    | Blocked w po' => Blocked w po'
    | Halted po' => Halted po'
    | OutOfFuel => OutOfFuel
    end.
Proof. reflexivity. Qed.

Lemma ASSERT_true (P : Prop) `{Decision P} a po :
  P → ASSERT (bool_decide P) a po = Ok () po.
Proof. intros HP. unfold ASSERT. by rewrite bool_decide_eq_true_2. Qed.

Lemma ASSERT_false (P : Prop) `{Decision P} a po :
  ¬ P → ASSERT (bool_decide P) a po = AssertFailed a.
Proof. intros HP. unfold ASSERT. by rewrite bool_decide_eq_false_2. Qed.

Lemma memread_prefix (src : list byte) (n : nat) :
  (n ≤ length src)%nat → CString.memread src 0 n = Some (take n src).
Proof. intros Hn. unfold CString.memread. by rewrite decide_True by lia. Qed.

Lemma memread_prefix_None (src : list byte) (n : nat) :
  (length src < n)%nat → CString.memread src 0 n = None.
Proof. intros Hn. unfold CString.memread. by rewrite decide_False by lia. Qed.

(** ** The unreliable path *)

Lemma Send_run po pktHdr mailHdr data :
  (MailHeader.length mailHdr ≤ MaxMailSize)%nat →
  0 ≤ MailHeader.to mailHdr < numBoxes po →
  (MailHeader.length mailHdr ≤ length data)%nat →
  Send pktHdr mailHdr data po =
    Ok () (set_sent
             (sent po ++
                [(PacketHeader.mk (PacketHeader.to pktHdr) (netAddr po)
                    (MailHeader.length mailHdr + sizeofMailHeader),
                  encodeMailHeader mailHdr
                    ++ take (MailHeader.length mailHdr) data)]) po).
Proof.
  intros Hlen Hto Hdata. unfold Send.
  rewrite bind_run. simpl. rewrite bind_run, ASSERT_true by done.
  rewrite bind_run, ASSERT_true by done.
  rewrite bind_run, memread_prefix by done. reflexivity.
Qed.

Lemma Send_Ok_inv po pktHdr mailHdr data u po' :
  Send pktHdr mailHdr data po = Ok u po' →
  (MailHeader.length mailHdr ≤ MaxMailSize)%nat
  ∧ 0 ≤ MailHeader.to mailHdr < numBoxes po.
Proof.
  unfold Send. rewrite bind_run. simpl. rewrite bind_run.
  unfold ASSERT at 1. case_bool_decide; [|done].
  rewrite bind_run. unfold ASSERT at 1. case_bool_decide; [|done].
  intros _. split; [done|lia].
Qed.

Lemma Mail_new_run po pktH mailH (msgData : option (list byte)) :
  (MailHeader.length mailH ≤ MaxMailSize)%nat →
  (∀ src, msgData = Some src → (MailHeader.length mailH ≤ length src)%nat) →
  Mail_new pktH mailH msgData po =
    Ok {| pktHdr := pktH; mailHdr := mailH;
          data := match msgData with
                  | Some src => take (MailHeader.length mailH) src
                  | None => []
                  end;
          remainingParts := 0; attempts := 0 |} po.
Proof.
  intros Hlen Hsrc. unfold Mail_new.
  rewrite bind_run, ASSERT_true by done. rewrite bind_run.
  destruct msgData as [src|]; [|done].
  unfold access. by rewrite memread_prefix by (by apply Hsrc).
Qed.

Lemma Mail_new_too_long po pktH mailH msgData :
  (MaxMailSize < MailHeader.length mailH)%nat →
  Mail_new pktH mailH msgData po = AssertFailed MailLength.
Proof.
  intros Hlen. unfold Mail_new. by rewrite bind_run, ASSERT_false by lia.
Qed.

Lemma MailBox_Put_run po box pktHdr mailHdr data messages :
  (MailHeader.length mailHdr ≤ MaxMailSize)%nat →
  (MailHeader.length mailHdr ≤ length data)%nat →
  boxes po !! box = Some messages →
  MailBox_Put box pktHdr mailHdr data po =
    Ok () (set_boxes
             (<[box := messages ++
                  [{| pktHdr := pktHdr; mailHdr := mailHdr;
                      data := take (MailHeader.length mailHdr) data;
                      remainingParts := 0; attempts := 0 |}]]> (boxes po)) po).
Proof.
  intros Hlen Hdata Hbox. unfold MailBox_Put.
  rewrite bind_run, Mail_new_run; [|done|by intros ? [= <-]].
  rewrite bind_run. unfold box_at. rewrite bind_run. simpl.
  unfold access. by rewrite Hbox.
Qed.

Lemma PostalDelivery_run po pktHdr buffer rest messages :
  arrived po = (pktHdr, buffer) :: rest →
  let mailHdr := decodeMailHeader buffer in
  0 ≤ MailHeader.to mailHdr < numBoxes po →
  (MailHeader.length mailHdr ≤ MaxMailSize)%nat →
  (sizeofMailHeader + MailHeader.length mailHdr ≤ length buffer)%nat →
  boxes po !! Z.to_nat (MailHeader.to mailHdr) = Some messages →
  PostalDelivery po =
    Ok () (set_boxes
             (<[Z.to_nat (MailHeader.to mailHdr) := messages ++
                  [{| pktHdr := pktHdr; mailHdr := mailHdr;
                      data := take (MailHeader.length mailHdr)
                                   (drop sizeofMailHeader buffer);
                      remainingParts := 0; attempts := 0 |}]]> (boxes po))
             (set_arrived rest po)).
Proof.
  intros Harr mailHdr Hto Hlen Hbuf Hbox. unfold PostalDelivery.
  rewrite bind_run. simpl. rewrite bind_run.
  unfold network_Receive. rewrite Harr.
  rewrite bind_run, ASSERT_true by done.
  rewrite bind_run, ASSERT_true by done.
  subst mailHdr.
  apply (MailBox_Put_run (set_arrived rest po));
    [done|rewrite length_drop; lia|done].
Qed.

(** C6. [Send (pktHdr, mailHdr, data)] with [mailHdr.length <= MaxMailSize]
    and [0 <= mailHdr.to < numBoxes] hands the network device one packet: its
    buffer is the bytes of [mailHdr] followed by exactly [mailHdr.length]
    bytes of [data], and its header is [pktHdr] with [from] overwritten by
    [netAddr] and [length] by [mailHdr.length + sizeof (MailHeader)], whatever
    the caller had put in these two fields. *)
Theorem Send_hands_header_then_data po pktHdr mailHdr data :
  (MailHeader.length mailHdr ≤ MaxMailSize)%nat →
  0 ≤ MailHeader.to mailHdr < numBoxes po →
  (MailHeader.length mailHdr ≤ length data)%nat →
  ∃ po',
    Send pktHdr mailHdr data po = Ok () po'
    ∧ sent po' =
        sent po ++
          [(PacketHeader.mk (PacketHeader.to pktHdr) (netAddr po)
              (sizeofMailHeader + MailHeader.length mailHdr),
            encodeMailHeader mailHdr ++ take (MailHeader.length mailHdr) data)]
    ∧ length (take (MailHeader.length mailHdr) data) = MailHeader.length mailHdr
    ∧ ∀ from' length',
        Send (PacketHeader.mk (PacketHeader.to pktHdr) from' length')
             mailHdr data po = Ok () po'.
Proof.
  intros Hlen Hto Hdata. eexists. split; [by apply Send_run|].
  split; [|split].
  - simpl. by rewrite (Nat.add_comm sizeofMailHeader).
  - rewrite length_take. lia.
  - intros from' length'. by rewrite Send_run.
Qed.

(** C7. A protocol violation aborts the machine: [Send] asserts
    [mailHdr.length <= MaxMailSize] and [0 <= mailHdr.to < numBoxes] before
    it hands anything to the device, the postal worker asserts
    [0 <= mailHdr.to < numBoxes] and [mailHdr.length <= MaxMailSize] on the
    packet it took before it puts anything in a mailbox, and [Mail::Mail]
    asserts [mailH.length <= MaxMailSize]; when these hold the calls return,
    and a call that returned had them hold. *)
Theorem protocol_violations_are_fatal :
  (∀ po pktHdr mailHdr data,
      ((MaxMailSize < MailHeader.length mailHdr)%nat →
       Send pktHdr mailHdr data po = AssertFailed SendLength)
      ∧ ((MailHeader.length mailHdr ≤ MaxMailSize)%nat →
         ¬ (0 ≤ MailHeader.to mailHdr < numBoxes po) →
         Send pktHdr mailHdr data po = AssertFailed SendBox)
      ∧ ((MailHeader.length mailHdr ≤ MaxMailSize)%nat →
         0 ≤ MailHeader.to mailHdr < numBoxes po →
         (MailHeader.length mailHdr ≤ length data)%nat →
         ∃ po', Send pktHdr mailHdr data po = Ok () po')
      ∧ (∀ u po', Send pktHdr mailHdr data po = Ok u po' →
         (MailHeader.length mailHdr ≤ MaxMailSize)%nat
         ∧ 0 ≤ MailHeader.to mailHdr < numBoxes po))
  ∧ (∀ po pktHdr buffer rest,
      arrived po = (pktHdr, buffer) :: rest →
      let mailHdr := decodeMailHeader buffer in
      (¬ (0 ≤ MailHeader.to mailHdr < numBoxes po) →
       PostalDelivery po = AssertFailed DeliveryBox)
      ∧ (0 ≤ MailHeader.to mailHdr < numBoxes po →
         (MaxMailSize < MailHeader.length mailHdr)%nat →
         PostalDelivery po = AssertFailed DeliveryLength)
      ∧ (0 ≤ MailHeader.to mailHdr < numBoxes po →
         (MailHeader.length mailHdr ≤ MaxMailSize)%nat →
         (sizeofMailHeader + MailHeader.length mailHdr ≤ length buffer)%nat →
         length (boxes po) = Z.to_nat (numBoxes po) →
         ∃ po', PostalDelivery po = Ok () po'))
  ∧ (∀ po pktH mailH msgData,
      ((MaxMailSize < MailHeader.length mailH)%nat →
       Mail_new pktH mailH msgData po = AssertFailed MailLength)
      ∧ ((MailHeader.length mailH ≤ MaxMailSize)%nat →
         (∀ src, msgData = Some src →
                 (MailHeader.length mailH ≤ length src)%nat) →
         ∃ mail, Mail_new pktH mailH msgData po = Ok mail po)).
Proof.
  split; [|split].
  - intros po pktHdr mailHdr data. repeat split.
    + intros Hlen. unfold Send. rewrite bind_run. simpl.
      by rewrite bind_run, ASSERT_false by lia.
    + intros Hlen Hto. unfold Send. rewrite bind_run. simpl.
      rewrite bind_run, ASSERT_true by done.
      by rewrite bind_run, ASSERT_false by lia.
    + intros Hlen Hto Hdata. eexists. by apply Send_run.
    + eapply Send_Ok_inv; eauto.
    + eapply Send_Ok_inv; eauto.
    + eapply Send_Ok_inv; eauto.
  - intros po pktHdr buffer rest Harr mailHdr. repeat split.
    + intros Hto. unfold PostalDelivery. rewrite bind_run. simpl.
      rewrite bind_run. unfold network_Receive. rewrite Harr.
      by rewrite bind_run, ASSERT_false by (fold mailHdr; lia).
    + intros Hto Hlen. unfold PostalDelivery. rewrite bind_run. simpl.
      rewrite bind_run. unfold network_Receive. rewrite Harr.
      rewrite bind_run, ASSERT_true by done.
      by rewrite bind_run, ASSERT_false by (fold mailHdr; lia).
    + intros Hto Hlen Hbuf Hboxes.
      destruct (boxes po !! Z.to_nat (MailHeader.to mailHdr)) as [messages|] eqn:Hbox.
      * eexists. by eapply PostalDelivery_run.
      * apply lookup_ge_None in Hbox. lia.
  - intros po pktH mailH msgData. split.
    + by apply Mail_new_too_long.
    + intros Hlen Hsrc. eexists. by apply Mail_new_run.
Qed.

(** ** [MailBox::Get] *)

Lemma bcopy_run (src dst : list byte) (n : nat) :
  (n ≤ length src)%nat → (n ≤ length dst)%nat →
  CString.bcopy src dst n = Some (take n src ++ drop n dst).
Proof. intros ??. unfold CString.bcopy. by rewrite decide_True by done. Qed.

Lemma MailBox_Get_run po box out mail messages :
  boxes po !! box = Some (mail :: messages) →
  (checks_empty = true ∨ sentMessages po ≠ []) →
  (MailHeader.length (mailHdr mail) ≤ length (data mail))%nat →
  (MailHeader.length (mailHdr mail) ≤ length out)%nat →
  MailBox_Get box out po =
    Ok (pktHdr mail, mailHdr mail,
        take (MailHeader.length (mailHdr mail)) (data mail)
          ++ drop (MailHeader.length (mailHdr mail)) out)
       (set_sentMessages (acknowledge mail (sentMessages po))
          (set_boxes (<[box := messages]> (boxes po)) po)).
Proof.
  intros Hbox Hsent Hdata Hout. unfold MailBox_Get. run_monad.
  rewrite Hbox. simpl.
  destruct (sentMessages po) as [|e es] eqn:Hs; simpl.
  - destruct Hsent as [->|]; [|done]. simpl.
    rewrite bcopy_run by done. by rewrite set_sentMessages_same by apply Hs.
  - case_bool_decide; simpl; rewrite bcopy_run by done; [done|].
    by rewrite set_sentMessages_same by apply Hs.
Qed.

Lemma MailBox_Get_empty po box out :
  boxes po !! box = Some [] →
  MailBox_Get box out po = Blocked (MailboxEmpty box) po.
Proof.
  intros Hbox. unfold MailBox_Get.
  rewrite bind_run. unfold box_at at 1. rewrite bind_run. simpl.
  unfold access at 1. by rewrite Hbox.
Qed.

Lemma MailBox_Get_nothing_in_flight po box out mail messages :
  boxes po !! box = Some (mail :: messages) →
  checks_empty = false → sentMessages po = [] →
  MailBox_Get box out po = Undefined NullDereference.
Proof.
  intros Hbox Hchecks Hsent. unfold MailBox_Get. run_monad.
  rewrite Hbox. simpl. by rewrite Hsent, Hchecks.
Qed.

Lemma boxes_lookup_set po box (messages q : list Mail) :
  boxes po !! box = Some q →
  boxes (set_boxes (<[box := messages]> (boxes po)) po) !! box = Some messages.
Proof.
  intros Hbox. simpl. apply list_lookup_insert_eq.
  by eapply lookup_lt_Some.
Qed.

Lemma set_boxes_twice po box (m1 m2 : list Mail) :
  set_boxes
    (<[box := m2]> (boxes (set_boxes (<[box := m1]> (boxes po)) po)))
    (set_boxes (<[box := m1]> (boxes po)) po)
  = set_boxes (<[box := m2]> (boxes po)) po.
Proof. unfold set_boxes. simpl. by rewrite list_insert_insert_eq. Qed.

Lemma Puts_run msgs : ∀ po box out messages,
  boxes po !! box = Some messages →
  Forall (well_sized out) msgs →
  Puts box msgs po =
    Ok () (set_boxes (<[box := messages ++ (mail_of <$> msgs)]> (boxes po)) po).
Proof.
  induction msgs as [|[[pktHdr mailHdr] data] msgs IH];
    intros po box out messages Hbox Hsized; simpl.
  - rewrite app_nil_r, list_insert_id by done. by destruct po.
  - apply Forall_cons in Hsized as [(Hlen & Hdata & _) Hsized].
    rewrite bind_run, (MailBox_Put_run _ _ _ _ _ messages) by done.
    erewrite (IH _ box out); [|by eapply boxes_lookup_set|done].
    by rewrite set_boxes_twice, <- app_assoc.
Qed.

Lemma acknowledge_length mail (inflight : list Mail) :
  (length inflight ≤ S (length (acknowledge mail inflight)))%nat.
Proof.
  destruct inflight as [|e es]; simpl; [lia|]. case_bool_decide; simpl; lia.
Qed.

Lemma Gets_run msgs : ∀ po box out messages,
  boxes po !! box = Some ((mail_of <$> msgs) ++ messages) →
  Forall (well_sized out) msgs →
  (checks_empty = true ∨ (length msgs ≤ length (sentMessages po))%nat) →
  ∃ po', Gets box (length msgs) out po = Ok (delivered out <$> msgs) po'
         ∧ boxes po' !! box = Some messages.
Proof.
  induction msgs as [|[[pktHdr mailHdr] data] msgs IH];
    intros po box out messages Hbox Hsized Hsent.
  - by exists po.
  - apply Forall_cons in Hsized as [(Hlen & Hdata & Hout) Hsized].
    rewrite fmap_cons, <- app_comm_cons in Hbox.
    set (mail := mail_of (pktHdr, mailHdr, data)) in *.
    assert (checks_empty = true ∨ sentMessages po ≠ []) as Hne.
    { destruct Hsent as [?|Hsent]; [by left|right].
      simpl in Hsent. destruct (sentMessages po); [simpl in *; lia|done]. }
    assert (MailHeader.length (Post.mailHdr mail) ≤ length (Post.data mail))%nat
      as Hmail by (simpl; rewrite length_take; lia).
    pose proof (MailBox_Get_run po box out mail _ Hbox Hne Hmail Hout) as Hget.
    edestruct (IH (set_sentMessages (acknowledge mail (sentMessages po))
                     (set_boxes (<[box := (mail_of <$> msgs) ++ messages]>
                                   (boxes po)) po))
                  box out messages) as (po' & Hgets & Hbox').
    + simpl. apply list_lookup_insert_eq. by eapply lookup_lt_Some.
    + done.
    + destruct Hsent as [?|Hsent]; [by left|right].
      pose proof (acknowledge_length mail (sentMessages po)).
      simpl in *. lia.
    + exists po'. split; [|done].
      change (Gets box (length ((pktHdr, mailHdr, data) :: msgs)) out)
        with (r ← MailBox_Get box out;
              rs ← Gets box (length msgs) out;
              mret (r :: rs)).
      rewrite bind_run, Hget, bind_run, Hgets.
      unfold mret, M_ret. rewrite fmap_cons. do 3 f_equal. simpl.
      by rewrite take_take, Nat.min_id.
Qed.

(** C2 (as the code has it). When [Get] takes a message out of a mailbox
    while the in-flight list is not empty, the oldest in-flight entry is
    removed exactly when the mailbox it was sent from ([mailHdr.from] of the
    entry) is the mailbox the message was sent to ([mailHdr.to] of the
    message); only this entry is looked at and every other entry stays. *)
Theorem Get_acknowledges_oldest_entry po box out mail messages sentMessage rest :
  boxes po !! box = Some (mail :: messages) →
  sentMessages po = sentMessage :: rest →
  (MailHeader.length (mailHdr mail) ≤ length (data mail))%nat →
  (MailHeader.length (mailHdr mail) ≤ length out)%nat →
  ∃ r po',
    MailBox_Get box out po = Ok r po'
    ∧ (MailHeader.from (mailHdr sentMessage) = MailHeader.to (mailHdr mail) →
       sentMessages po' = rest)
    ∧ (MailHeader.from (mailHdr sentMessage) ≠ MailHeader.to (mailHdr mail) →
       sentMessages po' = sentMessage :: rest).
Proof.
  intros Hbox Hsent Hdata Hout.
  do 2 eexists. split.
  - apply MailBox_Get_run; try done. right. by rewrite Hsent.
  - simpl. rewrite Hsent. simpl.
    split; intros Heq; [by rewrite bool_decide_eq_true_2|
                        by rewrite bool_decide_eq_false_2].
Qed.

(** X26 (the part of C8 that holds). Messages put into one mailbox by one
    producer queue up in the order they were put.  If [Get]'s call of
    [GetFirst] on the in-flight list returns at every [Get] (as many entries
    as messages are in flight, each [Get] taking at most one off the list,
    or [SynchList::GetFirst] yields NULL on an empty list), the messages come
    out of successive [Get]s in that order, with their headers and data
    bytes, and the mailbox is empty afterwards.  With nothing in flight and a
    [GetFirst] that is [List::GetFirst], the first [Get] ends in the NULL
    dereference.  Underneath, [List::Append] links the new cell after the
    last one and [List::Remove] unlinks the first one, which is what the
    queue of the mailbox needs of them. *)
Theorem mailbox_is_fifo po box out msgs :
  boxes po !! box = Some [] →
  Forall (well_sized out) msgs →
  (∃ po1,
      Puts box msgs po = Ok () po1
      ∧ boxes po1 !! box = Some (mail_of <$> msgs)
      ∧ (checks_empty = true ∨ (length msgs ≤ length (sentMessages po))%nat →
         ∃ po2,
           Gets box (length msgs) out po1 = Ok (delivered out <$> msgs) po2
           ∧ MailBox_Get box out po2 = Blocked (MailboxEmpty box) po2)
      ∧ (checks_empty = false → sentMessages po = [] → msgs ≠ [] →
         Gets box (length msgs) out po1 = Undefined NullDereference))
  ∧ (∀ (L : LinkedList.List Mail) xs x,
        LinkedList.is_list L xs →
        ∃ L', LinkedList.Append x L = Some L'
              ∧ LinkedList.is_list L' (SynchList.Append x xs))
  ∧ (∀ (L : LinkedList.List Mail) x xs,
        LinkedList.is_list L (x :: xs) →
        ∃ L', LinkedList.Remove L = Some (Some x, L')
              ∧ LinkedList.is_list L' xs
              ∧ SynchList.Remove (x :: xs) = Some (x, xs)).
Proof.
  intros Hbox Hsized. split; [|split].
  - set (po1 := set_boxes (<[box := [] ++ (mail_of <$> msgs)]> (boxes po)) po).
    assert (boxes po1 !! box = Some (mail_of <$> msgs)) as Hbox1.
    { simpl. apply list_lookup_insert_eq. by eapply lookup_lt_Some. }
    exists po1. split; [by eapply Puts_run|]. split; [exact Hbox1|]. split.
    + intros Hsent.
      edestruct (Gets_run msgs po1 box out []) as (po2 & Hgets & Hbox2).
      { by rewrite app_nil_r. }
      { done. }
      { done. }
      exists po2. split; [done|]. by apply MailBox_Get_empty.
    + intros Hchecks Hnone Hmsgs.
      destruct msgs as [|msg msgs']; [done|].
      cbn [length Gets]. rewrite bind_run.
      by rewrite (MailBox_Get_nothing_in_flight po1 box out (mail_of msg)
                    (mail_of <$> msgs')).
  - intros L xs x HL. by apply LinkedList.Append_spec.
  - intros L x xs HL.
    destruct (LinkedList.Remove_cons _ _ _ HL) as (L' & HR & HL').
    by exists L'.
Qed.

(** ** The reliable path, one mail *)

Lemma FindMail_run mail po :
  FindMail mail po = Ok (head (sentMessages po)) po.
Proof.
  unfold FindMail. run_monad. by destruct (sentMessages po).
Qed.

Lemma Receive_1_waits po out :
  1 < numBoxes po → boxes po !! 1%nat = Some [] →
  Receive 1 out po = Blocked (MailboxEmpty 1) po.
Proof.
  intros Hn Hbox. unfold Receive. rewrite bind_run. simpl.
  rewrite bind_run, ASSERT_true by lia.
  rewrite bind_run.
  change (Z.to_nat 1) with 1%nat. by rewrite MailBox_Get_empty.
Qed.

Lemma ReliableSend_single fuel po pktHdr mailHdr data len :
  CString.strlen data = Some len → (len ≤ MaxMailSize)%nat →
  (MailHeader.length mailHdr ≤ MaxMailSize)%nat →
  0 ≤ MailHeader.to mailHdr < numBoxes po →
  (MailHeader.length mailHdr ≤ length data)%nat →
  1 < numBoxes po → boxes po !! 1%nat = Some [] →
  ∃ d, CString.strncpy data MaxMailSize = Some d ∧
  ReliableSend (S fuel) pktHdr mailHdr data po =
    match sentMessages po with
    | [] =>
        Blocked (MailboxEmpty 1)
          (transmitted (packet_of po pktHdr (with_remainingParts 0 mailHdr) data)
             (set_sentMessages [mkMail pktHdr mailHdr d 0 1] po))
    | sentMail :: rest =>
        if bool_decide (attempts sentMail ≤ MAXREEMISSIONS) then
          Blocked (MailboxEmpty 1)
            (transmitted
               (packet_of po pktHdr
                  (with_remainingParts (remainingParts sentMail) mailHdr) data)
               (set_sentMessages
                  (set_attempts (attempts sentMail + 1) sentMail :: rest) po))
        else AssertFailed NetworkError
    end.
Proof.
  intros Hstrlen Hlen Hmail Hto Hdata Hboxes Hbox1.
  destruct (CString.strlen_inv _ _ Hstrlen) as (s & rest & -> & Hs & <-).
  rewrite (CString.strncpy_text s rest) by done.
  eexists. split; [done|].
  cbn [ReliableSend]. rewrite bind_run. unfold access at 1. rewrite Hstrlen.
  rewrite bool_decide_eq_false_2 by lia.
  rewrite bind_run, Mail_new_run by done. cbn [Post.pktHdr Post.mailHdr Post.attempts].
  rewrite bind_run. unfold access at 1.
  rewrite (CString.strncpy_text s rest) by done.
  rewrite bind_run, FindMail_run.
  destruct (sentMessages po) as [|sentMail others] eqn:Hsent; cbn [head].
  - run_monad. rewrite Hsent.
    rewrite Send_run by done.
    rewrite Receive_1_waits by done. done.
  - rewrite bind_run. rewrite bind_run. unfold ASSERT at 1.
    case_bool_decide; [|done].
    unfold increment_attempts_of_first. run_monad. rewrite Hsent.
    rewrite Send_run by done.
    rewrite Receive_1_waits by done. done.
Qed.

(** ** The timeout handler *)

Lemma TimeOutHandler_empty fuel po :
  sentMessages po = [] → TimeOutHandler fuel po = Halted po.
Proof.
  intros Hsent. unfold TimeOutHandler, TimeOutHandler_with. run_monad.
  by rewrite Hsent.
Qed.

Lemma TimeOutHandler_nonempty fuel po e es :
  sentMessages po = e :: es →
  TimeOutHandler fuel po = ReliableSend fuel (pktHdr e) (mailHdr e) (data e) po.
Proof.
  intros Hsent. unfold TimeOutHandler, TimeOutHandler_with. run_monad.
  by rewrite Hsent.
Qed.

Lemma TimeOutHandler_resends fuel po e es :
  sentMessages po = e :: es → resendable po e →
  1 < numBoxes po → boxes po !! 1%nat = Some [] →
  TimeOutHandler (S fuel) po =
    if bool_decide (attempts e ≤ MAXREEMISSIONS) then
      Blocked (MailboxEmpty 1)
        (transmitted (packet_of_entry po e)
           (set_sentMessages (set_attempts (attempts e + 1) e :: es) po))
    else AssertFailed NetworkError.
Proof.
  intros Hsent ((len & Hstrlen & Hlen) & Hmail & Hdata & Hto) Hboxes Hbox1.
  rewrite (TimeOutHandler_nonempty _ _ _ _ Hsent).
  destruct (ReliableSend_single fuel po (pktHdr e) (mailHdr e) (data e) len)
    as (d & _ & ->); try done.
  by rewrite Hsent.
Qed.

Lemma fire_resends fuel po t e es :
  timeouts po = S t →
  sentMessages po = e :: es → resendable po e →
  1 < numBoxes po → boxes po !! 1%nat = Some [] →
  fire (S fuel) po =
    if bool_decide (attempts e ≤ MAXREEMISSIONS) then
      Blocked (MailboxEmpty 1)
        (set_timeouts (S t)
           (set_sent (sent po ++ [packet_of_entry po e])
              (set_sentMessages (set_attempts (attempts e + 1) e :: es) po)))
    else AssertFailed NetworkError.
Proof.
  intros Ht Hsent Hok Hboxes Hbox1. unfold fire. rewrite Ht.
  by rewrite (TimeOutHandler_resends _ _ e es).
Qed.

Lemma resent_0 e es po :
  sentMessages po = e :: es → resent 0 e po = po.
Proof.
  intros Hsent. unfold resent. rewrite Hsent. simpl.
  rewrite app_nil_r, Z.add_0_r.
  destruct po, e; simpl in *. by rewrite Hsent.
Qed.

Lemma resendable_resent k e po :
  resendable po e →
  resendable (resent k e po) (set_attempts (attempts e + Z.of_nat k) e).
Proof. done. Qed.

(** [k] timeouts while the oldest entry stays unacknowledged. *)
Lemma fires_resend fuel po e es :
  timeouts po = 1%nat →
  sentMessages po = e :: es → resendable po e →
  1 < numBoxes po → boxes po !! 1%nat = Some [] →
  ∀ k, attempts e + Z.of_nat k ≤ MAXREEMISSIONS + 1 →
       after (fires (S fuel) k po) = Some (resent k e po).
Proof.
  intros Ht Hsent Hok Hboxes Hbox1. induction k as [|k IH]; intros Hk.
  - simpl. by rewrite (resent_0 e es).
  - cbn [fires]. rewrite IH by lia.
    rewrite (fire_resends fuel (resent k e po) 0
               (set_attempts (attempts e + Z.of_nat k) e) es); try done.
    + rewrite bool_decide_eq_true_2 by (simpl; lia). simpl. f_equal.
      unfold resent, set_timeouts, set_sent, set_sentMessages. simpl.
      rewrite Ht, Hsent. simpl. f_equal.
      * rewrite drop_0. f_equal. unfold set_attempts. simpl. f_equal. lia.
      * rewrite <- app_assoc. f_equal.
        change (packet_of_entry po e :: replicate k (packet_of_entry po e))
          with (replicate (S k) (packet_of_entry po e)).
        by rewrite replicate_S_end.
    + simpl. by rewrite Hsent.
Qed.


(** C4 (as the code has it). Before it transmits, the one-mail branch of
    [ReliableSend] asks [FindMail] for an entry, and [FindMail] answers with
    the oldest in-flight entry whenever there is one, whatever mailbox that
    entry was sent to.  On an empty list a fresh entry with [attempts = 1] is
    appended; otherwise nothing is inserted, the oldest entry has its
    attempts incremented and lends its fragment counter to the packet, unless
    its attempts already exceed [MAXREEMISSIONS], which is fatal. *)
Theorem single_send_reuses_oldest_entry fuel po pktHdr mailHdr data len :
  CString.strlen data = Some len → (len ≤ MaxMailSize)%nat →
  (MailHeader.length mailHdr ≤ MaxMailSize)%nat →
  (MailHeader.length mailHdr ≤ length data)%nat →
  0 ≤ MailHeader.to mailHdr < numBoxes po →
  1 < numBoxes po → boxes po !! 1%nat = Some [] →
  (sentMessages po = [] →
   ∃ po' e,
     ReliableSend (S fuel) pktHdr mailHdr data po = Blocked (MailboxEmpty 1) po'
     ∧ sentMessages po' = [e]
     ∧ attempts e = 1 ∧ remainingParts e = 0
     ∧ Post.pktHdr e = pktHdr ∧ Post.mailHdr e = mailHdr
     ∧ CString.strncpy data MaxMailSize = Some (Post.data e))
  ∧ (∀ sentMail rest,
       sentMessages po = sentMail :: rest →
       (attempts sentMail ≤ MAXREEMISSIONS →
        ∃ po',
          ReliableSend (S fuel) pktHdr mailHdr data po
            = Blocked (MailboxEmpty 1) po'
          ∧ sentMessages po'
            = set_attempts (attempts sentMail + 1) sentMail :: rest
          ∧ sent po' =
              sent po ++
                [packet_of po pktHdr
                   (with_remainingParts (remainingParts sentMail) mailHdr)
                   data])
       ∧ (MAXREEMISSIONS < attempts sentMail →
          ReliableSend (S fuel) pktHdr mailHdr data po
            = AssertFailed NetworkError)).
Proof.
  intros Hstrlen Hlen Hmail Hdata Hto Hboxes Hbox1.
  destruct (ReliableSend_single fuel po pktHdr mailHdr data len)
    as (d & Hd & Hrun); try done.
  split.
  - intros Hsent. rewrite Hsent in Hrun.
    eexists _, _. split; [exact Hrun|]. by repeat split.
  - intros sentMail rest Hsent. rewrite Hsent in Hrun. split.
    + intros Hle. rewrite bool_decide_eq_true_2 in Hrun by done.
      eexists. split; [exact Hrun|]. by split.
    + intros Hgt. by rewrite bool_decide_eq_false_2 in Hrun by lia.
Qed.

(** C5 (as the code has it). When the timeout handler runs on an empty
    in-flight list it sends nothing and halts the machine.  On a list whose
    oldest entry has not used up its attempts it counts one more attempt,
    hands the packet of that entry to [Send] and schedules itself again; when
    the attempts of the oldest entry exceed [MAXREEMISSIONS] it ends in the
    network-error assertion instead. *)
Theorem TimeOutHandler_resends_or_halts fuel po :
  (sentMessages po = [] → TimeOutHandler (S fuel) po = Halted po)
  ∧ (∀ e es,
       sentMessages po = e :: es → resendable po e →
       1 < numBoxes po → boxes po !! 1%nat = Some [] →
       (attempts e ≤ MAXREEMISSIONS →
        ∃ po',
          TimeOutHandler (S fuel) po = Blocked (MailboxEmpty 1) po'
          ∧ sent po' = sent po ++ [packet_of_entry po e]
          ∧ timeouts po' = S (timeouts po)
          ∧ sentMessages po' = set_attempts (attempts e + 1) e :: es)
       ∧ (MAXREEMISSIONS < attempts e →
          TimeOutHandler (S fuel) po = AssertFailed NetworkError)).
Proof.
  split; [apply TimeOutHandler_empty|].
  intros e es Hsent Hok Hboxes Hbox1.
  rewrite (TimeOutHandler_resends fuel po e es) by done. split.
  - intros Hle. rewrite bool_decide_eq_true_2 by done.
    eexists. split; [done|]. by repeat split.
  - intros Hgt. by rewrite bool_decide_eq_false_2 by lia.
Qed.

(** ** [ReliableReceive] *)

Lemma ReliableReceive_nothing_in_flight fuel po box out bigBuffer mail
    messages :
  0 ≤ box < numBoxes po →
  boxes po !! Z.to_nat box = Some (mail :: messages) →
  checks_empty = false → sentMessages po = [] →
  ReliableReceive (S fuel) box out bigBuffer po = Undefined NullDereference.
Proof.
  intros Hbox Hmail Hchecks Hsent. cbn [ReliableReceive].
  rewrite bind_run. simpl. rewrite bind_run, ASSERT_true by done.
  rewrite bind_run.
  by rewrite (MailBox_Get_nothing_in_flight po _ out mail messages).
Qed.

Lemma ReliableReceive_step fuel po box out a resta mail messages t :
  boxes po !! Z.to_nat box = Some (mail :: messages) →
  (checks_empty = true ∨ sentMessages po ≠ []) →
  receivable po box out mail → carries mail t →
  CString.text a →
  (length a + length t + 1 ≤ length (a ++ CString.NUL :: resta))%nat →
  let out' := take (MailHeader.length (mailHdr mail)) (data mail)
                ++ drop (MailHeader.length (mailHdr mail)) out in
  let big' := (a ++ t) ++ CString.NUL :: drop (length t) resta in
  let po' := set_sent (sent po ++ [reply_packet po mail])
               (got (Z.to_nat box) mail messages po) in
  ReliableReceive (S fuel) box out (a ++ CString.NUL :: resta) po =
    if bool_decide (0 < MailHeader.remainingParts (mailHdr mail)) then
      ('(pktHdr, mailHdr, out, bigBuffer) ← ReliableReceive fuel box out' big';
       ASSERT (bool_decide (MailHeader.length mailHdr ≤ MaxMailSize)%nat)
              ReceiveLength ;;
       mret (pktHdr, mailHdr, out, bigBuffer)) po'
    else
      (ASSERT (bool_decide (MailHeader.length (mailHdr mail) ≤ MaxMailSize)%nat)
              ReceiveLength ;;
       mret (pktHdr mail, mailHdr mail, out', big')) po'.
Proof.
  intros Hbox Hsent (Hb & Hdata & Hout & Hack & Hfrom) (Ht & r & Hcarry) Ha Hfit.
  intros out' big' po'.
  cbn [ReliableReceive]. rewrite bind_run. simpl.
  rewrite bind_run, ASSERT_true by done.
  rewrite bind_run, (MailBox_Get_run _ _ _ mail messages) by done.
  fold out'. rewrite bind_run. unfold access at 1.
  assert (out' = t ++ CString.NUL :: (r ++ drop (MailHeader.length (mailHdr mail)) out))
    as Hout'.
  { unfold out'. rewrite Hcarry. by rewrite <- app_assoc. }
  rewrite Hout' at 1. rewrite CString.strcat_text by done. fold big'.
  rewrite bind_run.
  rewrite Send_run; [|done|done|done].
  fold (got (Z.to_nat box) mail messages po).
  change (set_sent _ (got (Z.to_nat box) mail messages po)) with po'.
  case_bool_decide; reflexivity.
Qed.

Lemma ReliableReceive_last fuel po box out a resta mail messages t :
  boxes po !! Z.to_nat box = Some (mail :: messages) →
  (checks_empty = true ∨ sentMessages po ≠ []) →
  receivable po box out mail → carries mail t →
  CString.text a →
  (length a + length t + 1 ≤ length (a ++ CString.NUL :: resta))%nat →
  MailHeader.remainingParts (mailHdr mail) ≤ 0 →
  (MailHeader.length (mailHdr mail) ≤ MaxMailSize)%nat →
  ReliableReceive (S fuel) box out (a ++ CString.NUL :: resta) po =
    Ok (pktHdr mail, mailHdr mail,
        take (MailHeader.length (mailHdr mail)) (data mail)
          ++ drop (MailHeader.length (mailHdr mail)) out,
        (a ++ t) ++ CString.NUL :: drop (length t) resta)
       (set_sent (sent po ++ [reply_packet po mail])
          (got (Z.to_nat box) mail messages po)).
Proof.
  intros Hbox Hsent Hrecv Hcarry Ha Hfit Hlast Hlen.
  rewrite (ReliableReceive_step fuel po box out a resta mail messages t)
    by done.
  rewrite bool_decide_eq_false_2 by lia.
  by rewrite bind_run, ASSERT_true by done.
Qed.


(** ** The reliable path, an oversized text *)



Lemma divRoundUp_covers n d : (0 < d)%nat → (n ≤ divRoundUp n d * d)%nat.
Proof.
  intros Hd. unfold divRoundUp.
  pose proof (Nat.div_mod_eq n d) as Hdiv.
  pose proof (Nat.mod_upper_bound n d) as Hmod.
  destruct (0 <? n `mod` d)%nat eqn:Hlt.
  - nia.
  - apply Nat.ltb_ge in Hlt. nia.
Qed.

Lemma divRoundUp_tight n d :
  (0 < d)%nat → (0 < n)%nat → ((divRoundUp n d - 1) * d < n)%nat.
Proof.
  intros Hd Hn. unfold divRoundUp.
  pose proof (Nat.div_mod_eq n d) as Hdiv.
  pose proof (Nat.mod_upper_bound n d) as Hmod.
  destruct (0 <? n `mod` d)%nat eqn:Hlt.
  - apply Nat.ltb_lt in Hlt. nia.
  - apply Nat.ltb_ge in Hlt. nia.
Qed.

Lemma pieces_concat s k :
  concat (piece s <$> seq 0 k) = take (k * (MaxMailSize - 1)) s.
Proof.
  induction k as [|k IH]; [done|].
  rewrite seq_S, fmap_app, concat_app, IH. simpl.
  rewrite app_nil_r. unfold piece. rewrite take_take_drop. f_equal. lia.
Qed.

Lemma length_piece s i : (length (piece s i) ≤ MaxMailSize - 1)%nat.
Proof. unfold piece. rewrite length_take. lia. Qed.


Lemma length_chunks pktHdr mailHdr s count : ∀ i r,
  length (chunks pktHdr mailHdr s count i r) = count.
Proof.
  induction count as [|count IH]; intros i r; simpl; [done|]. by rewrite IH.
Qed.


Lemma chunk_data pktHdr mailHdr s i r :
  CString.text s → (1 ≤ MaxMailSize)%nat →
  let e := chunk pktHdr mailHdr s i r in
  CString.strlen (data e) = Some (length (piece s i))
  ∧ CString.chars (data e) = piece s i
  ∧ length (data e) = MaxMailSize.
Proof.
  intros Hs HM e. pose proof (length_piece s i) as Hlen.
  assert (CString.text (piece s i)) as Hp
    by (by apply CString.text_take, CString.text_drop).
  unfold e, chunk. cbn [data].
  destruct (MaxMailSize - length (piece s i))%nat as [|k] eqn:Hk; [lia|].
  change (replicate (S k) CString.NUL) with (CString.NUL :: replicate k CString.NUL).
  rewrite CString.strlen_text, CString.chars_text by done.
  repeat split. rewrite length_app. simpl. rewrite length_replicate. lia.
Qed.





(** ** Delivery and reassembly of the fragments *)

Lemma deliveries_run ps : ∀ po box rest messages,
  arrived po = ps ++ rest →
  Forall (deliverable po box) ps →
  boxes po !! box = Some messages →
  deliveries (length ps) po =
    Ok () (set_boxes
             (<[box := messages ++ (mail_of_packet <$> ps)]> (boxes po))
             (set_arrived rest po)).
Proof.
  induction ps as [|[pktHdr buffer] ps IH]; intros po box rest messages
    Harr Hok Hbox.
  - simpl in *. rewrite app_nil_r, list_insert_id by done.
    unfold mret, M_ret. f_equal. destruct po; simpl in *. by rewrite Harr.
  - apply Forall_cons in Hok as [(Hto & <- & Hlen & Hbuf) Hok].
    cbn [deliveries length]. rewrite bind_run.
    rewrite (PostalDelivery_run po pktHdr buffer (ps ++ rest) messages)
      by done.
    rewrite (IH _ (Z.to_nat (MailHeader.to (decodeMailHeader buffer))) rest
               (messages ++ [mail_of_packet (pktHdr, buffer)])).
    + unfold set_boxes, set_arrived. simpl.
      by rewrite list_insert_insert_eq, <- app_assoc.
    + done.
    + done.
    + simpl. apply list_lookup_insert_eq. by eapply lookup_lt_Some.
Qed.

Lemma receivable_after po po' box out out' mail :
  numBoxes po' = numBoxes po → length out' = length out →
  receivable po box out mail → receivable po' box out' mail.
Proof.
  intros Hn Hout (Hb & Hdata & Hlen & Hack & Hfrom).
  unfold receivable. rewrite Hn, Hout. done.
Qed.

(** [ReliableReceive] takes the fragments one after the other and appends
    their texts to the accumulator. *)
Lemma ReliableReceive_all fuel box ms :
  fragments ms →
  ∀ texts po out a resta messages,
    Forall2 carries ms texts →
    boxes po !! Z.to_nat box = Some (ms ++ messages) →
    (checks_empty = true ∨ (length ms ≤ length (sentMessages po))%nat) →
    Forall (receivable po box out) ms →
    Forall (λ m, (MailHeader.length (mailHdr m) ≤ MaxMailSize)%nat) ms →
    CString.text a →
    (length (concat texts) ≤ length resta)%nat →
    ∃ pktHdr mailHdr out' po',
      ReliableReceive (length ms + fuel) box out (a ++ CString.NUL :: resta) po
      = Ok (pktHdr, mailHdr, out',
            (a ++ concat texts)
              ++ CString.NUL :: drop (length (concat texts)) resta) po'
      ∧ Some mailHdr = Post.mailHdr <$> last ms
      ∧ sent po' = sent po ++ (reply_packet po <$> ms)
      ∧ boxes po' !! Z.to_nat box = Some messages.
Proof.
  induction 1 as [m Hlast|m ms Hmore Hfrag IH];
    intros texts po out a resta messages Hcarry Hbox Hsent Hrecv Hlen Ha Hfit.
  - apply Forall2_cons_inv_l in Hcarry as (t & texts' & Ht & Hnil & ->).
    apply Forall2_nil_inv_l in Hnil as ->.
    apply Forall_cons in Hrecv as [Hrecv _].
    apply Forall_cons in Hlen as [Hlen _].
    simpl in Hfit. rewrite app_nil_r in Hfit.
    cbn [concat length Nat.add]. rewrite !app_nil_r.
    eexists _, _, _, _. split.
    + apply (ReliableReceive_last _ po box out a resta m messages t);
        try done.
      * destruct Hsent as [?|Hsent]; [by left|right].
        destruct (sentMessages po); [simpl in *; lia|done].
      * rewrite length_app. simpl. lia.
    + split; [done|]. split; [done|]. simpl.
      apply list_lookup_insert_eq. by eapply lookup_lt_Some.
  - apply Forall2_cons_inv_l in Hcarry as (t & texts' & Ht & Hcarry & ->).
    apply Forall_cons in Hrecv as [Hrecv Hrecvs].
    apply Forall_cons in Hlen as [Hlen Hlens].
    simpl in Hfit. rewrite length_app in Hfit.
    assert (checks_empty = true ∨ sentMessages po ≠ []) as Hne.
    { destruct Hsent as [?|Hsent]; [by left|right].
      destruct (sentMessages po); [simpl in *; lia|done]. }
    pose proof (ReliableReceive_step (length ms + fuel) po box out a resta m
                  (ms ++ messages) t Hbox Hne Hrecv Ht Ha) as Hstep.
    cbv zeta in Hstep.
    rewrite bool_decide_eq_true_2 in Hstep by done.
    set (out1 := take _ _ ++ drop _ out) in Hstep.
    set (po1 := set_sent _ _) in Hstep.
    assert (length out1 = length out) as Hout1.
    { destruct Hrecv as (_ & Hd & Ho & _). unfold out1.
      rewrite length_app, length_take, length_drop. lia. }
    destruct (IH texts' po1 out1 (a ++ t) (drop (length t) resta) messages)
      as (pktHdr & mailHdr & out' & po' & Hrun & Hhdr & Hsent' & Hbox');
      try done.
    + simpl. apply list_lookup_insert_eq. by eapply lookup_lt_Some.
    + destruct Hsent as [?|Hsent]; [by left|right].
      pose proof (acknowledge_length m (sentMessages po)). simpl in *. lia.
    + eapply Forall_impl; [exact Hrecvs|]. intros m' Hm'.
      by apply (receivable_after po po1 box out out1).
    + apply CString.text_app. split; [done|]. by destruct Ht.
    + rewrite length_drop. lia.
    + exists pktHdr, mailHdr, out', po'. split; [|split; [|split]].
      * change (length (m :: ms) + fuel)%nat with (S (length ms + fuel)).
        rewrite Hstep; [|rewrite length_app; simpl; lia].
        rewrite bind_run, Hrun.
        rewrite bind_run, ASSERT_true.
        -- unfold mret, M_ret. simpl. do 2 f_equal.
           by rewrite <- !app_assoc, drop_drop, length_app.
        -- destruct (last ms) as [mlast|] eqn:Hl; [|done].
           injection Hhdr as ->.
           apply last_Some_elem_of in Hl.
           by eapply (proj1 (Forall_forall _ _) Hlens).
      * rewrite Hhdr. by destruct ms; [inversion Hfrag|].
      * rewrite Hsent'. simpl. by rewrite <- app_assoc.
      * done.
Qed.

Lemma packet_of_chunk po pktHdr mailHdr s i r :
  CString.text s → (1 ≤ MaxMailSize)%nat →
  let e := chunk pktHdr mailHdr s i r in
  packet_of_entry po e =
    (PacketHeader.mk (PacketHeader.to pktHdr) (netAddr po)
       (MaxMailSize + sizeofMailHeader),
     encodeMailHeader (with_remainingParts r (Post.mailHdr e)) ++ data e).
Proof.
  intros Hs HM e.
  destruct (chunk_data pktHdr mailHdr s i r Hs HM) as (_ & _ & Hsize).
  unfold packet_of_entry, packet_of. subst e. simpl in *.
  by rewrite take_ge by lia.
Qed.

Lemma mail_of_chunk_packet po pktHdr mailHdr s i r :
  CString.text s → (1 ≤ MaxMailSize)%nat →
  let e := chunk pktHdr mailHdr s i r in
  reads_back e →
  mail_of_packet (packet_of_entry po e) =
    {| pktHdr := PacketHeader.mk (PacketHeader.to pktHdr) (netAddr po)
                   (MaxMailSize + sizeofMailHeader);
       mailHdr := with_remainingParts r (Post.mailHdr e);
       data := data e; remainingParts := 0; attempts := 0 |}.
Proof.
  intros Hs HM e [Hdec Hsize].
  destruct (chunk_data pktHdr mailHdr s i r Hs HM) as (_ & _ & Hdata).
  subst e. rewrite packet_of_chunk by done.
  unfold mail_of_packet. cbn [fst snd].
  cbn [Post.remainingParts Post.mailHdr chunk] in Hdec, Hsize.
  cbn [Post.mailHdr chunk]. rewrite Hdec.
  f_equal. rewrite drop_app_length' by done.
  apply take_ge. cbn [MailHeader.length with_remainingParts]. lia.
Qed.

(** The mail the peer's postal worker makes of the packet of one chunk. *)
Lemma chunk_arrives po peer box out pktHdr mailHdr s i r :
  CString.text s → (1 ≤ MaxMailSize)%nat →
  0 ≤ box < numBoxes peer →
  0 ≤ MailHeader.from mailHdr < numBoxes peer →
  (length ack ≤ MaxMailSize)%nat → (MaxMailSize ≤ length out)%nat →
  reads_back (chunk pktHdr mailHdr s i r) →
  let m := mail_of_packet (packet_of_entry po (chunk pktHdr mailHdr s i r)) in
  MailHeader.remainingParts (Post.mailHdr m) = r
  ∧ carries m (piece s i)
  ∧ receivable peer box out m
  ∧ (MailHeader.length (Post.mailHdr m) ≤ MaxMailSize)%nat.
Proof.
  intros Hs HM Hbox Hfrom Hack Hout Hback m. subst m.
  rewrite mail_of_chunk_packet by done.
  destruct (chunk_data pktHdr mailHdr s i r Hs HM) as (_ & _ & Hsize).
  pose proof (length_piece s i) as Hp.
  simpl in *. split; [done|]. split; [|split; [|done]].
  - split; [by apply CString.text_take, CString.text_drop|]. simpl.
    rewrite take_ge by lia.
    destruct (MaxMailSize - length (piece s i))%nat as [|k] eqn:Hk; [lia|].
    by exists (replicate k CString.NUL).
  - unfold receivable. simpl. rewrite Hsize. done.
Qed.

(** The mails the peer's postal worker makes of the packets of the chunks. *)
Lemma chunks_arrive_as_fragments po peer box out pktHdr mailHdr s count :
  CString.text s → (1 ≤ MaxMailSize)%nat →
  0 ≤ box < numBoxes peer →
  0 ≤ MailHeader.from mailHdr < numBoxes peer →
  (length ack ≤ MaxMailSize)%nat → (MaxMailSize ≤ length out)%nat →
  ∀ i,
    let entries := chunks pktHdr mailHdr s (S count) i (Z.of_nat count) in
    let ms := mail_of_packet <$> (packet_of_entry po <$> entries) in
    Forall reads_back entries →
    fragments ms
    ∧ Forall2 carries ms (piece s <$> seq i (S count))
    ∧ Forall (receivable peer box out) ms
    ∧ Forall (λ m, (MailHeader.length (Post.mailHdr m) ≤ MaxMailSize)%nat) ms.
Proof.
  intros Hs HM Hbox Hfrom Hack Hout.
  induction count as [|count IH]; intros i entries ms Hback.
  - subst ms entries. cbn [chunks fmap list_fmap] in *.
    apply Forall_cons in Hback as [Hback _].
    destruct (chunk_arrives po peer box out pktHdr mailHdr s i (Z.of_nat 0))
      as (Hr & Hcarry & Hrecv & Hlen); try done.
    split; [apply fragments_last; lia|].
    split; [constructor; [done|constructor]|].
    split; (constructor; [done|constructor]).
  - subst ms entries.
    change (chunks pktHdr mailHdr s (S (S count)) i (Z.of_nat (S count)))
      with (chunk pktHdr mailHdr s i (Z.of_nat (S count))
              :: chunks pktHdr mailHdr s (S count) (S i)
                   (Z.of_nat (S count) - 1)) in *.
    replace (Z.of_nat (S count) - 1) with (Z.of_nat count) in * by lia.
    apply Forall_cons in Hback as [Hback Hbacks].
    destruct (IH (S i) Hbacks) as (Hfrags & Hcarries & Hrecvs & Hlens).
    destruct (chunk_arrives po peer box out pktHdr mailHdr s i
                (Z.of_nat (S count)))
      as (Hr & Hcarry & Hrecv & Hlen); try done.
    rewrite !fmap_cons.
    split; [apply fragments_more; [lia|done]|].
    split; [by constructor|]. by split; constructor.
Qed.

Lemma chunk_packets_deliverable po peer pktHdr mailHdr s count :
  CString.text s → (1 ≤ MaxMailSize)%nat →
  0 ≤ MailHeader.to mailHdr < numBoxes peer →
  ∀ i r,
    Forall reads_back (chunks pktHdr mailHdr s count i r) →
    Forall (deliverable peer (Z.to_nat (MailHeader.to mailHdr)))
           (packet_of_entry po <$> chunks pktHdr mailHdr s count i r).
Proof.
  intros Hs HM Hbox.
  induction count as [|n IH]; intros i r Hback; [constructor|].
  cbn [chunks] in *. apply Forall_cons in Hback as [[Hdec Hsize] Hback].
  rewrite fmap_cons. constructor; [|by apply IH].
  destruct (chunk_data pktHdr mailHdr s i r Hs HM) as (_ & _ & Hd).
  unfold deliverable. rewrite packet_of_chunk by done.
  cbn [snd]. cbn [Post.remainingParts chunk] in Hdec, Hsize.
  rewrite Hdec, length_app, Hsize, Hd. simpl.
  repeat split; (done || lia).
Qed.


(** X2 (the part of C1 above the boundary, peer).  The packets of the chunks,
    delivered to the peer in order and once each: its postal worker queues
    them in the mailbox they are addressed to.  If [Get]'s call of
    [GetFirst] on the in-flight list of the peer returns for every fragment
    (as many entries as fragments are in flight there, each [Get] taking at
    most one off the list, or [SynchList::GetFirst] yields NULL on an empty
    list), [ReliableReceive] on that mailbox takes the fragments one after
    the other, calling itself while the header it received announces more
    fragments, acknowledges each, and leaves the text in the accumulator.
    With nothing in flight at the peer and a [GetFirst] that is
    [List::GetFirst], it ends in the NULL dereference at the first
    fragment. *)
Theorem fragments_are_reassembled fuel po peer pktHdr mailHdr s out resta later :
  CString.text s → (MaxMailSize < length s)%nat → (2 ≤ MaxMailSize)%nat →
  let pieces := divRoundUp (length s) (MaxMailSize - 1) in
  let entries := chunks pktHdr mailHdr s pieces 0 (Z.of_nat pieces - 1) in
  let box := MailHeader.to mailHdr in
  arrived peer = (packet_of_entry po <$> entries) ++ later →
  Forall reads_back entries →
  0 ≤ box < numBoxes peer → boxes peer !! Z.to_nat box = Some [] →
  0 ≤ MailHeader.from mailHdr < numBoxes peer →
  (length ack ≤ MaxMailSize)%nat → (MaxMailSize ≤ length out)%nat →
  (length s ≤ length resta)%nat →
  ∃ peer1,
    deliveries pieces peer = Ok () peer1
    ∧ (checks_empty = true ∨ (pieces ≤ length (sentMessages peer))%nat →
       ∃ pktHdr' mailHdr' out' bigBuffer peer2,
         ReliableReceive (pieces + fuel) box out (CString.NUL :: resta) peer1
         = Ok (pktHdr', mailHdr', out', bigBuffer) peer2
         ∧ CString.chars bigBuffer = s
         ∧ length (sent peer2) = (length (sent peer) + pieces)%nat
         ∧ boxes peer2 !! Z.to_nat box = Some [])
    ∧ (checks_empty = false → sentMessages peer = [] →
       ReliableReceive (pieces + fuel) box out (CString.NUL :: resta) peer1
       = Undefined NullDereference).
Proof.
  intros Hs Hlong HM pieces entries box Harr Hback Hbox Hempty Hfrom
    Hack Hout Hfit.
  pose proof (divRoundUp_tight (length s) (MaxMailSize - 1)) as Htight.
  pose proof (divRoundUp_covers (length s) (MaxMailSize - 1)) as Hcover.
  fold pieces in Htight, Hcover.
  assert (concat (piece s <$> seq 0 pieces) = s) as Hconcat
    by (rewrite pieces_concat; apply take_ge; lia).
  assert (0 < pieces)%nat as Hpos by lia.
  subst entries. clearbody pieces. clear Htight Hcover.
  destruct pieces as [|count]; [lia|].
  replace (Z.of_nat (S count) - 1) with (Z.of_nat count) in * by lia.
  set (entries := chunks pktHdr mailHdr s (S count) 0 (Z.of_nat count)) in *.
  set (ms := mail_of_packet <$> (packet_of_entry po <$> entries)).
  destruct (chunks_arrive_as_fragments po peer box out pktHdr mailHdr s count
              Hs ltac:(lia) Hbox Hfrom Hack Hout 0%nat Hback)
    as (Hfrags & Hcarries & Hrecvs & Hlens).
  fold entries in Hfrags, Hcarries, Hrecvs, Hlens.
  fold ms in Hfrags, Hcarries, Hrecvs, Hlens.
  assert (length entries = S count) as Hentries by apply length_chunks.
  assert (length ms = S count) as Hms
    by (unfold ms; by rewrite !length_fmap).
  (* the postal worker *)
  assert (Forall (deliverable peer (Z.to_nat box))
            (packet_of_entry po <$> entries)) as Hok
    by (by apply chunk_packets_deliverable; [|lia| |]).
  pose proof (deliveries_run (packet_of_entry po <$> entries) peer
                (Z.to_nat box) later [] Harr Hok Hempty) as Hdeliver.
  rewrite length_fmap, Hentries in Hdeliver.
  fold ms in Hdeliver. rewrite app_nil_l in Hdeliver.
  set (peer1 := set_boxes (<[Z.to_nat box := ms]> (boxes peer))
                  (set_arrived later peer)) in *.
  assert (boxes peer1 !! Z.to_nat box = Some ms) as Hbox1.
  { simpl. apply list_lookup_insert_eq. by eapply lookup_lt_Some. }
  exists peer1. split; [exact Hdeliver|]. split.
  2:{ intros Hchecks Hnone. destruct ms as [|m ms']; [done|].
      by apply (ReliableReceive_nothing_in_flight _ peer1 _ out _ m ms'). }
  intros Hsent.
  (* the receiver *)
  destruct (ReliableReceive_all fuel box ms Hfrags
              (piece s <$> seq 0 (S count)) peer1
              out [] resta []) as (p & h & o & peer2 & Hrun & _ & Hsent2 & Hbox2).
  { done. }
  { by rewrite app_nil_r. }
  { destruct Hsent as [?|Hsent]; [by left|right]. rewrite Hms. simpl. lia. }
  { eapply Forall_impl; [exact Hrecvs|]. intros m Hm.
    by apply (receivable_after peer _ box out out). }
  { done. }
  { constructor. }
  { rewrite Hconcat. done. }
  rewrite Hms in Hrun. rewrite Hconcat in Hrun.
  exists p, h, o. eexists _, peer2.
  split; [exact Hrun|].
  split; [by apply CString.chars_text|].
  split; [|done].
  rewrite Hsent2, length_app, length_fmap, Hms. done.
Qed.

(** ** What every operation keeps *)

Lemma consistent_set_sent l po : consistent (set_sent l po) ↔ consistent po.
Proof. done. Qed.

Lemma consistent_set_arrived l po :
  consistent (set_arrived l po) ↔ consistent po.
Proof. done. Qed.

Lemma consistent_set_timeouts n po :
  consistent (set_timeouts n po) ↔ consistent po.
Proof. done. Qed.

Lemma consistent_set_sentMessages l po :
  consistent (set_sentMessages l po) ↔ consistent po.
Proof. done. Qed.

Lemma consistent_set_box po box (messages : list Mail) :
  consistent po → Forall well_formed_mail messages →
  consistent (set_boxes (<[box := messages]> (boxes po)) po).
Proof.
  intros (Hn & Hlen & Hboxes) Hmessages. split; [done|]. split; simpl.
  - by rewrite length_insert.
  - apply Forall_insert; done.
Qed.

Lemma consistent_lookup po box (messages : list Mail) :
  consistent po → boxes po !! box = Some messages →
  Forall well_formed_mail messages.
Proof.
  intros (_ & _ & Hboxes) Hbox.
  by apply (proj1 (Forall_lookup _ _) Hboxes box).
Qed.

Lemma consistent_box po box :
  consistent po → 0 ≤ box < numBoxes po →
  ∃ messages, boxes po !! Z.to_nat box = Some messages
              ∧ Forall well_formed_mail messages.
Proof.
  intros Hpo Hbox. pose proof Hpo as (Hn & Hlen & Hboxes).
  destruct (boxes po !! Z.to_nat box) as [messages|] eqn:Hmessages.
  - exists messages. split; [done|]. by eapply consistent_lookup.
  - apply lookup_ge_None in Hmessages. lia.
Qed.
























(** ** [Receive] *)

Lemma Receive_run po box out mail messages :
  0 ≤ box < numBoxes po →
  boxes po !! Z.to_nat box = Some (mail :: messages) →
  (checks_empty = true ∨ sentMessages po ≠ []) →
  (MailHeader.length (mailHdr mail) ≤ length (data mail))%nat →
  (MailHeader.length (mailHdr mail) ≤ length out)%nat →
  (MailHeader.length (mailHdr mail) ≤ MaxMailSize)%nat →
  Receive box out po =
    Ok (pktHdr mail, mailHdr mail,
        take (MailHeader.length (mailHdr mail)) (data mail)
          ++ drop (MailHeader.length (mailHdr mail)) out)
       (got (Z.to_nat box) mail messages po).
Proof.
  intros Hbox Hmail Hsent Hdata Hout Hlen. unfold Receive.
  rewrite bind_run. simpl. rewrite bind_run, ASSERT_true by done.
  rewrite bind_run, (MailBox_Get_run _ _ _ mail messages) by done.
  by rewrite bind_run, ASSERT_true by done.
Qed.

Lemma Receive_empty po box out :
  0 ≤ box < numBoxes po → boxes po !! Z.to_nat box = Some [] →
  Receive box out po = Blocked (MailboxEmpty (Z.to_nat box)) po.
Proof.
  intros Hbox Hmail. unfold Receive.
  rewrite bind_run. simpl. rewrite bind_run, ASSERT_true by done.
  by rewrite bind_run, MailBox_Get_empty.
Qed.

Lemma Receive_out_of_range po box out :
  ¬ (0 ≤ box < numBoxes po) → Receive box out po = AssertFailed ReceiveBox.
Proof.
  intros Hbox. unfold Receive.
  rewrite bind_run. simpl. by rewrite bind_run, ASSERT_false by lia.
Qed.

Lemma Receive_nothing_in_flight po box out mail messages :
  0 ≤ box < numBoxes po →
  boxes po !! Z.to_nat box = Some (mail :: messages) →
  checks_empty = false → sentMessages po = [] →
  Receive box out po = Undefined NullDereference.
Proof.
  intros Hbox Hmail Hchecks Hsent. unfold Receive.
  rewrite bind_run. simpl. rewrite bind_run, ASSERT_true by done.
  rewrite bind_run. unfold MailBox_Get. run_monad.
  rewrite Hmail. simpl. by rewrite Hsent, Hchecks.
Qed.

(** X15. [Receive] on a consistent post office, into a buffer of
    [MaxMailSize] bytes or more.  A [box] out of range fails the first
    assertion.  On an empty mailbox the caller waits and nothing changes.
    Otherwise the oldest mail of the mailbox is handed over, headers and
    data, and leaves the mailbox; the closing assertion on its length cannot
    fail and no mailbox or buffer is accessed out of bounds.  The one fault
    left is that of [Get]'s call of [GetFirst] with nothing in flight. *)
Theorem Receive_on_consistent_office po box out :
  consistent po → (MaxMailSize ≤ length out)%nat →
  (¬ (0 ≤ box < numBoxes po) →
   Receive box out po = AssertFailed ReceiveBox)
  ∧ (0 ≤ box < numBoxes po →
     ∃ messages,
       boxes po !! Z.to_nat box = Some messages
       ∧ MailBox_isEmpty (Z.to_nat box) po
         = Ok (bool_decide (messages = [])) po
       ∧ match messages with
         | [] =>
             Receive box out po = Blocked (MailboxEmpty (Z.to_nat box)) po
         | mail :: rest =>
             (checks_empty = true ∨ sentMessages po ≠ [] →
              ∃ po',
                Receive box out po
                = Ok (pktHdr mail, mailHdr mail,
                      data mail ++ drop (length (data mail)) out) po'
                ∧ boxes po' !! Z.to_nat box = Some rest
                ∧ sentMessages po' = acknowledge mail (sentMessages po)
                ∧ consistent po')
             ∧ (checks_empty = false → sentMessages po = [] →
                Receive box out po = Undefined NullDereference)
         end).
Proof.
  intros Hpo Hout. split; [apply Receive_out_of_range|].
  intros Hbox. destruct (consistent_box po box Hpo Hbox) as (messages & Hmail & Hwf).
  exists messages. split; [done|]. split.
  { unfold MailBox_isEmpty. run_monad. rewrite Hmail. simpl.
    by destruct messages. }
  destruct messages as [|mail rest]; [by apply Receive_empty|].
  apply Forall_cons in Hwf as [[Hlen Hdata] Hrest]. split.
  - intros Hsent. eexists. split; [|split; [|split]].
    + rewrite (Receive_run po box out mail rest) by (done || lia).
      by rewrite <- Hdata, take_ge by lia.
    + simpl. apply list_lookup_insert_eq. by eapply lookup_lt_Some.
    + done.
    + apply consistent_set_sentMessages. by apply consistent_set_box.
  - intros Hchecks Hnone.
    by apply (Receive_nothing_in_flight po box out mail rest).
Qed.

(** ** From [Send] on one machine to [Receive] on another *)

Lemma take_take_same {T} (n : nat) (l : list T) : take n (take n l) = take n l.
Proof. by rewrite take_take, Nat.min_id. Qed.

(** X16. A message handed to [Send] on one machine, carried by the network
    to another machine, is put in its mailbox by the postal worker there.
    [Receive] on that mailbox then takes it out, and hands it over if [Get]'s
    call of [GetFirst] on the in-flight list of the receiving machine
    returns, which it does when an entry is in flight there or when
    [SynchList::GetFirst] yields NULL on an empty list: the mailbox header as
    sent, the [length] data bytes as sent, and a packet header that names the
    sending machine, whatever the caller of [Send] had written in it.  With
    nothing in flight there and a [GetFirst] that is [List::GetFirst], the
    call ends in the NULL dereference instead. *)
Theorem Send_PostalDelivery_Receive sender receiver pktHdr mailHdr data out :
  (MailHeader.length mailHdr ≤ MaxMailSize)%nat →
  (MailHeader.length mailHdr ≤ length data)%nat →
  0 ≤ MailHeader.to mailHdr < numBoxes sender →
  0 ≤ MailHeader.to mailHdr < numBoxes receiver →
  boxes receiver !! Z.to_nat (MailHeader.to mailHdr) = Some [] →
  decodeMailHeader
    (encodeMailHeader mailHdr ++ take (MailHeader.length mailHdr) data)
    = mailHdr →
  length (encodeMailHeader mailHdr) = sizeofMailHeader →
  (MailHeader.length mailHdr ≤ length out)%nat →
  ∃ sender1 p receiver1 pktHdr',
    Send pktHdr mailHdr data sender = Ok () sender1
    ∧ sent sender1 = sent sender ++ [p]
    ∧ PostalDelivery (set_arrived [p] receiver) = Ok () receiver1
    ∧ PacketHeader.from pktHdr' = netAddr sender
    ∧ PacketHeader.to pktHdr' = PacketHeader.to pktHdr
    ∧ (checks_empty = true ∨ sentMessages receiver ≠ [] →
       ∃ receiver2,
         Receive (MailHeader.to mailHdr) out receiver1
         = Ok (pktHdr', mailHdr,
               take (MailHeader.length mailHdr) data
                 ++ drop (MailHeader.length mailHdr) out) receiver2
         ∧ boxes receiver2 !! Z.to_nat (MailHeader.to mailHdr) = Some [])
    ∧ (checks_empty = false → sentMessages receiver = [] →
       Receive (MailHeader.to mailHdr) out receiver1
       = Undefined NullDereference).
Proof.
  intros Hlen Hdata Hto_s Hto_r Hbox Hdec Hsize Hout.
  set (p := (PacketHeader.mk (PacketHeader.to pktHdr) (netAddr sender)
               (MailHeader.length mailHdr + sizeofMailHeader),
             encodeMailHeader mailHdr
               ++ take (MailHeader.length mailHdr) data)).
  pose proof (PostalDelivery_run (set_arrived [p] receiver) p.1 p.2 [] [])
    as Hdeliver.
  cbv zeta in Hdeliver. cbn [fst snd p] in Hdeliver. rewrite Hdec in Hdeliver.
  specialize (Hdeliver eq_refl Hto_r Hlen).
  rewrite length_app, Hsize, length_take, drop_app_length' in Hdeliver by done.
  rewrite take_take_same in Hdeliver.
  specialize (Hdeliver ltac:(lia) Hbox). simpl app in Hdeliver.
  set (mail := {| pktHdr := p.1; mailHdr := mailHdr;
                  data := take (MailHeader.length mailHdr) data;
                  remainingParts := 0; attempts := 0 |}) in *.
  set (receiver1 := set_boxes _ _) in Hdeliver.
  assert (boxes receiver1 !! Z.to_nat (MailHeader.to mailHdr) = Some [mail])
    as Hbox1.
  { simpl. apply list_lookup_insert_eq. by eapply lookup_lt_Some. }
  exists (set_sent (sent sender ++ [p]) sender), p, receiver1, p.1.
  split; [by apply Send_run|].
  split; [done|]. split; [exact Hdeliver|]. split; [done|]. split; [done|].
  split.
  - intros Hsent. eexists. split.
    + rewrite (Receive_run receiver1 _ out mail []); try done.
      * subst mail. cbn [Post.pktHdr Post.mailHdr Post.data].
        by rewrite take_take_same.
      * simpl. rewrite length_take. lia.
    + simpl. rewrite list_insert_insert_eq.
      apply list_lookup_insert_eq. by eapply lookup_lt_Some.
  - intros Hchecks Hnone.
    by apply (Receive_nothing_in_flight receiver1 _ out mail []).
Qed.

(** ** The postal worker and the mailboxes *)

Lemma addressed_to_cons box p (ps : list packet) :
  addressed_to box (p :: ps)
  = if decide (Z.to_nat (MailHeader.to (decodeMailHeader p.2)) = box)
    then p :: addressed_to box ps else addressed_to box ps.
Proof. unfold addressed_to. by rewrite filter_cons. Qed.

Lemma deliveries_by_mailbox ps : ∀ po rest,
  arrived po = ps ++ rest →
  length (boxes po) = Z.to_nat (numBoxes po) →
  Forall (acceptable po) ps →
  ∃ po',
    deliveries (length ps) po = Ok () po'
    ∧ arrived po' = rest ∧ numBoxes po' = numBoxes po
    ∧ netAddr po' = netAddr po
    ∧ sentMessages po' = sentMessages po ∧ sent po' = sent po
    ∧ ∀ box messages,
        boxes po !! box = Some messages →
        boxes po' !! box
        = Some (messages ++ (mail_of_packet <$> addressed_to box ps)).
Proof.
  induction ps as [|[pktHdr buffer] ps IH]; intros po rest Harr Hboxes Hok.
  - exists po. repeat split; try done.
    intros box messages Hbox. by rewrite app_nil_r.
  - apply Forall_cons in Hok as [(Hto & Hlen & Hbuf) Hok]. simpl in Hto, Hlen, Hbuf.
    set (to := Z.to_nat (MailHeader.to (decodeMailHeader buffer))).
    destruct (boxes po !! to) as [old|] eqn:Hold.
    2:{ apply lookup_ge_None in Hold. unfold to in Hold. lia. }
    pose proof (PostalDelivery_run po pktHdr buffer (ps ++ rest) old Harr
                  Hto Hlen Hbuf Hold) as Hrun.
    fold to in Hrun.
    set (po1 := set_boxes _ (set_arrived (ps ++ rest) po)) in Hrun.
    destruct (IH po1 rest)
      as (po' & Hruns & Harr' & Hn & Haddr & Hs & Hsent & Hbox');
      [done|simpl; by rewrite length_insert|exact Hok|].
    exists po'. cbn [deliveries length]. rewrite bind_run, Hrun.
    split; [exact Hruns|]. repeat split; try done.
    intros box messages Hbox. rewrite addressed_to_cons. simpl.
    fold to. destruct (decide (to = box)) as [<-|Hne].
    + rewrite Hold in Hbox. injection Hbox as <-.
      rewrite (Hbox' to (old ++ [mail_of_packet (pktHdr, buffer)])).
      * by rewrite fmap_cons, <- app_assoc.
      * simpl. apply list_lookup_insert_eq. by eapply lookup_lt_Some.
    + apply Hbox'. simpl. by rewrite list_lookup_insert_ne.
Qed.

(** X17. The postal worker, given packets that pass its two assertions and
    hold the bytes their mail header announces, as the packets [Send] makes
    do, puts each one in the mailbox its mail header names and in no other:
    after it has taken them all, every mailbox holds what it held before
    followed by the mails of the packets addressed to it, in the order they
    arrived; nothing is sent and the in-flight list is not touched. *)
Theorem PostalDelivery_sorts_by_mailbox po ps rest :
  arrived po = ps ++ rest →
  length (boxes po) = Z.to_nat (numBoxes po) →
  Forall (acceptable po) ps →
  ∃ po',
    deliveries (length ps) po = Ok () po'
    ∧ arrived po' = rest
    ∧ sentMessages po' = sentMessages po ∧ sent po' = sent po
    ∧ ∀ box messages,
        boxes po !! box = Some messages →
        boxes po' !! box
        = Some (messages ++ (mail_of_packet <$> addressed_to box ps)).
Proof.
  intros Harr Hboxes Hok.
  destruct (deliveries_by_mailbox ps po rest Harr Hboxes Hok)
    as (po' & Hrun & Harr' & _ & _ & Hs & Hsent & Hbox).
  by exists po'.
Qed.

(** ** A short text, sent reliably and acknowledged *)

Lemma take_text_terminated (s rest : list byte) n :
  (length s < n)%nat →
  take n (s ++ CString.NUL :: rest)
  = s ++ CString.NUL :: take (n - length s - 1) rest.
Proof.
  intros Hn. rewrite take_app_ge by lia.
  destruct (n - length s)%nat as [|k] eqn:Hk; [lia|].
  simpl. by rewrite Nat.sub_0_r.
Qed.

Lemma fire_halts fuel po t :
  timeouts po = S t → sentMessages po = [] →
  fire (S fuel) po = Halted (set_timeouts t po).
Proof.
  intros Ht Hsent. unfold fire. rewrite Ht.
  by apply TimeOutHandler_empty.
Qed.

(** X18. A text shorter than [MaxMailSize], sent with [ReliableSend] from
    mailbox 1 while nothing is in flight: the sender records it and waits in
    mailbox 1, and the postal worker of the peer puts the packet in the
    mailbox it names.  If [Get]'s call of [GetFirst] on the in-flight list
    of the peer returns (an entry is in flight there, or
    [SynchList::GetFirst] yields NULL on an empty list), the peer's
    [ReliableReceive] leaves the text in the accumulator and acknowledges it
    once; the acknowledgement, put in mailbox 1 of the sender, wakes the
    sender up, and on its way out of the mailbox it takes the entry off the
    in-flight list; the timeout that was scheduled then finds nothing in
    flight, sends nothing and halts the machine.  With nothing in flight at
    the peer and a [GetFirst] that is [List::GetFirst], the peer's
    [ReliableReceive] ends in the NULL dereference and nothing is
    acknowledged. *)
Theorem short_text_is_acknowledged fuel sender peer pktHdr mailHdr s rest
    out resta :
  let data := s ++ CString.NUL :: rest in
  let h := with_remainingParts 0 mailHdr in
  (* the text and its headers *)
  CString.text s → (length s < MaxMailSize)%nat →
  (length s < MailHeader.length mailHdr)%nat →
  (MailHeader.length mailHdr ≤ MaxMailSize)%nat →
  (MailHeader.length mailHdr ≤ length data)%nat →
  MailHeader.from mailHdr = 1 →
  (* the sender *)
  sentMessages sender = [] → timeouts sender = 0%nat →
  1 < numBoxes sender → boxes sender !! 1%nat = Some [] →
  0 ≤ MailHeader.to mailHdr < numBoxes sender →
  (* the peer *)
  0 ≤ MailHeader.to mailHdr < numBoxes peer → 1 < numBoxes peer →
  boxes peer !! Z.to_nat (MailHeader.to mailHdr) = Some [] →
  (MailHeader.length mailHdr ≤ length out)%nat →
  (length s ≤ length resta)%nat →
  (length ack ≤ MaxMailSize)%nat →
  (* the headers as bytes *)
  decodeMailHeader
    (encodeMailHeader h ++ take (MailHeader.length mailHdr) data) = h →
  length (encodeMailHeader h) = sizeofMailHeader →
  decodeMailHeader (encodeMailHeader (reply_mailHdr h) ++ ack)
    = reply_mailHdr h →
  length (encodeMailHeader (reply_mailHdr h)) = sizeofMailHeader →
  ∃ sender1 p peer1,
    ReliableSend (S fuel) pktHdr mailHdr data sender
      = Blocked (MailboxEmpty 1) sender1
    ∧ sent sender1 = sent sender ++ [p]
    ∧ length (sentMessages sender1) = 1%nat
    ∧ PostalDelivery (set_arrived [p] peer) = Ok () peer1
    ∧ (checks_empty = true ∨ sentMessages peer ≠ [] →
       ∃ r bigBuffer peer2 q sender2 a sender3,
         ReliableReceive (S fuel) (MailHeader.to mailHdr) out
           (CString.NUL :: resta) peer1
         = Ok (r, bigBuffer) peer2
         ∧ CString.chars bigBuffer = s
         ∧ sent peer2 = sent peer ++ [q]
         ∧ PostalDelivery (set_arrived [q] sender1) = Ok () sender2
         ∧ Receive 1 (replicate MaxMailSize CString.NUL) sender2 = Ok a sender3
         ∧ sentMessages sender3 = []
         ∧ sent sender3 = sent sender ++ [p]
         ∧ fire (S fuel) sender3 = Halted (set_timeouts 0 sender3))
    ∧ (checks_empty = false → sentMessages peer = [] →
       ReliableReceive (S fuel) (MailHeader.to mailHdr) out
         (CString.NUL :: resta) peer1
       = Undefined NullDereference).
Proof.
  intros data h Hs Hshort Hterm Hlen Hdata Hfrom.
  intros Hsent Htimeouts Hboxes Hbox1 Hto.
  intros Hto_peer Hboxes_peer Hbox_peer Hout Hfit Hack.
  intros Hdec Hsize Hdec_ack Hsize_ack.
  (* the sender *)
  destruct (ReliableSend_single fuel sender pktHdr mailHdr data (length s))
    as (d & Hd & Hsend);
    [by apply CString.strlen_text|lia|done|done|done|done|done|].
  rewrite Hsent in Hsend.
  set (p := packet_of sender pktHdr h data) in *.
  set (entry := mkMail pktHdr mailHdr d 0 1) in *.
  set (sender1 := transmitted p (set_sentMessages [entry] sender)) in *.
  (* the packet at the peer *)
  set (mail := {| pktHdr := p.1; mailHdr := h;
                  data := take (MailHeader.length mailHdr) data;
                  remainingParts := 0; attempts := 0 |}).
  set (box := Z.to_nat (MailHeader.to mailHdr)).
  set (peer1 := set_boxes (<[box := [mail]]> (boxes peer))
                  (set_arrived [] (set_arrived [p] peer))).
  assert (PostalDelivery (set_arrived [p] peer) = Ok () peer1) as Hdeliver.
  { pose proof (PostalDelivery_run (set_arrived [p] peer) p.1 p.2 [] [])
      as Hrun.
    cbv zeta in Hrun. cbn [fst snd p packet_of] in Hrun.
    change (MailHeader.length h) with (MailHeader.length mailHdr) in Hrun.
    rewrite Hdec in Hrun.
    change (MailHeader.to h) with (MailHeader.to mailHdr) in Hrun.
    change (MailHeader.length h) with (MailHeader.length mailHdr) in Hrun.
    rewrite length_app, Hsize, length_take, drop_app_length' in Hrun by done.
    rewrite take_take_same in Hrun.
    apply Hrun; [done|done|done|lia|done]. }
  assert (boxes peer1 !! box = Some [mail]) as Hbox_peer1.
  { simpl. apply list_lookup_insert_eq. by eapply lookup_lt_Some. }
  exists sender1, p, peer1.
  split; [exact Hsend|]. split; [done|]. split; [done|].
  split; [exact Hdeliver|]. split.
  2:{ intros Hchecks Hnone.
      by apply (ReliableReceive_nothing_in_flight fuel peer1 _ out _ mail []). }
  intros Hpeer.
  (* the peer receives and acknowledges *)
  pose proof (ReliableReceive_last fuel peer1 (MailHeader.to mailHdr) out
                [] resta mail [] s) as Hreceive.
  set (q := reply_packet peer1 mail) in *.
  set (peer2 := set_sent (sent peer1 ++ [q])
                  (got (Z.to_nat (MailHeader.to mailHdr)) mail [] peer1)) in *.
  assert (length (take (MailHeader.length mailHdr) data)
          = MailHeader.length mailHdr) as Htake by (rewrite length_take; lia).
  specialize (Hreceive Hbox_peer1 Hpeer).
  assert (receivable peer1 (MailHeader.to mailHdr) out mail) as Hrecv.
  { unfold receivable. simpl. rewrite Htake, Hfrom. repeat split; (done || lia). }
  assert (carries mail s) as Hcarries.
  { split; [done|]. simpl. rewrite take_take_same.
    unfold data. rewrite take_text_terminated by done. eauto. }
  specialize (Hreceive Hrecv Hcarries ltac:(constructor)
                ltac:(simpl; lia) ltac:(simpl; lia) Hlen).
  (* the acknowledgement at the sender *)
  set (reply := {| pktHdr := q.1; mailHdr := reply_mailHdr h; data := ack;
                   remainingParts := 0; attempts := 0 |}).
  set (sender2 := set_boxes (<[1%nat := [reply]]> (boxes sender1))
                    (set_arrived [] (set_arrived [q] sender1))).
  assert (PostalDelivery (set_arrived [q] sender1) = Ok () sender2)
    as Hdeliver_ack.
  { pose proof (PostalDelivery_run (set_arrived [q] sender1) q.1 q.2 [] [])
      as Hrun.
    cbv zeta in Hrun.
    cbn [fst snd q reply_packet packet_of mail Post.mailHdr] in Hrun.
    change (MailHeader.length (reply_mailHdr h)) with (length ack) in Hrun.
    rewrite firstn_all in Hrun. rewrite Hdec_ack in Hrun.
    change (MailHeader.to (reply_mailHdr h)) with (MailHeader.from mailHdr)
      in Hrun.
    change (MailHeader.length (reply_mailHdr h)) with (length ack) in Hrun.
    rewrite Hfrom in Hrun. change (Z.to_nat 1) with 1%nat in Hrun.
    rewrite length_app, Hsize_ack, drop_app_length', firstn_all in Hrun by done.
    apply Hrun; [done|simpl; lia|done|lia|done]. }
  assert (boxes sender2 !! 1%nat = Some [reply]) as Hbox_sender2.
  { simpl. apply list_lookup_insert_eq. by eapply lookup_lt_Some. }
  (* the sender wakes up *)
  pose proof (Receive_run sender2 1 (replicate MaxMailSize CString.NUL)
                reply []) as Hwake.
  specialize (Hwake ltac:(simpl; lia) Hbox_sender2 ltac:(by right)
                ltac:(apply Nat.le_refl)
                ltac:(rewrite length_replicate; exact Hack)
                ltac:(exact Hack)).
  set (sender3 := got (Z.to_nat 1) reply [] sender2) in *.
  assert (sentMessages sender3 = []) as Hdone.
  { simpl. by rewrite bool_decide_eq_true_2. }
  eexists _, _, peer2, q, sender2, _, sender3.
  split; [exact Hreceive|].
  split; [by rewrite app_nil_l, CString.chars_text|].
  split; [done|]. split; [exact Hdeliver_ack|]. split; [exact Hwake|].
  split; [exact Hdone|]. split; [done|].
  apply fire_halts; [|exact Hdone]. simpl. by rewrite Htimeouts.
Qed.

(** ** Retransmissions and duplicates *)

(** X19. The packet a timeout sends again is made from the copy the in-flight
    entry keeps, which [strncpy] cut at the terminator of the text and padded
    with NUL: it has the headers of the packet first sent and carries the
    text, and NUL bytes in place of whatever followed the terminator in the
    caller's data.  When [mailHdr.length] does not reach beyond the
    terminator the two packets are the same. *)
Theorem retransmission_is_padded_with_NUL fuel po pktHdr mailHdr s rest :
  let data := s ++ CString.NUL :: rest in
  let h := with_remainingParts 0 mailHdr in
  CString.text s → (length s < MaxMailSize)%nat →
  (MailHeader.length mailHdr ≤ MaxMailSize)%nat →
  (MailHeader.length mailHdr ≤ length data)%nat →
  1 ≤ MAXREEMISSIONS →
  sentMessages po = [] → timeouts po = 0%nat →
  1 < numBoxes po → boxes po !! 1%nat = Some [] →
  0 ≤ MailHeader.to mailHdr < numBoxes po →
  ∃ po1 po2 p p',
    ReliableSend (S fuel) pktHdr mailHdr data po
      = Blocked (MailboxEmpty 1) po1
    ∧ fire (S fuel) po1 = Blocked (MailboxEmpty 1) po2
    ∧ sent po2 = sent po ++ [p; p']
    ∧ p'.1 = p.1
    ∧ p.2 = encodeMailHeader h ++ take (MailHeader.length mailHdr) data
    ∧ p'.2 = encodeMailHeader h
               ++ take (MailHeader.length mailHdr)
                    (s ++ replicate (MaxMailSize - length s) CString.NUL)
    ∧ ((MailHeader.length mailHdr ≤ S (length s))%nat → p' = p).
Proof.
  intros data h Hs Hshort Hlen Hdata Hmax Hsent Htimeouts Hboxes Hbox1 Hto.
  destruct (ReliableSend_single fuel po pktHdr mailHdr data (length s))
    as (d & Hd & Hsend);
    [by apply CString.strlen_text|lia|done|done|done|done|done|].
  rewrite Hsent in Hsend.
  unfold data in Hd. rewrite CString.strncpy_text, take_ge in Hd by (done || lia).
  injection Hd as <-.
  set (d := s ++ replicate (MaxMailSize - length s) CString.NUL) in *.
  set (entry := mkMail pktHdr mailHdr d 0 1) in *.
  set (p := packet_of po pktHdr (with_remainingParts 0 mailHdr) data) in *.
  set (po1 := transmitted p (set_sentMessages [entry] po)) in *.
  assert (length d = MaxMailSize) as Hd_len.
  { unfold d. rewrite length_app, length_replicate. lia. }
  assert (CString.strlen d = Some (length s)) as Hd_strlen.
  { unfold d. destruct (MaxMailSize - length s)%nat as [|k] eqn:Hk; [lia|].
    by apply CString.strlen_text. }
  pose proof (fire_resends fuel po1 0 entry []) as Hfire.
  rewrite bool_decide_eq_true_2 in Hfire by (simpl; lia).
  specialize (Hfire ltac:(simpl; by rewrite Htimeouts) eq_refl).
  eexists po1, _, p, (packet_of_entry po1 entry).
  split; [exact Hsend|]. split.
  { apply Hfire; [|done|done].
    split; [exists (length s); split; [done|lia]|].
    split; [done|].
    split; [change (MailHeader.length mailHdr ≤ length d)%nat; lia|done]. }
  split; [simpl; by rewrite <- app_assoc|].
  split; [done|]. split; [done|]. split; [done|].
  intros Hshort_len. unfold packet_of_entry, p, packet_of. simpl.
  do 2 f_equal. unfold data, d.
  destruct (decide (MailHeader.length mailHdr ≤ length s)%nat) as [Hle|Hgt].
  - by rewrite !take_app_le.
  - rewrite !take_app_ge by lia.
    replace (MailHeader.length mailHdr - length s)%nat with 1%nat by lia.
    destruct (MaxMailSize - length s)%nat as [|k] eqn:Hk; [lia|]. done.
Qed.

(** X20. [ReliableReceive] does not recognise a packet it has received
    before.  When the packet of a single mail arrives twice, as after a
    retransmission, the postal worker queues both.  If [Get]'s call of
    [GetFirst] on the in-flight list returns at both calls (two entries or
    more are in flight, each [Get] taking at most one off the list, or
    [SynchList::GetFirst] yields NULL on an empty list), each call of
    [ReliableReceive] takes one of the two mails, acknowledges it and
    appends its text to the accumulator, which then holds the text twice.
    With nothing in flight and a [GetFirst] that is [List::GetFirst], the
    first call ends in the NULL dereference. *)
Theorem duplicate_is_received_again fuel peer p out resta t :
  let mail := mail_of_packet p in
  let box := MailHeader.to (mailHdr mail) in
  arrived peer = [p; p] →
  acceptable peer p →
  boxes peer !! Z.to_nat box = Some [] →
  length (boxes peer) = Z.to_nat (numBoxes peer) →
  carries mail t →
  MailHeader.remainingParts (mailHdr mail) ≤ 0 →
  0 ≤ MailHeader.from (mailHdr mail) < numBoxes peer →
  (MailHeader.length (mailHdr mail) ≤ length out)%nat →
  (length ack ≤ MaxMailSize)%nat →
  (length t + length t ≤ length resta)%nat →
  ∃ peer0,
    deliveries 2 peer = Ok () peer0
    ∧ boxes peer0 !! Z.to_nat box = Some [mail; mail]
    ∧ (checks_empty = true ∨ (2 ≤ length (sentMessages peer))%nat →
       ∃ r1 big1 peer1 r2 big2 peer2,
         ReliableReceive (S fuel) box out (CString.NUL :: resta) peer0
         = Ok (r1, big1) peer1
         ∧ CString.chars big1 = t
         ∧ ReliableReceive (S fuel) box r1.2 big1 peer1 = Ok (r2, big2) peer2
         ∧ CString.chars big2 = t ++ t
         ∧ sent peer2
           = sent peer ++ [reply_packet peer mail; reply_packet peer mail]
         ∧ boxes peer2 !! Z.to_nat box = Some [])
    ∧ (checks_empty = false → sentMessages peer = [] →
       ReliableReceive (S fuel) box out (CString.NUL :: resta) peer0
       = Undefined NullDereference).
Proof.
  intros mail box Harr Hok Hbox Hboxes Hcarries Hlast Hfrom Hout Hack Hfit.
  pose proof Hok as (Hto & Hlen & Hbuf).
  destruct (deliveries_by_mailbox [p; p] peer [] Harr Hboxes)
    as (peer0 & Hdeliver & _ & Hn & Hnet & Hs & Hsent0 & Hbox0);
    [constructor; [exact Hok|constructor; [exact Hok|constructor]]|].
  specialize (Hbox0 _ _ Hbox).
  assert (addressed_to (Z.to_nat box) [p; p] = [p; p]) as Haddr
    by (unfold addressed_to; by rewrite !filter_cons_True by done).
  rewrite Haddr in Hbox0. simpl in Hbox0. fold mail in Hbox0.
  assert (0 ≤ box < numBoxes peer) as Hbox_range by exact Hto.
  exists peer0. split; [exact Hdeliver|]. split; [exact Hbox0|]. split.
  2:{ intros Hchecks Hnone.
      apply (ReliableReceive_nothing_in_flight fuel peer0 _ out _ mail [mail]);
        [by rewrite Hn|done|done|by rewrite Hs]. }
  intros Hsent.
  assert (MailHeader.length (mailHdr mail) ≤ length (data mail))%nat as Hdata.
  { unfold mail, mail_of_packet. simpl. rewrite length_take, length_drop. lia. }
  assert (MailHeader.length (mailHdr mail) ≤ MaxMailSize)%nat as Hlen'
    by exact Hlen.
  assert (∀ po (o : list byte),
            numBoxes po = numBoxes peer → length o = length out →
            receivable po box o mail) as Hrecv.
  { intros po o Hnpo Ho. unfold receivable. rewrite Hnpo, Ho.
    repeat split; (done || lia). }
  pose proof (ReliableReceive_last fuel peer0 box out [] resta mail [mail] t
                Hbox0) as Hfirst.
  specialize (Hfirst ltac:(destruct Hsent as [?|Hsent]; [by left|right];
                           rewrite Hs; destruct (sentMessages peer);
                           [simpl in Hsent; lia|done])
                (Hrecv _ _ Hn eq_refl) Hcarries ltac:(constructor)
                ltac:(simpl; lia) Hlast Hlen').
  set (out1 := take _ _ ++ drop _ out) in Hfirst.
  set (peer1 := set_sent _ _) in Hfirst.
  assert (length out1 = length out) as Hout1.
  { unfold out1. rewrite length_app, length_take, length_drop. lia. }
  destruct Hcarries as [Ht Hr].
  pose proof (ReliableReceive_last fuel peer1 box out1 t
                (drop (length t) resta) mail [] t) as Hsecond.
  specialize (Hsecond ltac:(simpl; apply list_lookup_insert_eq;
                            by eapply lookup_lt_Some)).
  specialize (Hsecond ltac:(destruct Hsent as [?|Hsent]; [by left|right];
                            simpl; rewrite Hs;
                            destruct (sentMessages peer) as [|e [|e' es]];
                            [simpl in Hsent; lia|simpl in Hsent; lia|];
                            simpl; case_bool_decide; done)
                (Hrecv _ _ Hn Hout1) (conj Ht Hr) Ht
                ltac:(rewrite length_app; simpl; rewrite length_drop; lia)
                Hlast Hlen').
  eexists _, _, peer1, _, _, _.
  split; [exact Hfirst|].
  split; [by rewrite app_nil_l, CString.chars_text|].
  split; [exact Hsecond|].
  split; [by rewrite CString.chars_text by (by apply CString.text_app)|].
  split.
  - simpl. rewrite Hsent0, <- app_assoc.
    unfold reply_packet, packet_of. simpl. by rewrite Hnet.
  - simpl. rewrite list_insert_insert_eq.
    apply list_lookup_insert_eq. by eapply lookup_lt_Some.
Qed.

(** ** Every chunk acknowledged *)

Lemma set_boxes_same po (b : list (list Mail)) :
  boxes po = b → set_boxes b po = po.
Proof. intros <-. by destruct po. Qed.

Lemma acknowledged_run fuel po q e es :
  sentMessages po = e :: es → MailHeader.from (mailHdr e) = 1 →
  arrived po = [] → boxes po !! 1%nat = Some [] → 1 < numBoxes po →
  acceptable po q → MailHeader.to (decodeMailHeader q.2) = 1 →
  acknowledged fuel q po = fire fuel (set_sentMessages es po).
Proof.
  intros Hsent Hfrom Harr Hbox1 Hboxes (Hto & Hlen & Hbuf) Hq.
  unfold acknowledged. rewrite bind_run. unfold modify at 1.
  rewrite Harr, app_nil_l.
  rewrite bind_run.
  rewrite (PostalDelivery_run (set_arrived [q] po) q.1 q.2 [] []);
    [|by destruct q|done|done|done|by rewrite Hq].
  rewrite Hq. change (Z.to_nat 1) with 1%nat. rewrite app_nil_l.
  set (mail := {| pktHdr := q.1; mailHdr := decodeMailHeader q.2;
                  data := take (MailHeader.length (decodeMailHeader q.2))
                               (drop sizeofMailHeader q.2);
                  remainingParts := 0; attempts := 0 |}).
  set (po1 := set_boxes _ _).
  rewrite bind_run.
  rewrite (Receive_run po1 1 _ mail []).
  - f_equal. unfold got, po1. simpl. rewrite Hsent. simpl.
    rewrite Hq, Hfrom, bool_decide_eq_true_2 by done.
    rewrite list_insert_insert_eq, list_insert_id by done.
    unfold set_sentMessages, set_boxes, set_arrived. simpl.
    by rewrite Harr.
  - done.
  - unfold po1. apply list_lookup_insert_eq. by eapply lookup_lt_Some.
  - right. simpl. by rewrite Hsent.
  - simpl. rewrite length_take, length_drop. lia.
  - simpl. rewrite length_replicate. done.
  - done.
Qed.



(** ** The sizes of the caller's buffers *)

Lemma MailBox_Get_overflow po box out mail messages :
  boxes po !! box = Some (mail :: messages) →
  (checks_empty = true ∨ sentMessages po ≠ []) →
  (length out < MailHeader.length (mailHdr mail))%nat →
  MailBox_Get box out po = Undefined OutOfBounds.
Proof.
  intros Hbox Hsent Hout. unfold MailBox_Get. run_monad.
  rewrite Hbox. simpl.
  assert (CString.bcopy (data mail) out (MailHeader.length (mailHdr mail))
          = None) as Hcopy.
  { unfold CString.bcopy. by rewrite decide_False by lia. }
  destruct (sentMessages po) as [|e es] eqn:Hs; simpl.
  - destruct Hsent as [->|]; [|done]. simpl. by rewrite Hcopy.
  - case_bool_decide; simpl; by rewrite Hcopy.
Qed.

(** X23. [Receive] and [ReliableReceive] are not told how many bytes the
    caller's buffers hold.  [Get] copies [mailHdr.length] bytes into the data
    buffer, and [ReliableReceive] appends the text of every fragment to the
    accumulator with [strcat]: when the data buffer is shorter than the mail,
    or the accumulator has no room left for the text and its terminator, the
    copy runs beyond the end of the buffer. *)
Theorem buffer_sizes_are_not_checked po box out mail messages :
  0 ≤ box < numBoxes po →
  boxes po !! Z.to_nat box = Some (mail :: messages) →
  (checks_empty = true ∨ sentMessages po ≠ []) →
  (MailHeader.length (mailHdr mail) ≤ length (data mail))%nat →
  ((length out < MailHeader.length (mailHdr mail))%nat →
   Receive box out po = Undefined OutOfBounds)
  ∧ (∀ fuel a resta t,
       (MailHeader.length (mailHdr mail) ≤ length out)%nat →
       carries mail t → CString.text a →
       (length (a ++ CString.NUL :: resta) < length a + length t + 1)%nat →
       ReliableReceive (S fuel) box out (a ++ CString.NUL :: resta) po
       = Undefined OutOfBounds).
Proof.
  intros Hbox Hmail Hsent Hdata. split.
  - intros Hout. unfold Receive. rewrite bind_run. simpl.
    rewrite bind_run, ASSERT_true by done.
    by rewrite bind_run, (MailBox_Get_overflow _ _ _ mail messages).
  - intros fuel a resta t Hout (Ht & r & Hcarry) Ha Hfull.
    cbn [ReliableReceive]. rewrite bind_run. simpl.
    rewrite bind_run, ASSERT_true by done.
    rewrite bind_run, (MailBox_Get_run _ _ _ mail messages) by done.
    rewrite bind_run. unfold access at 1.
    rewrite Hcarry, <- app_assoc. simpl.
    unfold CString.strcat. rewrite !CString.strlen_text by done.
    by rewrite decide_False by lia.
Qed.

(** ** A message that was already waiting in mailbox 1 *)

(** X24. [ReliableSend] takes whatever mail it finds in mailbox 1 for the
    reply it waits for.  With a mail addressed to mailbox 1 already waiting
    there when a short text is sent from mailbox 1 with nothing in flight,
    the call sends its packet once and returns at once: [Get] hands over the
    waiting mail and, as its destination is the mailbox the entry was sent
    from, takes the entry just recorded off the in-flight list.  The timeout
    that follows finds nothing in flight, sends nothing and halts the
    machine, whether or not the packet has reached the peer. *)
Theorem waiting_mail_is_taken_for_the_reply fuel po pktHdr mailHdr s rest
    waiting others :
  let data := s ++ CString.NUL :: rest in
  CString.text s → (length s < MaxMailSize)%nat →
  (MailHeader.length mailHdr ≤ MaxMailSize)%nat →
  (MailHeader.length mailHdr ≤ length data)%nat →
  MailHeader.from mailHdr = 1 →
  sentMessages po = [] → timeouts po = 0%nat →
  1 < numBoxes po → 0 ≤ MailHeader.to mailHdr < numBoxes po →
  boxes po !! 1%nat = Some (waiting :: others) →
  MailHeader.to (Post.mailHdr waiting) = 1 →
  well_formed_mail waiting →
  ∃ po',
    ReliableSend (S fuel) pktHdr mailHdr data po = Ok () po'
    ∧ sent po'
      = sent po ++ [packet_of po pktHdr (with_remainingParts 0 mailHdr) data]
    ∧ sentMessages po' = []
    ∧ boxes po' !! 1%nat = Some others
    ∧ fire (S fuel) po' = Halted (set_timeouts 0 po').
Proof.
  intros data Hs Hshort Hlen Hdata Hfrom Hsent Ht Hboxes Hto Hbox1 Hwaiting
    [Hwlen Hwdata].
  assert (CString.strlen data = Some (length s)) as Hstrlen
    by (by apply CString.strlen_text).
  set (d := take MaxMailSize s ++ replicate (MaxMailSize - length s) CString.NUL).
  set (entry := mkMail pktHdr mailHdr d 0 1).
  set (p := packet_of po pktHdr (with_remainingParts 0 mailHdr) data).
  set (po1 := transmitted p (set_sentMessages [entry] po)).
  assert (ReliableSend (S fuel) pktHdr mailHdr data po
          = (Receive 1 (replicate MaxMailSize CString.NUL) ≫= λ _, mret ()) po1)
    as Hsend.
  { cbn [ReliableSend]. rewrite bind_run. unfold access at 1. rewrite Hstrlen.
    rewrite bool_decide_eq_false_2 by lia.
    rewrite bind_run, Mail_new_run by done.
    cbn [Post.pktHdr Post.mailHdr Post.attempts].
    rewrite bind_run. unfold access at 1.
    unfold data at 1. rewrite (CString.strncpy_text s rest) by done.
    rewrite bind_run, FindMail_run, Hsent. cbn [head].
    rewrite bind_run. rewrite bind_run. unfold modify at 1.
    unfold mret at 1, M_ret at 1.
    rewrite bind_run. cbn [set_attempts Post.remainingParts].
    rewrite Send_run by done.
    rewrite bind_run. unfold Schedule_TimeOutHandler, modify at 1.
    unfold SynchList.Append. rewrite Hsent. reflexivity. }
  pose proof (Receive_run po1 1 (replicate MaxMailSize CString.NUL)
                waiting others) as Hreceive.
  specialize (Hreceive ltac:(simpl; lia) Hbox1 ltac:(by right)
                ltac:(lia)
                ltac:(rewrite length_replicate; exact Hwlen) Hwlen).
  eexists. split; [by rewrite Hsend, bind_run, Hreceive|].
  assert (sentMessages (got (Z.to_nat 1) waiting others po1) = []) as Hnone.
  { simpl. by rewrite Hwaiting, Hfrom, bool_decide_eq_true_2. }
  split; [done|]. split; [exact Hnone|]. split.
  - simpl. apply list_lookup_insert_eq. by eapply lookup_lt_Some.
  - apply fire_halts; [|exact Hnone]. simpl. by rewrite Ht.
Qed.

(** X25. An acknowledgement that comes after the entry has been sent again
    [k] times, [k] not above [MAXREEMISSIONS], still ends the campaign: the
    packet has been handed to the network [k] more times, the sender wakes up
    in [Receive], the entry leaves the in-flight list, and the timeout that
    is left finds nothing in flight, sends nothing and halts the machine. *)
Theorem late_acknowledgement_is_accepted fuel po e k q :
  sentMessages po = [e] → attempts e = 1 →
  MailHeader.from (mailHdr e) = 1 →
  timeouts po = 1%nat → arrived po = [] →
  1 < numBoxes po → boxes po !! 1%nat = Some [] →
  resendable po e →
  Z.of_nat k ≤ MAXREEMISSIONS →
  acceptable po q → MailHeader.to (decodeMailHeader q.2) = 1 →
  ∃ pok po',
    after (fires (S fuel) k po) = Some pok
    ∧ sent pok = sent po ++ replicate k (packet_of_entry po e)
    ∧ sentMessages pok = [set_attempts (1 + Z.of_nat k) e]
    ∧ acknowledged (S fuel) q pok = Halted po'
    ∧ sentMessages po' = [] ∧ sent po' = sent pok.
Proof.
  intros Hsent Hattempts Hfrom Ht Harr Hboxes Hbox1 Hok Hk Hq Hq1.
  exists (resent k e po). eexists.
  split; [apply (fires_resend fuel po e []); (done || lia)|].
  split; [done|].
  assert (sentMessages (resent k e po) = [set_attempts (1 + Z.of_nat k) e])
    as Hsent_k by (simpl; by rewrite Hsent, Hattempts).
  split; [exact Hsent_k|].
  rewrite (acknowledged_run (S fuel) (resent k e po) q _ [] Hsent_k);
    [|done|done|done|done|done|done].
  split; [by apply (fire_halts fuel _ 0)|]. done.
Qed.

End post_cc.

End Post.

(* ================================================================== *)
(** * A post office with four mailboxes and mails of ten bytes *)
(* ================================================================== *)

Module Scenario.
Import Post.

Definition MaxMailSize : nat := 10.
Definition MAXREEMISSIONS : Z := 3.
Definition sizeofMailHeader : nat := 16.

(** A layout for [MailHeader]: [to], [from], [length] and [remainingParts],
    each a 32-bit little-endian integer; [length] is unsigned, the three
    others are signed. *)
Definition byte_of_Z (z : Z) : byte :=
  default x00 (Byte.of_N (Z.to_N (z `mod` 256))).

Definition int_bytes (z : Z) : list byte :=
  [byte_of_Z z; byte_of_Z (z / 256); byte_of_Z (z / 65536);
   byte_of_Z (z / 16777216)].

Definition bytes_unsigned (b : list byte) : Z :=
  foldr (λ c acc, Z.of_N (Byte.to_N c) + 256 * acc) 0 (take 4 b).

Definition bytes_int (b : list byte) : Z :=
  let u := bytes_unsigned b in
  if bool_decide (u < 2147483648) then u else u - 4294967296.

Definition encodeMailHeader (h : MailHeader.t) : list byte :=
  int_bytes (MailHeader.to h) ++ int_bytes (MailHeader.from h)
    ++ int_bytes (Z.of_nat (MailHeader.length h))
    ++ int_bytes (MailHeader.remainingParts h).

Definition decodeMailHeader (b : list byte) : MailHeader.t :=
  MailHeader.mk (bytes_int b) (bytes_int (drop 4 b))
                (Z.to_nat (bytes_unsigned (drop 8 b))) (bytes_int (drop 12 b)).

Local Abbreviation Send := (Post.Send MaxMailSize sizeofMailHeader encodeMailHeader).
Local Abbreviation MailBox_Get := (Post.MailBox_Get).
Local Abbreviation ReliableSend :=
  (Post.ReliableSend MaxMailSize MAXREEMISSIONS sizeofMailHeader encodeMailHeader).
Local Abbreviation TimeOutHandler :=
  (Post.TimeOutHandler MaxMailSize MAXREEMISSIONS sizeofMailHeader encodeMailHeader).
Local Abbreviation fire :=
  (Post.fire MaxMailSize MAXREEMISSIONS sizeofMailHeader encodeMailHeader).
Local Abbreviation fires :=
  (Post.fires MaxMailSize MAXREEMISSIONS sizeofMailHeader encodeMailHeader).
Local Abbreviation ReliableReceive :=
  (Post.ReliableReceive MaxMailSize sizeofMailHeader encodeMailHeader).
Local Abbreviation PostalDelivery :=
  (Post.PostalDelivery MaxMailSize sizeofMailHeader decodeMailHeader).

(** Machine 0, four empty mailboxes, nothing in flight. *)
Definition office : PostOffice :=
  {| netAddr := 0; numBoxes := 4; boxes := [[]; []; []; []];
     sentMessages := []; sent := []; arrived := []; timeouts := 0 |}.

(** Machine 1, likewise. *)
Definition peer_office : PostOffice :=
  {| netAddr := 1; numBoxes := 4; boxes := [[]; []; []; []];
     sentMessages := []; sent := []; arrived := []; timeouts := 0 |}.

(** "HELLO", sent from mailbox 1 of machine 0 to mailbox 2 of machine 1. *)
Definition HELLO : list byte := CString.literal [x48; x45; x4c; x4c; x4f].
Definition to_machine_1 : PacketHeader.t := PacketHeader.mk 1 0 0.
Definition from_box_1_to_box_2 : MailHeader.t := MailHeader.mk 2 1 6 0.


(** A caller's buffer of [MaxMailSize] bytes. *)
Definition buffer : list byte := replicate MaxMailSize x00.

(** An accumulator of 32 bytes holding the empty string. *)
Definition accumulator : list byte := replicate 32 x00.

(** An in-flight entry: "HELLO" from mailbox 1 to mailbox 0 of the peer. *)
Definition entry (attempts : Z) : Mail :=
  {| pktHdr := to_machine_1; mailHdr := MailHeader.mk 0 1 6 0;
     data := HELLO ++ replicate 4 x00; remainingParts := 0;
     attempts := attempts |}.

(** A mail as the postal worker queues it: "Got it!" in 8 bytes. *)
Definition arrival (to from : Z) : Mail :=
  {| pktHdr := PacketHeader.mk 0 1 24; mailHdr := MailHeader.mk to from 8 0;
     data := ack; remainingParts := 0; attempts := 0 |}.

Definition with_boxes (b : list (list Mail)) (inflight : list Mail)
    (po : PostOffice) : PostOffice :=
  set_sentMessages inflight (set_boxes b po).

(** An in-flight entry of machine 1: "HELLO" from its mailbox 1 to mailbox 0
    of machine 0, sent once. *)
Definition peer_entry : Mail :=
  {| pktHdr := PacketHeader.mk 0 1 0; mailHdr := MailHeader.mk 0 1 6 0;
     data := HELLO ++ replicate 4 x00; remainingParts := 0; attempts := 1 |}.

(** Machine 1 while that text is in flight. *)
Definition busy_peer : PostOffice :=
  with_boxes [[]; []; []; []] [peer_entry] peer_office.

Ltac concrete :=
  solve [ reflexivity | lia | cbn; lia | vm_compute; done
        | repeat constructor; cbn; lia ].

(** ** [Send] *)

Lemma Send_HELLO :
  ∃ po',
    Send to_machine_1 from_box_1_to_box_2 HELLO office = Ok () po'
    ∧ sent po' = [(PacketHeader.mk 1 0 (16 + 6),
                   encodeMailHeader from_box_1_to_box_2 ++ HELLO)].
Proof.
  destruct (Post.Send_hands_header_then_data MaxMailSize sizeofMailHeader
              encodeMailHeader office to_machine_1 from_box_1_to_box_2 HELLO)
    as (po' & Hsend & Hsent & _); [concrete|concrete|concrete|].
  exists po'. split; [exact Hsend|exact Hsent].
Defined.

(** ** [Get] and the in-flight list *)

Lemma Get_acknowledges_entry_from_mailbox_1 :
  ∃ r po',
    MailBox_Get false 1 buffer
      (with_boxes [[]; [arrival 1 0]; []; []] [entry 1] office) = Ok r po'
    ∧ sentMessages po' = [].
Proof.
  destruct (Post.Get_acknowledges_oldest_entry false
              (with_boxes [[]; [arrival 1 0]; []; []] [entry 1] office)
              1 buffer (arrival 1 0) [] (entry 1) [])
    as (r & po' & Hget & Hremoved & _);
    [concrete|concrete|concrete|concrete|].
  exists r, po'. split; [exact Hget|]. apply Hremoved. reflexivity.
Defined.

(** The entry was sent to mailbox 0 and a message from mailbox 0 arrives, in
    mailbox 2: the entry stays.  The entry was sent to mailbox 0 and a
    message from mailbox 3 arrives, in mailbox 1: the entry is removed. *)
Lemma Get_does_not_compare_destination_with_source :
  (MailHeader.to (mailHdr (entry 1)) = MailHeader.from (mailHdr (arrival 2 0))
   ∧ sentMessages <$>
       after (MailBox_Get false 2 buffer
                (with_boxes [[]; []; [arrival 2 0]; []] [entry 1] office))
     = Some [entry 1])
  ∧ (MailHeader.to (mailHdr (entry 1)) ≠ MailHeader.from (mailHdr (arrival 1 3))
     ∧ sentMessages <$>
         after (MailBox_Get false 1 buffer
                  (with_boxes [[]; [arrival 1 3]; []; []] [entry 1] office))
       = Some []).
Proof. repeat split; (done || vm_compute; reflexivity). Qed.

(** ** Retransmission *)


Lemma first_send_of_HELLO_is_recorded :
  ∃ po' e,
    ReliableSend false 1 to_machine_1 from_box_1_to_box_2 HELLO office
      = Blocked (MailboxEmpty 1) po'
    ∧ sentMessages po' = [e] ∧ attempts e = 1.
Proof.
  destruct (Post.single_send_reuses_oldest_entry MaxMailSize MAXREEMISSIONS
              sizeofMailHeader encodeMailHeader false 0 office to_machine_1
              from_box_1_to_box_2 HELLO 5)
    as [Hfresh _];
    [concrete|concrete|concrete|concrete|concrete|concrete|concrete|].
  destruct Hfresh as (po' & e & Hsend & Hsent & Hattempts & _); [concrete|].
  exists po', e. split; [exact Hsend|]. split; [exact Hsent|exact Hattempts].
Defined.

(** An entry sent to mailbox 0 is in flight and "HELLO" is sent to mailbox 2:
    no entry is added for it, the entry for mailbox 0 counts one more
    attempt. *)
Lemma single_send_does_not_look_at_the_destination :
  MailHeader.to (mailHdr (entry 1)) ≠ MailHeader.to from_box_1_to_box_2
  ∧ sentMessages <$>
      after (ReliableSend false 1 to_machine_1 from_box_1_to_box_2 HELLO
               (with_boxes [[]; []; []; []] [entry 1] office))
    = Some [entry 2].
Proof. split; [done|vm_compute; reflexivity]. Qed.

(** The oldest entry has been sent four times: the handler does not send it
    again. *)
Lemma TimeOutHandler_on_exhausted_entry :
  sentMessages (with_boxes [[]; []; []; []] [entry 4] office) ≠ []
  ∧ TimeOutHandler false 1 (with_boxes [[]; []; []; []] [entry 4] office)
    = AssertFailed NetworkError.
Proof. split; [done|reflexivity]. Qed.

(** ** Mailboxes as queues *)

Definition two_messages : list (PacketHeader.t * MailHeader.t * list byte) :=
  [(to_machine_1, from_box_1_to_box_2, HELLO);
   (to_machine_1, MailHeader.mk 2 3 8 0, ack)].


(** The same two messages while two texts are in flight. *)
Lemma two_messages_come_out_in_order :
  ∃ po1 po2,
    Puts MaxMailSize 2 two_messages
      (with_boxes [[]; []; []; []] [entry 1; entry 1] office) = Ok () po1
    ∧ Gets false 2 2 buffer po1 = Ok (delivered buffer <$> two_messages) po2.
Proof.
  destruct (Post.mailbox_is_fifo MaxMailSize false
              (with_boxes [[]; []; []; []] [entry 1; entry 1] office)
              2 buffer two_messages)
    as [(po1 & Hputs & _ & Hreturns & _) _]; [concrete|concrete|].
  destruct Hreturns as (po2 & Hgets & _); [right; vm_compute; lia|].
  exists po1, po2. split; [exact Hputs|exact Hgets].
Defined.

(** ** The reply to a mail sent from mailbox 3 *)



(** ** A text of twenty-five characters *)

Definition alphabet : list byte :=
  [x41; x42; x43; x44; x45; x46; x47; x48; x49; x4a; x4b; x4c; x4d;
   x4e; x4f; x50; x51; x52; x53; x54; x55; x56; x57; x58; x59].

Definition to_box_2 : MailHeader.t := MailHeader.mk 2 1 26 0.

Definition alphabet_chunks : list Mail :=
  chunks MaxMailSize to_machine_1 to_box_2 alphabet 3 0 2.


(** Machine 1 with three texts of its own in flight and the packets of the
    three chunks received. *)
Definition peer_with_chunks : PostOffice :=
  set_arrived
    (packet_of_entry sizeofMailHeader encodeMailHeader office
       <$> alphabet_chunks)
    (with_boxes [[]; []; []; []] [peer_entry; peer_entry; peer_entry]
       peer_office).

Lemma alphabet_is_reassembled :
  ∃ peer1 pktHdr mailHdr out bigBuffer peer2,
    deliveries MaxMailSize sizeofMailHeader decodeMailHeader 3
      peer_with_chunks
    = Ok () peer1
    ∧ ReliableReceive false 3 2 buffer accumulator peer1
      = Ok (pktHdr, mailHdr, out, bigBuffer) peer2
    ∧ CString.chars bigBuffer = alphabet
    ∧ length (sent peer2) = 3%nat.
Proof.
  destruct (Post.fragments_are_reassembled MaxMailSize sizeofMailHeader
              encodeMailHeader decodeMailHeader false 0 office
              peer_with_chunks
              to_machine_1 to_box_2 alphabet buffer (replicate 31 x00) [])
    as (peer1 & Hdeliver & Hreturns & _);
    [concrete|concrete|concrete|concrete| |concrete|concrete|concrete
    |concrete|concrete|concrete|].
  - repeat constructor.
  - destruct Hreturns
      as (pktHdr & mailHdr & out & bigBuffer & peer2 & Hreceive & Htext
          & Hacks & _);
      [right; vm_compute; lia|].
    exists peer1, pktHdr, mailHdr, out, bigBuffer, peer2.
    split; [exact Hdeliver|]. split; [exact Hreceive|].
    split; [exact Htext|exact Hacks].
Defined.

(** ** A text of exactly [MaxMailSize] characters *)

Definition ten_As : list byte := CString.literal (replicate 10 x41).

(** C1, at the boundary.  Ten characters are more than [MaxMailSize - 1] and
    would make two pieces,
    but [ReliableSend] takes its one-mail branch: one entry, that of a final
    fragment, whose copy of the text fills the buffer and has no terminator;
    the timeout that follows calls [strlen] on that copy. *)
Lemma ten_characters_are_not_split :
  CString.strlen ten_As = Some 10%nat
  ∧ (MaxMailSize - 1 < 10)%nat
  ∧ divRoundUp 10 (MaxMailSize - 1) = 2%nat
  ∧ sentMessages <$>
      after (ReliableSend false 2 to_machine_1 (MailHeader.mk 2 1 10 0)
               ten_As office)
    = Some [{| pktHdr := to_machine_1; mailHdr := MailHeader.mk 2 1 10 0;
               data := replicate 10 x41; remainingParts := 0;
               attempts := 1 |}]
  ∧ CString.strlen (replicate 10 x41) = None
  ∧ (po ← after (ReliableSend false 2 to_machine_1 (MailHeader.mk 2 1 10 0)
                   ten_As office);
     Some (fire false 2 po))
    = Some (Undefined OutOfBounds).
Proof. repeat split; vm_compute; reflexivity. Qed.

(** ** [GetFirst] with nothing in flight *)

(** C9.  [List::GetFirst] reads [first->item] whatever [first] is, where
    [Remove] returns NULL on an empty list.
    A message waits in mailbox 1 and nothing is in flight.  [FindMail] and
    the timeout handler test [isEmpty] and do not call [GetFirst]; [Get] calls
    it, and with a [SynchList] that hands the call to [List::GetFirst] the
    NULL [first] is dereferenced. *)
Lemma Get_calls_GetFirst_on_the_empty_list :
  LinkedList.GetFirst (LinkedList.new_List (A := Mail)) = None
  ∧ LinkedList.Remove (LinkedList.new_List (A := Mail))
    = Some (None, LinkedList.new_List)
  ∧ FindMail false (entry 1)
      (with_boxes [[]; [arrival 1 0]; []; []] [] office)
    = Ok None (with_boxes [[]; [arrival 1 0]; []; []] [] office)
  ∧ TimeOutHandler false 1 (with_boxes [[]; [arrival 1 0]; []; []] [] office)
    = Halted (with_boxes [[]; [arrival 1 0]; []; []] [] office)
  ∧ MailBox_Get false 1 buffer
      (with_boxes [[]; [arrival 1 0]; []; []] [] office)
    = Undefined NullDereference.
Proof. repeat split; vm_compute; reflexivity. Qed.

(** ** A post office in use *)

(** "Got it!" waits in mailbox 1 while "HELLO" is in flight. *)
Definition waiting_office : PostOffice :=
  with_boxes [[]; [arrival 1 0]; []; []] [entry 1] office.

Lemma waiting_office_consistent : consistent MaxMailSize waiting_office.
Proof.
  split; [done|]. split; [done|].
  repeat constructor; cbn; lia.
Qed.

Lemma Receive_on_waiting_office :
  ∃ po',
    Post.Receive MaxMailSize false 1 buffer waiting_office
    = Ok (Post.pktHdr (arrival 1 0), Post.mailHdr (arrival 1 0),
          Post.data (arrival 1 0)
            ++ drop (length (Post.data (arrival 1 0))) buffer) po'
    ∧ boxes po' !! Z.to_nat 1 = Some []
    ∧ sentMessages po' = acknowledge (arrival 1 0) (sentMessages waiting_office)
    ∧ consistent MaxMailSize po'.
Proof.
  destruct (Post.Receive_on_consistent_office MaxMailSize false
              waiting_office 1 buffer waiting_office_consistent)
    as [_ Hin]; [concrete|].
  destruct (Hin ltac:(cbn; lia)) as (messages & Hbox & _ & Hcase).
  vm_compute in Hbox. injection Hbox as <-.
  destruct Hcase as [Hok _]. apply Hok. right. discriminate.
Defined.

Lemma HELLO_from_office_to_peer :
  ∃ sender1 p receiver1 pktHdr' receiver2,
    Send to_machine_1 from_box_1_to_box_2 HELLO office = Ok () sender1
    ∧ sent sender1 = sent office ++ [p]
    ∧ PostalDelivery (set_arrived [p] busy_peer) = Ok () receiver1
    ∧ Post.Receive MaxMailSize false (MailHeader.to from_box_1_to_box_2)
        buffer receiver1
      = Ok (pktHdr', from_box_1_to_box_2,
            take (MailHeader.length from_box_1_to_box_2) HELLO
              ++ drop (MailHeader.length from_box_1_to_box_2) buffer)
           receiver2
    ∧ PacketHeader.from pktHdr' = netAddr office
    ∧ PacketHeader.to pktHdr' = PacketHeader.to to_machine_1
    ∧ boxes receiver2 !! Z.to_nat (MailHeader.to from_box_1_to_box_2)
      = Some [].
Proof.
  destruct (Post.Send_PostalDelivery_Receive MaxMailSize sizeofMailHeader
              encodeMailHeader decodeMailHeader false office busy_peer
              to_machine_1 from_box_1_to_box_2 HELLO buffer)
    as (sender1 & p & receiver1 & pktHdr' & Hsend & Hsent & Hdeliver & Hfrom
        & Hto & Hreturns & _);
    [concrete|concrete|concrete|concrete|concrete|concrete|concrete|concrete|].
  destruct Hreturns as (receiver2 & Hreceive & Hbox); [by right|].
  by exists sender1, p, receiver1, pktHdr', receiver2.
Defined.

(** Three packets for machine 1: for its mailboxes 2, 1 and 2. *)
Definition three_packets : list packet :=
  [packet_of sizeofMailHeader encodeMailHeader office to_machine_1
     (MailHeader.mk 2 1 6 0) HELLO;
   packet_of sizeofMailHeader encodeMailHeader office to_machine_1
     (MailHeader.mk 1 0 6 0) HELLO;
   packet_of sizeofMailHeader encodeMailHeader office to_machine_1
     (MailHeader.mk 2 3 6 0) HELLO].

Lemma three_packets_are_sorted :
  ∃ po',
    deliveries MaxMailSize sizeofMailHeader decodeMailHeader
      (length three_packets) (set_arrived three_packets peer_office)
    = Ok () po'
    ∧ arrived po' = []
    ∧ sentMessages po' = sentMessages (set_arrived three_packets peer_office)
    ∧ sent po' = sent (set_arrived three_packets peer_office)
    ∧ ∀ box messages,
        boxes (set_arrived three_packets peer_office) !! box = Some messages →
        boxes po' !! box
        = Some (messages
                  ++ (mail_of_packet sizeofMailHeader decodeMailHeader
                        <$> addressed_to decodeMailHeader box three_packets)).
Proof.
  apply (Post.PostalDelivery_sorts_by_mailbox MaxMailSize sizeofMailHeader
           decodeMailHeader (set_arrived three_packets peer_office)
           three_packets []);
    [concrete|concrete|].
  repeat constructor; vm_compute; done.
Defined.

Lemma HELLO_is_acknowledged :
  ∃ sender1 p peer1 r bigBuffer peer2 q sender2 a sender3,
    ReliableSend false 1 to_machine_1 from_box_1_to_box_2 HELLO office
      = Blocked (MailboxEmpty 1) sender1
    ∧ sent sender1 = sent office ++ [p]
    ∧ length (sentMessages sender1) = 1%nat
    ∧ PostalDelivery (set_arrived [p] busy_peer) = Ok () peer1
    ∧ ReliableReceive false 1 (MailHeader.to from_box_1_to_box_2) buffer
        accumulator peer1
      = Ok (r, bigBuffer) peer2
    ∧ CString.chars bigBuffer = [x48; x45; x4c; x4c; x4f]
    ∧ sent peer2 = sent busy_peer ++ [q]
    ∧ PostalDelivery (set_arrived [q] sender1) = Ok () sender2
    ∧ Post.Receive MaxMailSize false 1 (replicate MaxMailSize CString.NUL)
        sender2 = Ok a sender3
    ∧ sentMessages sender3 = []
    ∧ sent sender3 = sent office ++ [p]
    ∧ fire false 1 sender3 = Halted (set_timeouts 0 sender3).
Proof.
  destruct (Post.short_text_is_acknowledged MaxMailSize MAXREEMISSIONS
              sizeofMailHeader encodeMailHeader decodeMailHeader false 0
              office busy_peer to_machine_1 from_box_1_to_box_2
              [x48; x45; x4c; x4c; x4f] [] buffer (replicate 31 x00))
    as (sender1 & p & peer1 & Hsend & Hsent & Hentry & Hdeliver & Hreturns
        & _);
    [concrete|concrete|concrete|concrete|concrete|concrete|concrete|concrete
    |concrete|concrete|concrete|concrete|concrete|concrete|concrete
    |concrete|concrete|concrete|concrete|concrete|concrete|].
  destruct Hreturns
    as (r & bigBuffer & peer2 & q & sender2 & a & sender3 & Hrest);
    [by right|].
  by exists sender1, p, peer1, r, bigBuffer, peer2, q, sender2, a, sender3.
Defined.

Lemma HELLO_is_sent_again_as_it_was :
  ∃ po1 po2 p p',
    ReliableSend true 1 to_machine_1 from_box_1_to_box_2 HELLO office
      = Blocked (MailboxEmpty 1) po1
    ∧ fire true 1 po1 = Blocked (MailboxEmpty 1) po2
    ∧ sent po2 = sent office ++ [p; p']
    ∧ p'.1 = p.1
    ∧ p.2 = encodeMailHeader (with_remainingParts 0 from_box_1_to_box_2)
              ++ take (MailHeader.length from_box_1_to_box_2) HELLO
    ∧ p'.2 = encodeMailHeader (with_remainingParts 0 from_box_1_to_box_2)
               ++ take (MailHeader.length from_box_1_to_box_2)
                    ([x48; x45; x4c; x4c; x4f]
                       ++ replicate (MaxMailSize - 5) CString.NUL)
    ∧ ((MailHeader.length from_box_1_to_box_2 ≤ 6)%nat → p' = p).
Proof.
  apply (Post.retransmission_is_padded_with_NUL MaxMailSize MAXREEMISSIONS
           sizeofMailHeader encodeMailHeader true 0 office to_machine_1
           from_box_1_to_box_2 [x48; x45; x4c; x4c; x4f] []);
    concrete.
Defined.

(** The packet of "HELLO" for mailbox 2 of machine 1. *)
Definition HELLO_packet : packet :=
  packet_of sizeofMailHeader encodeMailHeader office to_machine_1
    from_box_1_to_box_2 HELLO.

(** Machine 1 with two texts of its own in flight and the packet of "HELLO"
    received twice. *)
Definition peer_with_duplicate : PostOffice :=
  set_arrived [HELLO_packet; HELLO_packet]
    (with_boxes [[]; []; []; []] [peer_entry; peer_entry] peer_office).

Lemma HELLO_twice :
  ∃ peer0 r1 big1 peer1 r2 big2 peer2,
    deliveries MaxMailSize sizeofMailHeader decodeMailHeader 2
      peer_with_duplicate = Ok () peer0
    ∧ boxes peer0 !! Z.to_nat 2
      = Some [mail_of_packet sizeofMailHeader decodeMailHeader HELLO_packet;
              mail_of_packet sizeofMailHeader decodeMailHeader HELLO_packet]
    ∧ ReliableReceive false 1 2 buffer accumulator peer0 = Ok (r1, big1) peer1
    ∧ CString.chars big1 = [x48; x45; x4c; x4c; x4f]
    ∧ ReliableReceive false 1 2 r1.2 big1 peer1 = Ok (r2, big2) peer2
    ∧ CString.chars big2
      = [x48; x45; x4c; x4c; x4f] ++ [x48; x45; x4c; x4c; x4f]
    ∧ sent peer2
      = sent peer_with_duplicate
          ++ [reply_packet sizeofMailHeader encodeMailHeader
                peer_with_duplicate
                (mail_of_packet sizeofMailHeader decodeMailHeader HELLO_packet);
              reply_packet sizeofMailHeader encodeMailHeader
                peer_with_duplicate
                (mail_of_packet sizeofMailHeader decodeMailHeader HELLO_packet)]
    ∧ boxes peer2 !! Z.to_nat 2 = Some [].
Proof.
  destruct (Post.duplicate_is_received_again MaxMailSize sizeofMailHeader
              encodeMailHeader decodeMailHeader false 0 peer_with_duplicate
              HELLO_packet buffer (replicate 31 x00)
              [x48; x45; x4c; x4c; x4f])
    as (peer0 & Hdeliver & Hbox & Hreturns & _);
    [concrete|vm_compute; repeat split; (done || lia)|concrete|concrete
    | |concrete|concrete|concrete|concrete|concrete|].
  { split; [repeat constructor|]. by exists []. }
  destruct Hreturns as (r1 & big1 & peer1 & r2 & big2 & peer2 & Hrest);
    [right; vm_compute; lia|].
  by exists peer0, r1, big1, peer1, r2, big2, peer2.
Defined.

(** An acknowledgement for mailbox 1 of machine 0, as machine 1 sends it. *)
Definition ack_packet : packet :=
  packet_of sizeofMailHeader encodeMailHeader peer_office
    (PacketHeader.mk 0 1 0) (MailHeader.mk 1 2 8 0) ack.


Lemma four_bytes_are_too_few :
  Post.Receive MaxMailSize false 1 (replicate 4 x00) waiting_office
  = Undefined OutOfBounds
  ∧ ReliableReceive false 1 1 buffer (replicate 4 x00) waiting_office
    = Undefined OutOfBounds.
Proof.
  destruct (Post.buffer_sizes_are_not_checked MaxMailSize sizeofMailHeader
              encodeMailHeader false waiting_office 1 buffer (arrival 1 0) [])
    as [_ Haccumulator]; [concrete|concrete|by right|concrete|].
  destruct (Post.buffer_sizes_are_not_checked MaxMailSize sizeofMailHeader
              encodeMailHeader false waiting_office 1 (replicate 4 x00)
              (arrival 1 0) [])
    as [Hdata _]; [concrete|concrete|by right|concrete|].
  split; [apply Hdata; concrete|].
  apply (Haccumulator 0%nat [] (replicate 3 x00)
           [x47; x6f; x74; x20; x69; x74; x21]); [concrete| |constructor|concrete].
  split; [repeat constructor|]. by exists [].
Defined.

Lemma HELLO_is_taken_for_acknowledged :
  ∃ po',
    ReliableSend false 1 to_machine_1 from_box_1_to_box_2 HELLO
      (with_boxes [[]; [arrival 1 0]; []; []] [] office) = Ok () po'
    ∧ sent po'
      = sent (with_boxes [[]; [arrival 1 0]; []; []] [] office)
          ++ [packet_of sizeofMailHeader encodeMailHeader
                (with_boxes [[]; [arrival 1 0]; []; []] [] office)
                to_machine_1 (with_remainingParts 0 from_box_1_to_box_2)
                HELLO]
    ∧ sentMessages po' = []
    ∧ boxes po' !! 1%nat = Some []
    ∧ fire false 1 po' = Halted (set_timeouts 0 po').
Proof.
  apply (Post.waiting_mail_is_taken_for_the_reply MaxMailSize MAXREEMISSIONS
           sizeofMailHeader encodeMailHeader false 0
           (with_boxes [[]; [arrival 1 0]; []; []] [] office)
           to_machine_1 from_box_1_to_box_2 [x48; x45; x4c; x4c; x4f] []
           (arrival 1 0) []);
    [concrete|concrete|concrete|concrete|concrete|concrete|concrete|concrete
    |concrete|concrete|concrete|].
  split; concrete.
Defined.

(** "HELLO" is in flight and has been sent once; the acknowledgement comes
    after two more timeouts. *)
Lemma HELLO_is_acknowledged_late :
  ∃ pok po',
    after (fires true 1 2 (set_timeouts 1 (with_boxes [[]; []; []; []]
                                             [entry 1] office)))
      = Some pok
    ∧ sent pok
      = sent (set_timeouts 1 (with_boxes [[]; []; []; []] [entry 1] office))
          ++ replicate 2
               (packet_of_entry sizeofMailHeader encodeMailHeader
                  (set_timeouts 1 (with_boxes [[]; []; []; []] [entry 1]
                                     office))
                  (entry 1))
    ∧ sentMessages pok = [set_attempts (1 + Z.of_nat 2) (entry 1)]
    ∧ acknowledged MaxMailSize MAXREEMISSIONS sizeofMailHeader
        encodeMailHeader decodeMailHeader true 1 ack_packet pok
      = Halted po'
    ∧ sentMessages po' = [] ∧ sent po' = sent pok.
Proof.
  apply (Post.late_acknowledgement_is_accepted MaxMailSize MAXREEMISSIONS
           sizeofMailHeader encodeMailHeader decodeMailHeader true 0
           (set_timeouts 1 (with_boxes [[]; []; []; []] [entry 1] office))
           (entry 1) 2 ack_packet);
    [concrete|concrete|concrete|concrete|concrete|concrete|concrete|
    |concrete| |concrete].
  - split; [exists 5%nat; split; [reflexivity|vm_compute; lia]|].
    split; [vm_compute; lia|]. split; [vm_compute; lia|]. vm_compute.
    by split.
  - vm_compute. repeat split; (done || lia).
Defined.

End Scenario.
